(** * electron-launch-handler: deep-link queue, dispatch pipeline and
      platform extractors, embedded from the TypeScript sources.

    Strings are Rocq [string]s read as UTF-8 byte sequences, so that a
    JavaScript string is represented by its UTF-8 encoding (strings that hold
    a lone surrogate have no representation and are outside the model). *)

From Stdlib Require Import String Ascii List ZArith NArith Lia Bool Arith.
From Stdlib Require Import Numbers.DecimalString.
From stdpp Require Import base gmap list.
Import ListNotations.

Local Open Scope string_scope.
Local Open Scope list_scope.
Local Open Scope nat_scope.

(** ** JavaScript string primitives used by the sources *)

Module Js.

Definition chars (s : string) : list ascii := list_ascii_of_string s.
Definition str (l : list ascii) : string := string_of_list_ascii l.

(** [String.prototype.startsWith]. *)
Fixpoint starts_with_chars (p s : list ascii) : bool :=
  match p, s with
  | [], _ => true
  | _ :: _, [] => false
  | a :: p', b :: s' => Ascii.eqb a b && starts_with_chars p' s'
  end.

Definition startsWith (s prefix : string) : bool :=
  starts_with_chars (chars prefix) (chars s).

(** [Array.prototype.includes] on an array of strings. *)
Definition includes (l : list string) (x : string) : bool :=
  existsb (String.eqb x) l.

(** [String(n)] for a non-negative integer. *)
Definition string_of_nat (n : nat) : string :=
  NilEmpty.string_of_uint (Nat.to_uint n).

(** [Array.prototype.join]. *)
Fixpoint join (sep : string) (l : list string) : string :=
  match l with
  | [] => ""
  | [x] => x
  | x :: rest => x ++ sep ++ join sep rest
  end.

(** [s.replace(/:$/, '')]: without the [m] flag, [$] matches only at the
    end of the input, so at most the last character is removed. *)
Fixpoint strip_trailing_colon_chars (l : list ascii) : list ascii :=
  match l with
  | [] => []
  | [c] => if Ascii.eqb c ":" then [] else [c]
  | c :: rest => c :: strip_trailing_colon_chars rest
  end.

Definition strip_trailing_colon (s : string) : string :=
  str (strip_trailing_colon_chars (chars s)).

End Js.

(** ** The platform's [URL] class

    [new URL(input)] is the WHATWG URL parser run without a base URL.  The
    scheme states and the whole continuation for non-special schemes (the
    schemes a deep-link application registers) are transcribed from the URL
    Standard; two parts that need Unicode tables or are unrelated to custom
    schemes are taken from the host environment: the continuation for the
    special schemes (http, https, ws, wss, ftp, file) and the IPv6 literal
    parser. *)

Module URL.

Import Js.

Definition code (c : ascii) : nat := nat_of_ascii c.
Definition in_range (lo hi : nat) (c : ascii) : bool :=
  (lo <=? code c) && (code c <=? hi).
Definition is_char (x c : ascii) : bool := Ascii.eqb x c.

Definition is_upper_alpha : ascii -> bool := in_range 65 90.
Definition is_lower_alpha : ascii -> bool := in_range 97 122.
Definition is_alpha (c : ascii) : bool := is_upper_alpha c || is_lower_alpha c.
Definition is_digit : ascii -> bool := in_range 48 57.
Definition is_alphanumeric (c : ascii) : bool := is_alpha c || is_digit c.
Definition is_c0_control_or_space : ascii -> bool := in_range 0 32.
Definition is_tab_or_newline (c : ascii) : bool :=
  is_char "009" c || is_char "010" c || is_char "013" c.

Definition to_lower (c : ascii) : ascii :=
  if is_upper_alpha c then ascii_of_nat (code c + 32) else c.

(** Code points allowed in a scheme after its first letter. *)
Definition is_scheme_char (c : ascii) : bool :=
  is_alphanumeric c || is_char "+" c || is_char "-" c || is_char "." c.

(** *** Percent-encode sets (bytes above 0x7E stand for the UTF-8 bytes of
    the code points above U+007E) *)

Definition c0_control_set (c : ascii) : bool :=
  in_range 0 31 c || (126 <? code c).
Definition fragment_set (c : ascii) : bool :=
  c0_control_set c || is_char " " c || is_char "034" c || is_char "<" c
  || is_char ">" c || is_char "`" c.
Definition query_set (c : ascii) : bool :=
  c0_control_set c || is_char " " c || is_char "034" c || is_char "#" c
  || is_char "<" c || is_char ">" c.
Definition path_set (c : ascii) : bool :=
  query_set c || is_char "?" c || is_char "^" c || is_char "`" c
  || is_char "{" c || is_char "}" c.
Definition userinfo_set (c : ascii) : bool :=
  path_set c || is_char "/" c || is_char ":" c || is_char ";" c
  || is_char "=" c || is_char "@" c || in_range 91 93 c || is_char "|" c.

Definition hex_digit (n : nat) : ascii :=
  if n <? 10 then ascii_of_nat (48 + n) else ascii_of_nat (55 + n).

Definition percent_encode_byte (c : ascii) : list ascii :=
  ["%"%char; hex_digit (code c / 16); hex_digit (code c mod 16)].

Definition percent_encode (set : ascii -> bool) (c : ascii) : list ascii :=
  if set c then percent_encode_byte c else [c].

Definition percent_encode_all (set : ascii -> bool) (l : list ascii)
  : list ascii :=
  flat_map (percent_encode set) l.

(** *** Percent-decoding *)

Definition hex_value (c : ascii) : option nat :=
  if is_digit c then Some (code c - 48)
  else if in_range 65 70 c then Some (code c - 55)
  else if in_range 97 102 c then Some (code c - 87)
  else None.

Definition hex_pair (h lo : ascii) : option ascii :=
  match hex_value h, hex_value lo with
  | Some a, Some b => Some (ascii_of_nat (16 * a + b))
  | _, _ => None
  end.

Fixpoint percent_decode (l : list ascii) : list ascii :=
  match l with
  | [] => []
  | c :: rest =>
      match rest with
      | h :: lo :: rest' =>
          match (if is_char "%" c then hex_pair h lo else None) with
          | Some b => b :: percent_decode rest'
          | None => c :: percent_decode rest
          end
      | _ => c :: percent_decode rest
      end
  end.

(** *** UTF-8 decode without BOM

    The decoder of the Encoding Standard, with the decoded text written
    back as UTF-8: a well-formed sequence is copied, each error emits
    U+FFFD (EF BF BD).  [pending] holds the bytes of the sequence being
    read, [needed] how many continuation bytes are still expected, and
    [lower], [upper] the bounds on the next continuation byte. *)

Definition replacement : list ascii := ["239"%char; "191"%char; "189"%char].

Record utf8_state := {
  pending : list ascii;
  needed : nat;
  lower : nat;
  upper : nat
}.

Definition utf8_idle : utf8_state :=
  {| pending := []; needed := 0; lower := 128; upper := 191 |}.

(** A byte read when no sequence is open. *)
Definition utf8_lead (b : ascii) : list ascii * utf8_state :=
  let n := code b in
  if n <=? 127 then ([b], utf8_idle)
  else if (194 <=? n) && (n <=? 223) then
    ([], {| pending := [b]; needed := 1; lower := 128; upper := 191 |})
  else if (224 <=? n) && (n <=? 239) then
    ([], {| pending := [b]; needed := 2;
            lower := if n =? 224 then 160 else 128;
            upper := if n =? 237 then 159 else 191 |})
  else if (240 <=? n) && (n <=? 244) then
    ([], {| pending := [b]; needed := 3;
            lower := if n =? 240 then 144 else 128;
            upper := if n =? 244 then 143 else 191 |})
  else (replacement, utf8_idle).

Definition utf8_step (st : utf8_state) (b : ascii)
  : list ascii * utf8_state :=
  match needed st with
  | 0 => utf8_lead b
  | S k =>
      if (lower st <=? code b) && (code b <=? upper st) then
        match k with
        | 0 => (pending st ++ [b], utf8_idle)
        | S _ => ([], {| pending := pending st ++ [b]; needed := k;
                         lower := 128; upper := 191 |})
        end
      else
        (* error; the byte is read again with no sequence open *)
        let '(out, st') := utf8_lead b in (replacement ++ out, st')
  end.

Fixpoint utf8_decode_from (st : utf8_state) (l : list ascii) : list ascii :=
  match l with
  | [] => match needed st with 0 => [] | S _ => replacement end
  | b :: rest =>
      let '(out, st') := utf8_step st b in out ++ utf8_decode_from st' rest
  end.

Definition utf8_decode_without_bom (l : list ascii) : list ascii :=
  utf8_decode_from utf8_idle l.

(** *** application/x-www-form-urlencoded parsing ([URLSearchParams]) *)

Fixpoint split_on (sep : ascii) (l : list ascii) : list (list ascii) :=
  match l with
  | [] => [[]]
  | c :: rest =>
      if is_char sep c then [] :: split_on sep rest
      else match split_on sep rest with
           | [] => [[c]]
           | w :: ws => (c :: w) :: ws
           end
  end.

(** The part before the first [sep] and, when there is one, the part after. *)
Fixpoint break_at (sep : ascii) (l : list ascii)
  : list ascii * option (list ascii) :=
  match l with
  | [] => ([], None)
  | c :: rest =>
      if is_char sep c then ([], Some rest)
      else let '(a, b) := break_at sep rest in (c :: a, b)
  end.

Definition plus_to_space (l : list ascii) : list ascii :=
  map (fun c => if is_char "+" c then " "%char else c) l.

(** The decoding of one name or value: [+] is a space, percent escapes are
    bytes, and the bytes are read as UTF-8. *)
Definition urlencoded_decode (l : list ascii) : string :=
  str (utf8_decode_without_bom (percent_decode (plus_to_space l))).

Definition is_nil {A} (l : list A) : bool :=
  match l with [] => true | _ => false end.

(** The name and the value of one sequence, not yet decoded: the value is
    what follows the first [=], and is empty when there is none. *)
Definition raw_pair (sequence : list ascii) : list ascii * list ascii :=
  let '(name, value) := break_at "=" sequence in (name, default [] value).

(** The pairs of a query string, not yet decoded: one per non-empty
    sequence between [&]. *)
Definition raw_pairs (input : list ascii) : list (list ascii * list ascii) :=
  map raw_pair
      (List.filter (fun sequence => negb (is_nil sequence))
                   (split_on "&" input)).

Definition urlencoded_parse (input : list ascii) : list (string * string) :=
  map (fun '(name, value) => (urlencoded_decode name, urlencoded_decode value))
      (raw_pairs input).

(** *** The URL record *)

Inductive url_path :=
| OpaquePath (p : string)
| ListPath (segments : list string).

(** Everything but the scheme; [host] is kept in serialized form. *)
Record components := {
  username : string;
  password : string;
  host : option string;
  port : option N;
  path : url_path;
  query : option string;
  fragment : option string
}.

Record t := {
  scheme : string;
  parts : components
}.

(** What the model takes from the host environment. *)
Class HostEnvironment := {
  (** the parser states entered after the scheme of a special URL *)
  special_scheme_state : string -> list ascii -> option components;
  (** the IPv6 parser followed by the IPv6 serializer, on the text between
      the brackets *)
  ipv6_literal : list ascii -> option (list ascii)
}.

Definition is_special_scheme (s : string) : bool :=
  includes ["ftp"; "file"; "http"; "https"; "ws"; "wss"] s.

(** *** Preprocessing *)

Fixpoint drop_leading (f : ascii -> bool) (l : list ascii) : list ascii :=
  match l with
  | [] => []
  | c :: rest => if f c then drop_leading f rest else l
  end.

Definition trim (l : list ascii) : list ascii :=
  rev (drop_leading is_c0_control_or_space
         (rev (drop_leading is_c0_control_or_space l))).

Definition preprocess (input : list ascii) : list ascii :=
  List.filter (fun c => negb (is_tab_or_newline c)) (trim input).

(** *** Scheme start state, scheme state, no scheme state *)

Fixpoint scheme_state (buffer rest : list ascii)
  : option (list ascii * list ascii) :=
  match rest with
  | [] => None
  | c :: rest' =>
      if is_scheme_char c then scheme_state (buffer ++ [to_lower c]) rest'
      else if is_char ":" c then Some (buffer, rest')
      else None
  end.

Definition scheme_start_state (input : list ascii)
  : option (list ascii * list ascii) :=
  match input with
  | c :: rest => if is_alpha c then scheme_state [to_lower c] rest else None
  | [] => None
  end.

(** *** Query state and fragment state *)

Definition encode (set : ascii -> bool) (l : list ascii) : string :=
  str (percent_encode_all set l).

(** [rest] starts at the [?] or [#] that ended the path, or is empty. *)
Definition query_and_fragment (rest : list ascii)
  : option string * option string :=
  match rest with
  | c :: r =>
      if is_char "?" c then
        let '(q, f) := break_at "#" r in
        (Some (encode query_set q), option_map (encode fragment_set) f)
      else if is_char "#" c then (None, Some (encode fragment_set r))
      else (None, None)
  | [] => (None, None)
  end.

(** *** Path state *)

Definition lowered (buffer : list ascii) : string := str (map to_lower buffer).

Definition is_single_dot (buffer : list ascii) : bool :=
  includes ["."; "%2e"] (lowered buffer).

Definition is_double_dot (buffer : list ascii) : bool :=
  includes [".."; ".%2e"; "%2e."; "%2e%2e"] (lowered buffer).

(** The segment in [buffer] is complete; [slash] tells whether it was ended
    by a slash. *)
Definition close_segment (segments : list string) (buffer : list ascii)
           (slash : bool) : list string :=
  if is_double_dot buffer then
    let shortened := removelast segments in
    if slash then shortened else shortened ++ [""]
  else if is_single_dot buffer then
    if slash then segments else segments ++ [""]
  else segments ++ [str buffer].

Definition ends_path (c : ascii) : bool := is_char "?" c || is_char "#" c.

Fixpoint path_state (segments : list string) (buffer rest : list ascii)
  : list string * list ascii :=
  match rest with
  | [] => (close_segment segments buffer false, [])
  | c :: rest' =>
      if is_char "/" c then
        path_state (close_segment segments buffer true) [] rest'
      else if ends_path c then (close_segment segments buffer false, rest)
      else path_state segments (buffer ++ percent_encode path_set c) rest'
  end.

(** *** Opaque path state

    Revisions of the URL Standard differ on a space that comes just before
    the [?] or [#] ending an opaque path (kept, then removed by the setters
    of [search] and [hash]; or written as [%20]).  Here it is kept. *)

Fixpoint opaque_path_state (buffer rest : list ascii)
  : list ascii * list ascii :=
  match rest with
  | [] => (buffer, [])
  | c :: rest' =>
      if ends_path c then (buffer, rest)
      else opaque_path_state (buffer ++ percent_encode c0_control_set c) rest'
  end.

(** *** Host parsing for a URL that is not special *)

Definition is_forbidden_host_code_point (c : ascii) : bool :=
  existsb (fun x => is_char x c)
    ["000"; "009"; "010"; "013"; " "; "#"; "/"; ":"; "<"; ">"; "?"; "@";
     "["; "\"; "]"; "^"; "|"]%char.

Definition opaque_host_parser (input : list ascii) : option (list ascii) :=
  if existsb is_forbidden_host_code_point input then None
  else Some (percent_encode_all c0_control_set input).

Definition host_parser `{HostEnvironment} (input : list ascii)
  : option string :=
  match input with
  | "["%char :: inner =>
      match rev inner with
      | "]"%char :: middle =>
          option_map (fun a => str ("["%char :: a ++ ["]"%char]))
                     (ipv6_literal (rev middle))
      | _ => None
      end
  | _ => option_map str (opaque_host_parser input)
  end.

(** *** Authority state *)

Fixpoint absorb_credentials (passwordTokenSeen : bool) (u p buffer : list ascii)
  : bool * list ascii * list ascii :=
  match buffer with
  | [] => (passwordTokenSeen, u, p)
  | c :: rest =>
      if is_char ":" c && negb passwordTokenSeen then
        absorb_credentials true u p rest
      else if passwordTokenSeen then
        absorb_credentials true u (p ++ percent_encode userinfo_set c) rest
      else
        absorb_credentials false (u ++ percent_encode userinfo_set c) p rest
  end.

Definition ends_authority (c : ascii) : bool :=
  is_char "/" c || is_char "?" c || is_char "#" c.

(** Returns the username, the password and the input on which the host
    state starts (the pointer is moved back over the buffer). *)
Fixpoint authority_state (atSignSeen passwordTokenSeen : bool)
         (u p buffer rest : list ascii)
  : option (list ascii * list ascii * list ascii) :=
  match rest with
  | [] => if atSignSeen && is_nil buffer then None else Some (u, p, buffer)
  | c :: rest' =>
      if is_char "@" c then
        let buffer' := if atSignSeen then chars "%40" ++ buffer else buffer in
        let '(seen, u', p') :=
          absorb_credentials passwordTokenSeen u p buffer' in
        authority_state true seen u' p' [] rest'
      else if ends_authority c then
        if atSignSeen && is_nil buffer then None
        else Some (u, p, buffer ++ rest)
      else authority_state atSignSeen passwordTokenSeen u p (buffer ++ [c]) rest'
  end.

(** *** Port state *)

Definition digit_value (c : ascii) : N := N.of_nat (code c - 48).

Definition port_number (buffer : list ascii) : N :=
  fold_left (fun acc c => (10 * acc + digit_value c)%N) buffer 0%N.

(** Returns the port and the input on which the path start state starts. *)
Fixpoint port_state (buffer rest : list ascii)
  : option (option N * list ascii) :=
  let finish :=
    if is_nil buffer then Some (None, rest)
    else if (65535 <? port_number buffer)%N then None
    else Some (Some (port_number buffer), rest) in
  match rest with
  | [] => finish
  | c :: rest' =>
      if is_digit c then port_state (buffer ++ [c]) rest'
      else if ends_authority c then finish
      else None
  end.

(** *** Host state *)

Fixpoint host_state `{HostEnvironment} (insideBrackets : bool)
         (buffer rest : list ascii)
  : option (string * option N * list ascii) :=
  match rest with
  | [] => option_map (fun h => (h, None, [])) (host_parser buffer)
  | c :: rest' =>
      if is_char ":" c && negb insideBrackets then
        if is_nil buffer then None
        else
          match host_parser buffer with
          | None => None
          | Some h =>
              option_map (fun '(p, r) => (h, p, r)) (port_state [] rest')
          end
      else if ends_authority c then
        option_map (fun h => (h, None, rest)) (host_parser buffer)
      else
        let inside :=
          if is_char "[" c then true
          else if is_char "]" c then false
          else insideBrackets in
        host_state inside (buffer ++ [c]) rest'
  end.

(** *** Path start state (URL that is not special) *)

Definition path_start_state (rest : list ascii)
  : list string * list ascii :=
  match rest with
  | [] => ([], [])
  | c :: rest' =>
      if ends_path c then ([], rest)
      else path_state [] [] (if is_char "/" c then rest' else rest)
  end.

(** *** After the scheme of a URL that is not special: path or authority
    state when a slash follows, opaque path state otherwise *)

Definition with_path (u p : string) (h : option string) (pt : option N)
           (pth : url_path) (rest : list ascii) : components :=
  let '(q, f) := query_and_fragment rest in
  {| username := u; password := p; host := h; port := pt; path := pth;
     query := q; fragment := f |}.

Definition non_special_state `{HostEnvironment} (rest : list ascii)
  : option components :=
  match rest with
  | "/"%char :: "/"%char :: rest2 =>
      match authority_state false false [] [] [] rest2 with
      | None => None
      | Some (u, p, hostInput) =>
          match host_state false [] hostInput with
          | None => None
          | Some (h, pt, rest3) =>
              let '(segments, rest4) := path_start_state rest3 in
              Some (with_path (str u) (str p) (Some h) pt
                              (ListPath segments) rest4)
          end
      end
  | "/"%char :: rest1 =>
      let '(segments, rest2) := path_state [] [] rest1 in
      Some (with_path "" "" None None (ListPath segments) rest2)
  | _ =>
      let '(p, rest1) := opaque_path_state [] rest in
      Some (with_path "" "" None None (OpaquePath (str p)) rest1)
  end.

(** *** [new URL(input)]: [None] stands for the [TypeError] it throws *)

Definition new `{HostEnvironment} (input : string) : option t :=
  match scheme_start_state (preprocess (chars input)) with
  | None => None
  | Some (buffer, rest) =>
      let s := str buffer in
      option_map (fun c => {| scheme := s; parts := c |})
                 (if is_special_scheme s then special_scheme_state s rest
                  else non_special_state rest)
  end.

(** *** Getters *)

Definition protocol (u : t) : string := (scheme u ++ ":")%string.

Definition string_of_N (n : N) : string :=
  NilEmpty.string_of_uint (N.to_uint n).

Definition get_host (u : t) : string :=
  match host (parts u), port (parts u) with
  | None, _ => ""
  | Some h, None => h
  | Some h, Some p => (h ++ ":" ++ string_of_N p)%string
  end.

Definition pathname (u : t) : string :=
  match path (parts u) with
  | OpaquePath p => p
  | ListPath segments =>
      fold_right (fun seg acc => ("/" ++ seg ++ acc)%string) "" segments
  end.

Definition hash (u : t) : string :=
  match fragment (parts u) with
  | None | Some "" => ""
  | Some f => ("#" ++ f)%string
  end.

(** A [URLSearchParams] object is represented by its list of pairs. *)
Definition URLSearchParams : Type := list (string * string).

Definition searchParams (u : t) : URLSearchParams :=
  match query (parts u) with
  | None => []
  | Some q => urlencoded_parse (chars q)
  end.

(** [URLSearchParams.prototype.get] and [toString] are the observers the
    tests use; [get] returns the first value stored under the name. *)
Fixpoint get (name : string) (l : URLSearchParams) : option string :=
  match l with
  | [] => None
  | (n, v) :: rest => if String.eqb n name then Some v else get name rest
  end.

(** *** The form of a string that has a scheme: a letter, then letters,
    digits, [+], [-] or [.], then a colon (what is before the colon is the
    scheme).  The test is made on the input as the parser reads it, with
    the characters it discards removed. *)

Fixpoint scheme_rest (l : list ascii) : bool :=
  match l with
  | [] => false
  | c :: rest =>
      if is_char ":" c then true else is_scheme_char c && scheme_rest rest
  end.

Definition has_scheme (input : string) : bool :=
  match preprocess (chars input) with
  | c :: rest => is_alpha c && scheme_rest rest
  | [] => false
  end.

(** The characters of a scheme in lower case. *)
Definition is_lower_scheme_char (c : ascii) : bool :=
  is_lower_alpha c || is_digit c || is_char "+" c || is_char "-" c
  || is_char "." c.

(** [String.prototype.toLowerCase] on ASCII text. *)
Definition toLowerCase (s : string) : string := str (map to_lower (chars s)).

End URL.

(** ** types.ts *)

Module Types.

(** ['launch' | 'open-url'] *)
Inductive DeepLinkIntent := launch | open_url.

Definition intent_string (i : DeepLinkIntent) : string :=
  match i with launch => "launch" | open_url => "open-url" end.

Record DeepLinkContext := {
  ctx_url : string;
  ctx_parsed : URL.t;
  ctx_protocol : string;
  ctx_path : string;
  ctx_params : URL.URLSearchParams;
  ctx_intent : DeepLinkIntent
}.

Record ParsedDeepLink := {
  url : string;
  parsed : URL.t;
  protocol : string;
  host : string;
  path : string;
  params : URL.URLSearchParams;
  hash : string
}.

(** A value that is thrown, or that a promise is rejected with, as far as
    the library looks at it.  The library only ever applies [String] to
    such a value, and [String(value)] either returns a string or throws a
    value in its turn: it throws a [TypeError] for [Object.create(null)],
    and whatever [toString] throws for an object whose [toString] throws.
    The conversion is taken to end and to leave the manager alone. *)
Inductive Thrown :=
| Printable (text : string)       (* [String(value)] returns [text] *)
| Unprintable (raised : Thrown).  (* [String(value)] throws [raised] *)

(** [String(value)]: the string, or the value thrown instead. *)
Definition JsString (value : Thrown) : string + Thrown :=
  match value with
  | Printable text => inl text
  | Unprintable raised => inr raised
  end.

(** What one invocation of the consumer callback does, as far as the
    dispatch path can observe it. *)
Inductive HandlerResult :=
| Returns                (* returns a value that is not a promise *)
| Throws (e : Thrown)    (* throws [e] before returning *)
| Fulfils                (* returns a promise that is fulfilled later *)
| Rejects (e : Thrown)   (* returns a promise that is rejected with [e] later *)
| NeverSettles.          (* returns a promise that stays pending *)

Definition Call : Type := string * DeepLinkContext.

(** [DeepLinkHandler]; the callback may keep state of its own, so its
    result may depend on the invocations made before.  What the callback
    does to the application is outside the model; a call it makes back into
    the library ([queueDeepLink], as the README suggests) is an action of
    its own on the manager. *)
Definition DeepLinkHandler : Type :=
  list Call -> string -> DeepLinkContext -> HandlerResult.

(** [Logger]: the three severities; what the logger is sent is recorded.
    The logger is an observer: its methods return normally. *)
Inductive Level := debug | info | error.
Definition LogEntry : Type := Level * string.

Record SquirrelOptions := {
  createDesktopShortcut : option bool;
  createStartMenuShortcut : option bool;
  shortcutName : option string
}.

Record WindowsOptions := {
  handleSquirrelEvents : option bool;
  squirrelOptions : option SquirrelOptions
}.

Record LinuxOptions := {
  desktopFileName : option string
}.

Record SetupOptions := {
  protocols : option (list string);
  onDeepLink : option DeepLinkHandler;
  (** whether an [onInstanceLockFailed] callback is supplied *)
  onInstanceLockFailed : bool;
  windows : option WindowsOptions;
  linux : option LinuxOptions
}.

End Types.

(** ** url-parser.ts *)

Module UrlParser.

Import Types.

Section WithHost.
Context `{URL.HostEnvironment}.

(** The [try] block can only fail in [new URL(url)]. *)
Definition parseDeepLink (url : string) : option ParsedDeepLink :=
  match URL.new url with
  | Some parsed =>
      Some {| Types.url := url;
              Types.parsed := parsed;
              protocol := Js.strip_trailing_colon (URL.protocol parsed);
              host := URL.get_host parsed;
              path := URL.pathname parsed;
              params := URL.searchParams parsed;
              hash := URL.hash parsed |}
  | None => None
  end.

Definition createDeepLinkContext (url : string) (intent : DeepLinkIntent)
  : option DeepLinkContext :=
  match parseDeepLink url with
  | None => None
  | Some parsed =>
      Some {| ctx_url := Types.url parsed;
              ctx_parsed := Types.parsed parsed;
              ctx_protocol := protocol parsed;
              ctx_path := path parsed;
              ctx_params := params parsed;
              ctx_intent := intent |}
  end.

Definition isRegisteredProtocol (url : string) (protocols : list string)
  : bool :=
  match parseDeepLink url with
  | None => false
  | Some parsed => Js.includes protocols (protocol parsed)
  end.

End WithHost.

End UrlParser.

(** ** queue.ts *)

Module Queue.

Import Types.

Record QueuedDeepLink := {
  q_url : string;
  q_intent : DeepLinkIntent
}.

(** The two private fields of the class.  Every method returns the new
    state together with what it sends to the logger. *)
Record DeepLinkQueue := {
  queue : list QueuedDeepLink;
  processed : bool
}.

(** [new DeepLinkQueue(logger)] *)
Definition create : DeepLinkQueue := {| queue := []; processed := false |}.

Definition enqueue (url : string) (intent : DeepLinkIntent)
           (q : DeepLinkQueue) : DeepLinkQueue * list LogEntry :=
  if processed q then
    (q, [(debug, "Deep link queue already processed, not queuing: " ++ url)%string])
  else
    ({| queue := queue q ++ [{| q_url := url; q_intent := intent |}];
        processed := processed q |},
     [(debug, "Queuing deep link: " ++ url)%string]).

Definition drain (q : DeepLinkQueue)
  : list QueuedDeepLink * DeepLinkQueue * list LogEntry :=
  if processed q then
    ([], q, [(debug, "Deep link queue already drained")])
  else
    let urls := queue q in
    (urls, {| queue := []; processed := true |},
     [(debug, "Draining " ++ Js.string_of_nat (length urls)
                ++ " deep link(s) from queue")%string]).

Definition peek (q : DeepLinkQueue) : list QueuedDeepLink := queue q.

Definition clear (q : DeepLinkQueue) : DeepLinkQueue * list LogEntry :=
  ({| queue := []; processed := processed q |},
   [(debug, "Clearing " ++ Js.string_of_nat (length (queue q))
              ++ " deep link(s) from queue")%string]).

Definition isProcessed (q : DeepLinkQueue) : bool := processed q.

Definition size (q : DeepLinkQueue) : nat := length (queue q).

Definition hasItems (q : DeepLinkQueue) : bool := 0 <? length (queue q).

Definition reset (q : DeepLinkQueue) : DeepLinkQueue * list LogEntry :=
  ({| queue := []; processed := false |},
   [(debug, "Resetting deep link queue")]).

(** The calls that change a queue, [reset] apart. *)
Inductive QueueCall :=
| CallEnqueue (url : string) (intent : DeepLinkIntent)
| CallDrain
| CallClear.

(** Any call that changes a queue. *)
Inductive AnyCall :=
| Plain (c : QueueCall)
| CallReset.

Definition call (c : QueueCall) (q : DeepLinkQueue) : DeepLinkQueue :=
  match c with
  | CallEnqueue url intent => fst (enqueue url intent q)
  | CallDrain => snd (fst (drain q))
  | CallClear => fst (clear q)
  end.

Definition calls (cs : list QueueCall) (q : DeepLinkQueue) : DeepLinkQueue :=
  fold_left (fun q c => call c q) cs q.

Definition any_call (c : AnyCall) (q : DeepLinkQueue) : DeepLinkQueue :=
  match c with
  | Plain c => call c q
  | CallReset => fst (reset q)
  end.

(** The state of a queue object after the calls [cs] since [new]. *)
Definition after (cs : list AnyCall) : DeepLinkQueue :=
  fold_left (fun q c => any_call c q) cs create.

(** [enqueue(url_1, intent_1)], ..., [enqueue(url_n, intent_n)] *)
Definition enqueue_all (es : list QueuedDeepLink) (q : DeepLinkQueue)
  : DeepLinkQueue :=
  calls (map (fun e => CallEnqueue (q_url e) (q_intent e)) es) q.

(** A processed queue holds nothing. *)
Definition closed_empty (q : DeepLinkQueue) : Prop :=
  processed q = true -> queue q = [].

End Queue.

(** ** The Electron host: what the sources ask of [app], [process] and the
    operating system, and the trace of what they do to it *)

Module Electron.

Import Types.

(** [process.platform] *)
Inductive Platform := darwin | win32 | linux | other.

(** Calls that act on the host, in the order they are made. *)
Inductive AppCall :=
| requestSingleInstanceLock
| quit
| on (event : string)
| off (event : string)
| setAsDefaultProtocolClient
    (scheme : string) (path : option string) (args : option (list string))
| removeAsDefaultProtocolClient (scheme : string)
(** [spawn(command, args, { detached: true }).on('close', () => app.quit())] *)
| spawnThenQuit (command : string) (args : list string).

(** Everything observable from outside the library. *)
Inductive Event :=
| Logged (entry : LogEntry)
| Invoked (call : Call)                 (* [options.onDeepLink(url, context)] *)
| UnhandledRejection (e : Thrown)       (* a discarded promise is rejected *)
| App (call : AppCall)
| LockFailedCallback.                   (* [options.onInstanceLockFailed()] *)

Record Env := {
  platform : Platform;
  argv : list string;                   (* [process.argv] *)
  execPath : string;                    (* [process.execPath] *)
  isPackaged : bool;                    (* [app.isPackaged] *)
  name : string;                        (* [app.name] *)
  (** the answer of [app.setAsDefaultProtocolClient] *)
  os_setAsDefaultProtocolClient :
    string -> option string -> option (list string) -> bool;
  (** the answer of [app.removeAsDefaultProtocolClient] *)
  os_removeAsDefaultProtocolClient : string -> bool;
  (** the answer of [app.requestSingleInstanceLock] *)
  os_requestSingleInstanceLock : bool;
  (** [path.resolve(path.dirname(process.execPath), '..', 'Update.exe')] *)
  updateExePath : string;
  (** [path.basename(process.execPath)] *)
  targetExeName : string;
  (** [existsSync(path.join(homedir(), 'Desktop', name + '.lnk'))] *)
  os_desktopShortcutExists : string -> bool
}.

Definition logged (l : list LogEntry) : list Event := map Logged l.

(** The consumer invocations of a trace, oldest first. *)
Definition invocations (t : list Event) : list Call :=
  flat_map (fun e => match e with Invoked c => [c] | _ => [] end) t.

Definition rejections (t : list Event) : list Thrown :=
  flat_map (fun e => match e with UnhandledRejection x => [x] | _ => [] end) t.

Definition app_calls (t : list Event) : list AppCall :=
  flat_map (fun e => match e with App c => [c] | _ => [] end) t.

Definition log_of (t : list Event) : list LogEntry :=
  flat_map (fun e => match e with Logged l => [l] | _ => [] end) t.

End Electron.

(** ** platforms/: the [PlatformHandler] interface and its three
    implementations *)

Module Platforms.

Import Types Electron.

Record PlatformHandler := {
  registerProtocol : string -> SetupOptions -> bool * list Event;
  unregisterProtocol : string -> bool * list Event;
  extractDeepLinkFromArgs : list string -> list string -> option string;
  handleStartupEvents : option (SetupOptions -> bool * list Event)
}.

(** [app.setAsDefaultProtocolClient(...)]: the call and its answer. *)
Definition call_setAsDefault (env : Env) (scheme : string)
           (path : option string) (args : option (list string))
  : bool * list Event :=
  (os_setAsDefaultProtocolClient env scheme path args,
   [App (setAsDefaultProtocolClient scheme path args)]).

Definition call_removeAsDefault (env : Env) (scheme : string)
  : bool * list Event :=
  (os_removeAsDefaultProtocolClient env scheme,
   [App (removeAsDefaultProtocolClient scheme)]).

(** [process.argv.slice(1).filter((arg) => !arg.startsWith(`${scheme}://`))] *)
Definition cleanArgs (env : Env) (scheme : string) : list string :=
  List.filter (fun arg => negb (Js.startsWith arg (scheme ++ "://")%string))
              (tl (argv env)).

(** Registration in development mode, shared by the three handlers. *)
Definition registerDevelopment (env : Env) (scheme : string)
  : bool * list Event :=
  call_setAsDefault env scheme (Some (execPath env))
                    (Some (cleanArgs env scheme)).

(** The inner loop [for (const protocol of protocols)]: [Some arg] is the
    [return arg] of the enclosing function. *)
Fixpoint matchProtocols (arg : string) (protocols : list string)
  : option string :=
  match protocols with
  | [] => None
  | protocol :: rest =>
      if Js.startsWith arg (protocol ++ "://")%string then Some arg
      else matchProtocols arg rest
  end.

(** [for (const arg of argv)] *)
Fixpoint scanForward (argv protocols : list string) : option string :=
  match argv with
  | [] => None
  | arg :: rest =>
      match matchProtocols arg protocols with
      | Some found => Some found
      | None => scanForward rest protocols
      end
  end.

(** [for (let i = argv.length - 1; i >= 0; i--)], with [n = i + 1]. *)
Fixpoint scanBackward (argv protocols : list string) (n : nat)
  : option string :=
  match n with
  | 0 => None
  | S i =>
      match nth_error argv i with
      | Some arg =>
          match matchProtocols arg protocols with
          | Some found => Some found
          | None => scanBackward argv protocols i
          end
      | None => None      (* [i] is below [argv.length]: not reached *)
      end
  end.

(** *** macos.ts *)

Definition createMacOSHandler (env : Env) : PlatformHandler :=
  {| registerProtocol := fun scheme _ =>
       if isPackaged env then call_setAsDefault env scheme None None
       else registerDevelopment env scheme;
     unregisterProtocol := call_removeAsDefault env;
     extractDeepLinkFromArgs := scanForward;
     handleStartupEvents := None |}.

(** *** linux.ts *)

Definition createLinuxHandler (env : Env) : PlatformHandler :=
  {| registerProtocol := fun scheme options =>
       if isPackaged env then
         match
           match Types.linux options with
           | Some l => desktopFileName l
           | None => None
           end
         with
         | Some (String c s as desktopFileName) =>
             call_setAsDefault env scheme None (Some [desktopFileName])
         | _ => call_setAsDefault env scheme None None
         end
       else registerDevelopment env scheme;
     unregisterProtocol := call_removeAsDefault env;
     extractDeepLinkFromArgs := scanForward;
     handleStartupEvents := None |}.

(** *** windows.ts *)

Inductive SquirrelEvent :=
| squirrel_install
| squirrel_updated
| squirrel_uninstall
| squirrel_obsolete
| squirrel_firstrun.

Definition squirrelEvents : list (string * SquirrelEvent) :=
  [("--squirrel-install", squirrel_install);
   ("--squirrel-updated", squirrel_updated);
   ("--squirrel-uninstall", squirrel_uninstall);
   ("--squirrel-obsolete", squirrel_obsolete);
   ("--squirrel-firstrun", squirrel_firstrun)].

(** [squirrelEvents.includes(arg)], returning the event that [arg] is. *)
Fixpoint squirrelEventOf (arg : string) (events : list (string * SquirrelEvent))
  : option SquirrelEvent :=
  match events with
  | [] => None
  | (text, ev) :: rest =>
      if String.eqb arg text then Some ev else squirrelEventOf arg rest
  end.

Fixpoint getSquirrelEvent (argv : list string) : option SquirrelEvent :=
  match argv with
  | [] => None
  | arg :: rest =>
      match squirrelEventOf arg squirrelEvents with
      | Some ev => Some ev
      | None => getSquirrelEvent rest
      end
  end.

Inductive ShortcutAction := create | remove.

(** [options?.field !== false] *)
Definition not_false (options : option SquirrelOptions)
           (field : SquirrelOptions -> option bool) : bool :=
  match options with
  | Some o => match field o with Some false => false | _ => true end
  | None => true
  end.

Definition buildShortcutArgs (action : ShortcutAction) (target : string)
           (options : option SquirrelOptions) : list string :=
  match action with
  | create =>
      let createDesktop := not_false options createDesktopShortcut in
      let createStartMenu := not_false options createStartMenuShortcut in
      if createDesktop && createStartMenu then
        [("--createShortcut=" ++ target)%string]
      else if createDesktop then
        [("--createShortcut=" ++ target)%string; "--shortcut-locations=Desktop"]
      else if createStartMenu then
        [("--createShortcut=" ++ target)%string; "--shortcut-locations=StartMenu"]
      else []
  | remove => [("--removeShortcut=" ++ target)%string]
  end.

Definition runSquirrelCommand (env : Env) (args : list string) : list Event :=
  [App (spawnThenQuit (updateExePath env) args)].

(** The body shared by the install and update cases. *)
Definition createShortcuts (env : Env) (target : string)
           (squirrelOptions : option SquirrelOptions) : list Event :=
  let args := buildShortcutArgs create target squirrelOptions in
  if 0 <? length args then runSquirrelCommand env args else [App quit].

Definition windowsHandleStartupEvents (env : Env) (options : SetupOptions)
  : bool * list Event :=
  match
    match windows options with
    | Some w => handleSquirrelEvents w
    | None => None
    end
  with
  | Some false => (false, [])
  | _ =>
      match getSquirrelEvent (argv env) with
      | None => (false, [])
      | Some squirrelEvent =>
          let target := targetExeName env in
          let squirrelOptions :=
            match windows options with
            | Some w => Types.squirrelOptions w
            | None => None
            end in
          let shortcutName :=
            match squirrelOptions with
            | Some o => default (name env) (Types.shortcutName o)
            | None => name env
            end in
          match squirrelEvent with
          | squirrel_install =>
              (true, createShortcuts env target squirrelOptions)
          | squirrel_updated =>
              (true,
               if os_desktopShortcutExists env shortcutName
               then createShortcuts env target squirrelOptions
               else [App quit])
          | squirrel_uninstall =>
              (true,
               runSquirrelCommand env
                 (buildShortcutArgs remove target squirrelOptions))
          | squirrel_obsolete => (true, [App quit])
          | squirrel_firstrun => (false, [])
          end
      end
  end.

Definition createWindowsHandler (env : Env) : PlatformHandler :=
  {| registerProtocol := fun scheme _ =>
       if isPackaged env then call_setAsDefault env scheme None None
       else registerDevelopment env scheme;
     unregisterProtocol := call_removeAsDefault env;
     extractDeepLinkFromArgs := fun argv protocols =>
       scanBackward argv protocols (length argv);
     handleStartupEvents := Some (windowsHandleStartupEvents env) |}.

(** *** index.ts *)

Definition getPlatformHandler (env : Env) : PlatformHandler :=
  match platform env with
  | darwin => createMacOSHandler env
  | win32 => createWindowsHandler env
  | linux => createLinuxHandler env
  | other => createLinuxHandler env
  end.

Definition isMacOS (env : Env) : bool :=
  match platform env with darwin => true | _ => false end.

(** [options.windows?.handleSquirrelEvents === false] does not hold. *)
Definition squirrelHandlingEnabled (options : SetupOptions) : bool :=
  match windows options with
  | Some w =>
      match handleSquirrelEvents w with Some false => false | _ => true end
  | None => true
  end.

(** *** The contract of the extractors, in the words of the
    specification: an argument is a deep link when it starts with
    [<p>://] for some [p] in [protocols]; the forward variants return the
    first such element of [argv], the backward variant the first such
    element of [argv] read from its end. *)

Definition isDeepLinkArg (protocols : list string) (arg : string) : bool :=
  existsb (fun p => Js.startsWith arg (p ++ "://")%string) protocols.

Definition firstFromFront (argv protocols : list string) : option string :=
  List.find (isDeepLinkArg protocols) argv.

Definition firstFromBack (argv protocols : list string) : option string :=
  List.find (isDeepLinkArg protocols) (rev argv).

End Platforms.

(** ** protocol-registry.ts *)

Module ProtocolRegistry.

Import Types Electron Platforms.

Record ProtocolRegistryResult := {
  registered : list string;
  failed : list string
}.

Definition normalizeProtocols (protocols : option (list string))
  : list string :=
  default [] protocols.

Definition getProtocolSchemes := normalizeProtocols.

(** The loop [for (const scheme of protocols)], with the two arrays it
    pushes to and the events so far. *)
Fixpoint registerLoop (handler : PlatformHandler) (options : SetupOptions)
         (protocols : list string) (acc : ProtocolRegistryResult)
         (t : list Event) : ProtocolRegistryResult * list Event :=
  match protocols with
  | [] => (acc, t)
  | scheme :: rest =>
      let t1 := t ++ [Logged (debug, "Registering protocol: " ++ scheme)%string] in
      let '(success, calls) := registerProtocol handler scheme options in
      if success then
        registerLoop handler options rest
          {| registered := registered acc ++ [scheme]; failed := failed acc |}
          (t1 ++ calls
              ++ [Logged (info, "Registered protocol: " ++ scheme)%string])
      else
        registerLoop handler options rest
          {| registered := registered acc; failed := failed acc ++ [scheme] |}
          (t1 ++ calls
              ++ [Logged (error, "Failed to register protocol: " ++ scheme)%string])
  end.

Definition registerProtocols (env : Env) (options : SetupOptions)
  : ProtocolRegistryResult * list Event :=
  registerLoop (getPlatformHandler env) options
               (normalizeProtocols (protocols options))
               {| registered := []; failed := [] |} [].

(** [unregisterAll] of the result. *)
Definition unregisterAll (env : Env) (result : ProtocolRegistryResult)
  : list Event :=
  flat_map (fun scheme =>
              Logged (debug, "Unregistering protocol: " ++ scheme)%string
              :: snd (unregisterProtocol (getPlatformHandler env) scheme))
           (registered result).

End ProtocolRegistry.

(** ** instance-lock.ts *)

Module InstanceLock.

Import Types Electron Platforms.

Record LockResult := {
  hasLock : bool
}.

Definition normalizeProtocols (protocols : option (list string))
  : list string :=
  default [] protocols.

Definition acquireInstanceLock (env : Env) (options : SetupOptions)
  : LockResult * list Event :=
  let platformHandler := getPlatformHandler env in
  let '(startup, t0) :=
    match handleStartupEvents platformHandler with
    | Some handle => handle options
    | None => (false, [])
    end in
  if startup then
    ({| hasLock := false |},
     t0 ++ [Logged (info, "Handling platform startup event, app will quit")])
  else
    let t1 := t0 ++ [App requestSingleInstanceLock] in
    if negb (os_requestSingleInstanceLock env) then
      ({| hasLock := false |},
       t1 ++ [Logged (info, "Another instance is already running")]
          ++ (if onInstanceLockFailed options then [LockFailedCallback] else []))
    else
      ({| hasLock := true |},
       t1 ++ [Logged (info, "Acquired single instance lock");
              App (on "second-instance")]).

(** [secondInstanceHandler]: what it logs and the value it hands to
    [onSecondInstanceDeepLink]. *)
Definition secondInstanceHandler (env : Env) (options : SetupOptions)
           (argv : list string) : option string * list Event :=
  (extractDeepLinkFromArgs (getPlatformHandler env) argv
                           (normalizeProtocols (protocols options)),
   [Logged (debug, "Second instance launched with args: "
                     ++ Js.join " " argv)%string]).

End InstanceLock.

(** ** deep-links.ts *)

Module DeepLinks.

Import Types Electron Queue UrlParser.

(** How a piece of code ends: normally, or by throwing [e]. *)
Inductive Completion (A : Type) :=
| Normal (a : A)
| Throw (e : Thrown).
Arguments Normal {A} a.
Arguments Throw {A} e.

(** What a suspended [async] function does when it is resumed. *)
Inductive Continuation :=
| Detached                                 (* [void dispatchDeepLink(...)] *)
| Loop (rest : list QueuedDeepLink).       (* [await] in [processPending] *)

(** The suspended computations of a manager. *)
Inductive Task :=
(** [dispatchDeepLink] stopped at [await options.onDeepLink(url, context)] *)
| AwaitHandler (url : string) (r : HandlerResult) (k : Continuation)
(** the loop of [processPending] stopped at [await dispatchDeepLink(...)]
    on a promise that is already settled *)
| AwaitDispatch (c : Completion unit) (rest : list QueuedDeepLink)
(** [deferDispatch(() => handleDeepLink(url, intent))] *)
| Deferred (url : string) (intent : DeepLinkIntent).

(** The state captured by the closures of [createDeepLinkManager], and the
    events so far. *)
Record Manager := {
  queue : DeepLinkQueue;
  trace : list Event;
  suspended : list Task
}.

Definition M (A : Type) : Type := Manager -> Completion A * Manager.

Definition ret {A} (a : A) : M A := fun m => (Normal a, m).

Definition throw {A} (e : Thrown) : M A := fun m => (Throw e, m).

Definition bind {A B} (c : M A) (k : A -> M B) : M B :=
  fun m =>
    match c m with
    | (Normal a, m') => k a m'
    | (Throw e, m') => (Throw e, m')
    end.

Declare Scope manager_scope.
Delimit Scope manager_scope with manager.
Notation "x <- c ;; k" := (bind c (fun x => k))
  (at level 100, c at next level, right associativity) : manager_scope.
Notation "c ;; k" := (bind c (fun _ => k))
  (at level 100, right associativity) : manager_scope.
Local Open Scope manager_scope.

(** [try { body } catch (error) { handler }] *)
Definition try_catch {A} (body : M A) (handler : Thrown -> M A) : M A :=
  fun m =>
    match body m with
    | (Normal a, m') => (Normal a, m')
    | (Throw e, m') => handler e m'
    end.

Definition emit (events : list Event) : M unit :=
  fun m => (Normal tt,
            {| queue := queue m; trace := trace m ++ events;
               suspended := suspended m |}).

Definition log (level : Level) (message : string) : M unit :=
  emit [Logged (level, message)].

Definition suspend (task : Task) : M unit :=
  fun m => (Normal tt,
            {| queue := queue m; trace := trace m;
               suspended := suspended m ++ [task] |}).

(** A method of the queue object, with what it logs. *)
Definition on_queue {A} (method : DeepLinkQueue -> A * DeepLinkQueue * list LogEntry)
  : M A :=
  fun m =>
    let '(a, q, l) := method (queue m) in
    (Normal a,
     {| queue := q; trace := trace m ++ logged l; suspended := suspended m |}).

Definition isProcessed : M bool :=
  fun m => (Normal (Queue.isProcessed (queue m)), m).

(** [options.onDeepLink(url, context)] *)
Definition invoke (handler : DeepLinkHandler) (url : string)
           (context : DeepLinkContext) : M HandlerResult :=
  fun m =>
    let r := handler (invocations (trace m)) url context in
    let m' := {| queue := queue m; trace := trace m ++ [Invoked (url, context)];
                 suspended := suspended m |} in
    match r with
    | Throws e => (Throw e, m')
    | _ => (Normal r, m')
    end.

(** What the application and the event loop can do with a manager. *)
Inductive Action :=
| DoHandleDeepLink (url : string) (intent : DeepLinkIntent)
| DoProcessPending
| DoQueueDeepLink (url : string) (intent : option DeepLinkIntent)
| DoClearPending
| DoResume (i : nat).

(** [m] with the events [t] added. *)
Definition extend (m : Manager) (t : list Event) : Manager :=
  {| queue := queue m; trace := trace m ++ t; suspended := suspended m |}.

(** The manager at its creation, after the events [t]: a new queue and
    nothing suspended. *)
Definition started (t : list Event) : Manager :=
  {| queue := Queue.create; trace := t; suspended := [] |}.

(** A manager on which nothing has happened yet. *)
Definition fresh_manager : Manager := started [].

(** The state of the promise an [async] call returns. *)
Inductive Started :=
| Settled (c : Completion unit)
| AwaitingHandler (r : HandlerResult).

Definition dispatching (url : string) : Event :=
  Logged (debug, "Dispatching deep link: " ++ url)%string.

Definition dispatch_failed (url e : string) : Event :=
  Logged (Types.error,
          "Error dispatching deep link: " ++ url ++ " (" ++ e ++ ")")%string.

(** What [dispatchDeepLink] adds to the trace before it returns, when the
    callback answers [r]. *)
Definition dispatch_events (url : string) (context : DeepLinkContext)
           (r : HandlerResult) : list Event :=
  [dispatching url; Invoked (url, context)]
    ++ match r with
       | Throws e =>
           match JsString e with
           | inl text => [dispatch_failed url text]
           | inr _ => []
           end
       | _ => []
       end.

Definition started_by (r : HandlerResult) : Started :=
  match r with
  | Throws e =>
      match JsString e with
      | inl _ => Settled (Normal tt)
      | inr raised => Settled (Throw raised)
      end
  | _ => AwaitingHandler r
  end.

(** [String(value)] returns. *)
Definition printable (value : Thrown) : bool :=
  match JsString value with inl _ => true | inr _ => false end.

(** The callback did not fail with a value that [String] cannot convert. *)
Definition converts (r : HandlerResult) : bool :=
  match r with
  | Throws e | Rejects e => printable e
  | _ => true
  end.

(** The configured callback, if any, only ever fails with values that
    [String] converts. *)
Definition fails_printably (options : SetupOptions) : Prop :=
  forall handler history url context,
    onDeepLink options = Some handler ->
    converts (handler history url context) = true.

Section WithManager.
Context `{URL.HostEnvironment}.
Variable options : SetupOptions.
Variable protocols : list string.

(** The [catch] block of [dispatchDeepLink]: the message is built first,
    and [String(error)] may throw while it is. *)
Definition dispatchError (url : string) (error : Thrown) : M unit :=
  match JsString error with
  | inl text =>
      log Types.error
          ("Error dispatching deep link: " ++ url ++ " (" ++ text ++ ")")%string
  | inr raised => throw raised
  end.

(** [dispatchDeepLink] from its call to its [await]: [Some r] when it
    stops at the [await] on the value [r] returned by the callback. *)
Definition dispatchBody (url : string) (context : DeepLinkContext)
  : M (option HandlerResult) :=
  try_catch
    (log debug ("Dispatching deep link: " ++ url)%string ;;
     match onDeepLink options with
     | Some handler =>
         r <- invoke handler url context ;;
         ret (Some r)
     | None =>
         log debug ("No handler for deep link: " ++ url)%string ;;
         ret None
     end)
    (fun error => dispatchError url error ;; ret None).

(** The call [dispatchDeepLink(url, context)]: an [async] function never
    throws to its caller, it returns a promise. *)
Definition dispatchDeepLink (url : string) (context : DeepLinkContext)
           (m : Manager) : Started * Manager :=
  match dispatchBody url context m with
  | (Normal (Some r), m') => (AwaitingHandler r, m')
  | (Normal None, m') => (Settled (Normal tt), m')
  | (Throw e, m') => (Settled (Throw e), m')
  end.

(** [dispatchDeepLink] from the moment the awaited value settles: a
    rejection is thrown inside the [try]. *)
Definition dispatchResume (url : string) (r : HandlerResult) : M unit :=
  try_catch
    (match r with
     | Rejects e => throw e
     | _ => ret tt
     end)
    (fun error => dispatchError url error).

(** The loop of [processPending] from the entries [rest] to its next
    [await] (or to its end). *)
Fixpoint loopFrom (rest : list QueuedDeepLink) (m : Manager) : Manager :=
  match rest with
  | [] => m
  | entry :: rest' =>
      match createDeepLinkContext (q_url entry) (q_intent entry) with
      | None => loopFrom rest' m
      | Some context =>
          match dispatchDeepLink (q_url entry) context m with
          | (AwaitingHandler r, m') =>
              snd (suspend (AwaitHandler (q_url entry) r (Loop rest')) m')
          | (Settled c, m') => snd (suspend (AwaitDispatch c rest') m')
          end
      end
  end.

(** A settled promise is looked at by [k]: with [c] the promise behind
    [void] is fulfilled or rejected, and the loop of [processPending] goes
    on after its [await] or is left by the exception the [await] throws.  A
    promise behind [void] that is rejected is an unhandled rejection; so is
    the promise of the loop when its [await] throws. *)
Definition settle (c : Completion unit) (k : Continuation) (m : Manager)
  : Manager :=
  match c, k with
  | Throw e, _ => snd (emit [UnhandledRejection e] m)
  | Normal _, Detached => m
  | Normal _, Loop rest => loopFrom rest m
  end.

(** The promise of a [dispatchDeepLink] call that was suspended settles
    with [c].  The loop that awaits it is not run in the same job: its
    continuation is a job of its own, queued behind the jobs that are
    already waiting. *)
Definition settled (c : Completion unit) (k : Continuation) (m : Manager)
  : Manager :=
  match k with
  | Detached => settle c Detached m
  | Loop rest => snd (suspend (AwaitDispatch c rest) m)
  end.

(** The [catch] callback of [deferDispatch]. *)
Definition deferredError (error : Thrown) : M unit :=
  match JsString error with
  | inl text =>
      log Types.error ("Error dispatching deferred deep link: " ++ text)%string
  | inr raised => throw raised
  end.

(** [void dispatchDeepLink(url, context)] *)
Definition void_dispatch (url : string) (context : DeepLinkContext)
  : M unit :=
  fun m =>
    match dispatchDeepLink url context m with
    | (AwaitingHandler r, m') => suspend (AwaitHandler url r Detached) m'
    | (Settled c, m') => (Normal tt, settle c Detached m')
    end.

Definition handleDeepLink (url : string) (intent : DeepLinkIntent) : M unit :=
  log debug ("Received deep link: " ++ url ++ " (intent: "
               ++ intent_string intent ++ ")")%string ;;
  match createDeepLinkContext url intent with
  | None => log Types.error ("Failed to parse deep link URL: " ++ url)%string
  | Some context =>
      if negb (Js.includes protocols (ctx_protocol context)) then
        log debug ("Ignoring deep link with unregistered protocol: "
                     ++ ctx_protocol context)%string
      else
        p <- isProcessed ;;
        if negb p then
          log debug ("Queuing deep link for later processing: " ++ url)%string ;;
          on_queue (fun q => let '(q', l) := enqueue url intent q in (tt, q', l))
        else
          void_dispatch url context
  end.

Definition processPending : M unit :=
  pending <- on_queue drain ;;
  if length pending =? 0 then
    log debug "No pending deep links to process"
  else
    log info ("Processing " ++ Js.string_of_nat (length pending)
                ++ " pending deep link(s)")%string ;;
    (fun m => (Normal tt, loopFrom pending m)).

Definition queueDeepLink (url : string) (intent : option DeepLinkIntent)
  : M unit :=
  let intent := default open_url intent in
  p <- isProcessed ;;
  if p then
    log debug ("Queue already processed, deferring dispatch: " ++ url)%string ;;
    suspend (Deferred url intent)
  else handleDeepLink url intent.

Definition getPending (m : Manager) : list string :=
  map q_url (peek (queue m)).

Definition clearPending : M unit :=
  on_queue (fun q => let '(q', l) := clear q in (tt, q', l)).

(** [openUrlHandler], registered on macOS only. *)
Definition openUrlHandler (url : string) : M unit :=
  handleDeepLink url open_url.

(** A suspended computation is resumed: the [i]-th task leaves the list
    and runs to its next suspension.  [None] when there is no such task or
    when it waits for a promise that stays pending.  The promise that
    [deferDispatch] builds is dropped, so a rejection of it is unhandled. *)
Definition resume (i : nat) (m : Manager) : option Manager :=
  match suspended m !! i with
  | None => None
  | Some task =>
      let m0 := {| queue := queue m; trace := trace m;
                   suspended := delete i (suspended m) |} in
      match task with
      | AwaitHandler _ NeverSettles _ => None
      | AwaitHandler url r k =>
          let '(c, m1) := dispatchResume url r m0 in Some (settled c k m1)
      | AwaitDispatch c rest => Some (settle c (Loop rest) m0)
      | Deferred url intent =>
          let '(c, m1) :=
            try_catch (handleDeepLink url intent) deferredError m0 in
          Some (settle c Detached m1)
      end
  end.

(** The oldest suspended computation that can go on: one that waits for a
    promise that stays pending is passed over. *)
Fixpoint oldest_ready (tasks : list Task) : option nat :=
  match tasks with
  | [] => None
  | AwaitHandler _ NeverSettles _ :: rest => option_map S (oldest_ready rest)
  | _ :: _ => Some 0
  end.

(** The jobs run in the order in which they were queued: the oldest
    suspended computation that can go on is resumed, [fuel] times at most.
    This is the order of the event loop when every promise the callback
    returns, if it settles at all, is settled by the time it is awaited. *)
Fixpoint run (fuel : nat) (m : Manager) : Manager :=
  match fuel with
  | 0 => m
  | S fuel' =>
      match oldest_ready (suspended m) with
      | Some i =>
          match resume i m with
          | Some m' => run fuel' m'
          | None => m
          end
      | None => m
      end
  end.

(** A call that returns normally and leaves the queue, the consumer
    invocations, the suspended computations and the unhandled rejections as
    they were in [m]. *)
Definition drops (m : Manager) (r : Completion unit * Manager) : Prop :=
  fst r = Normal tt
  /\ queue (snd r) = queue m
  /\ invocations (trace (snd r)) = invocations (trace m)
  /\ suspended (snd r) = suspended m
  /\ rejections (trace (snd r)) = rejections (trace m).

(** No suspended loop waits on a rejected promise, and no suspended
    dispatch on a failure that [String] cannot convert. *)
Definition task_ok (t : Task) : Prop :=
  match t with
  | AwaitDispatch (Throw _) _ => False
  | AwaitHandler _ r _ => converts r = true
  | _ => True
  end.

Definition tasks_ok (m : Manager) : Prop := Forall task_ok (suspended m).

(** [m'] is [m] with events [t] and suspended computations [tasks] added,
    none of them an unhandled rejection or a loop behind a rejection. *)
Definition grows (m m' : Manager) (t : list Event) (tasks : list Task) : Prop :=
  m' = {| queue := queue m; trace := trace m ++ t;
          suspended := suspended m ++ tasks |}
  /\ rejections t = []
  /\ Forall task_ok tasks.

Definition received (url : string) (intent : DeepLinkIntent) : Event :=
  Logged (debug, "Received deep link: " ++ url ++ " (intent: "
                   ++ intent_string intent ++ ")")%string.

(** [m'] has the same unhandled rejections as [m], and is well formed when
    [m] is. *)
Definition keeps (m m' : Manager) : Prop :=
  rejections (trace m') = rejections (trace m) /\ (tasks_ok m -> tasks_ok m').

(** While the queue is open nothing is suspended. *)
Definition open_idle (m : Manager) : Prop :=
  Queue.isProcessed (queue m) = false -> suspended m = [].

(** Every queued link was accepted by [handleDeepLink]. *)
Definition queued_registered (m : Manager) : Prop :=
  Forall (fun entry => isRegisteredProtocol (q_url entry) protocols = true)
         (Queue.peek (queue m)).

(** One action; an action of the event loop has no caller to throw to. *)
Definition perform (a : Action) : M unit :=
  match a with
  | DoHandleDeepLink url intent => handleDeepLink url intent
  | DoProcessPending => processPending
  | DoQueueDeepLink url intent => queueDeepLink url intent
  | DoClearPending => clearPending
  | DoResume i => fun m => (Normal tt, default m (resume i m))
  end.

Definition perform_all (actions : list Action) (m : Manager) : Manager :=
  fold_left (fun m a => snd (perform a m)) actions m.

(** The invocations that dispatching the entries [es] makes: one for each
    entry whose URL parses again, when a callback is configured. *)
Definition dispatched (es : list QueuedDeepLink) : list Call :=
  flat_map
    (fun entry =>
       match onDeepLink options,
             createDeepLinkContext (q_url entry) (q_intent entry) with
       | Some _, Some context => [(q_url entry, context)]
       | _, _ => []
       end)
    es.

End WithManager.

(** [createDeepLinkManager(options, logger, protocols)], run after the
    events [t0]: the listener registration on macOS and the scan of the
    launch arguments. *)
Definition createDeepLinkManager `{URL.HostEnvironment} (env : Env)
           (options : SetupOptions) (protocols : list string)
           (t0 : list Event) : Manager :=
  let m0 := started (t0 ++ (if Platforms.isMacOS env
                            then [App (on "open-url")] else [])) in
  match Platforms.extractDeepLinkFromArgs (Platforms.getPlatformHandler env)
                                          (argv env) protocols with
  | Some (String _ _ as launchUrl) =>
      snd (handleDeepLink options protocols launchUrl launch m0)
  | _ => m0
  end.

(** [cleanup] of the manager: the listener registered on macOS is removed. *)
Definition cleanup (env : Env) : M unit :=
  emit (if Platforms.isMacOS env then [App (off "open-url")] else []).

End DeepLinks.

(** ** index.ts *)

Module Index.

Import Types Electron.

(** [InstanceManager]: the flag and the state its closures share. *)
Inductive InstanceManager :=
(** the minimal manager returned when the lock is not held *)
| MustQuit (t : list Event)
(** [registered] is the array handed to [createDeepLinkManager] *)
| Running (result : ProtocolRegistry.ProtocolRegistryResult)
          (m : DeepLinks.Manager).

Definition shouldQuit (i : InstanceManager) : bool :=
  match i with MustQuit _ => true | Running _ _ => false end.

Section WithHost.
Context `{URL.HostEnvironment}.
Variable env : Env.
Variable options : SetupOptions.

Definition setupInstance : InstanceManager :=
  let t0 := [Logged (info, "Setting up electron-launch-handler");
             Logged (debug, "Single instance mode enabled")] in
  let '(lockResult, t1) := InstanceLock.acquireInstanceLock env options in
  if negb (InstanceLock.hasLock lockResult) then MustQuit (t0 ++ t1)
  else
    let '(protocolResult, t2) :=
      ProtocolRegistry.registerProtocols env options in
    Running protocolResult
            (DeepLinks.createDeepLinkManager
               env options (ProtocolRegistry.registered protocolResult)
               (t0 ++ t1 ++ t2)).

(** A method of the returned object that delegates to the deep-link
    manager, and does nothing on the minimal manager. *)
Definition delegate
           (method : list string -> DeepLinks.M unit) (i : InstanceManager)
  : DeepLinks.Completion unit * InstanceManager :=
  match i with
  | MustQuit t => (DeepLinks.Normal tt, MustQuit t)
  | Running result m =>
      let '(c, m') := method (ProtocolRegistry.registered result) m in
      (c, Running result m')
  end.

Definition processPendingDeepLinks :=
  delegate (fun registered => DeepLinks.processPending options).

Definition getPendingDeepLinks (i : InstanceManager) : list string :=
  match i with
  | MustQuit _ => []
  | Running _ m => DeepLinks.getPending m
  end.

Definition clearPendingDeepLinks :=
  delegate (fun _ => DeepLinks.clearPending).

Definition queueDeepLink (url : string) (intent : option DeepLinkIntent) :=
  delegate (fun registered =>
              DeepLinks.queueDeepLink options registered url intent).

(** The listener of [second-instance] with the callback [setupInstance]
    gives it: [deepLinkManager?.handleDeepLink(deepLinkUrl, 'open-url')]
    when a deep link was found. *)
Definition secondInstance (argv : list string) :=
  delegate (fun registered =>
              let '(deepLinkUrl, t) :=
                InstanceLock.secondInstanceHandler env options argv in
              DeepLinks.bind (DeepLinks.emit t)
                (fun _ =>
                   match deepLinkUrl with
                   | Some (String _ _ as url) =>
                       DeepLinks.handleDeepLink options registered url open_url
                   | _ => DeepLinks.ret tt
                   end)).

Definition unregisterProtocols (i : InstanceManager) : InstanceManager :=
  match i with
  | MustQuit t => MustQuit t
  | Running result m =>
      Running result
              (DeepLinks.extend m (ProtocolRegistry.unregisterAll env result))
  end.

(** The listener of [open-url] (macOS). *)
Definition openUrl (url : string) :=
  delegate (fun registered =>
              DeepLinks.openUrlHandler options registered url).

End WithHost.

End Index.

(** ** queue.ts again, on a heap

    The class keeps an array of objects, and [drain] and [peek] hand arrays
    of objects to the caller.  To tell a copy from a shared reference, this
    second model stores arrays and entry objects in a heap and lets methods
    return references.  It is related to [Queue] by [QueueHeap.view]. *)

Module QueueHeap.

Import Types.
Import Queue (QueuedDeepLink, q_url, q_intent).

Definition loc : Type := positive.

Record heap := {
  arrays : gmap loc (list loc);           (* an array holds references *)
  objects : gmap loc QueuedDeepLink       (* [{ url, intent }] objects *)
}.

(** The fields of a [DeepLinkQueue] instance: [queue] refers to an array. *)
Record DeepLinkQueue := {
  queue : loc;
  processed : bool
}.

Definition alloc_array (elems : list loc) (h : heap) : loc * heap :=
  let a := fresh (dom (arrays h)) in
  (a, {| arrays := <[a := elems]> (arrays h); objects := objects h |}).

Definition alloc_object (e : QueuedDeepLink) (h : heap) : loc * heap :=
  let o := fresh (dom (objects h)) in
  (o, {| arrays := arrays h; objects := <[o := e]> (objects h) |}).

(** The elements of the array at [a]. *)
Definition elements_of (h : heap) (a : loc) : list loc :=
  default [] (arrays h !! a).

(** The entries an array denotes: the contents of the objects it refers
    to, in order. *)
Definition read (h : heap) (a : loc) : list QueuedDeepLink :=
  omap (fun o => objects h !! o) (elements_of h a).

(** [new DeepLinkQueue()] *)
Definition create (h : heap) : DeepLinkQueue * heap :=
  let '(a, h') := alloc_array [] h in
  ({| queue := a; processed := false |}, h').

(** [this.queue.push({ url, intent })] *)
Definition enqueue (url : string) (intent : DeepLinkIntent)
           (q : DeepLinkQueue) (h : heap) : DeepLinkQueue * heap :=
  if processed q then (q, h)
  else
    let '(o, h1) := alloc_object {| q_url := url; q_intent := intent |} h in
    (q, {| arrays := <[queue q := elements_of h1 (queue q) ++ [o]]> (arrays h1);
           objects := objects h1 |}).

(** [items.map((item) => ({ ...item }))]: one new object per element; the
    new array is allocated by the caller of this function. *)
Fixpoint copy_items (items : list loc) (h : heap) : list loc * heap :=
  match items with
  | [] => ([], h)
  | item :: rest =>
      match objects h !! item with
      | Some e =>
          let '(o, h1) := alloc_object e h in
          let '(os, h2) := copy_items rest h1 in
          (o :: os, h2)
      | None => copy_items rest h     (* no dangling reference: not reached *)
      end
  end.

Definition map_copy (a : loc) (h : heap) : loc * heap :=
  let '(os, h1) := copy_items (elements_of h a) h in
  alloc_array os h1.

Definition drain (q : DeepLinkQueue) (h : heap)
  : loc * DeepLinkQueue * heap :=
  if processed q then
    let '(r, h1) := alloc_array [] h in (r, q, h1)
  else
    let '(urls, h1) := map_copy (queue q) h in
    let '(a, h2) := alloc_array [] h1 in
    (urls, {| queue := a; processed := true |}, h2).

Definition peek (q : DeepLinkQueue) (h : heap) : loc * heap :=
  map_copy (queue q) h.

Definition clear (q : DeepLinkQueue) (h : heap) : DeepLinkQueue * heap :=
  let '(a, h1) := alloc_array [] h in
  ({| queue := a; processed := processed q |}, h1).

Definition isProcessed (q : DeepLinkQueue) : bool := processed q.

Definition size (q : DeepLinkQueue) (h : heap) : nat :=
  length (elements_of h (queue q)).

Definition hasItems (q : DeepLinkQueue) (h : heap) : bool :=
  0 <? length (elements_of h (queue q)).

Definition reset (q : DeepLinkQueue) (h : heap) : DeepLinkQueue * heap :=
  let '(a, h1) := alloc_array [] h in
  ({| queue := a; processed := false |}, h1).

(** What a caller can do to an array or an object it holds a reference
    to.  [SetArray] stands for every in-place change of an array ([push],
    [pop], [splice], [sort], [a[i] = x], [a.length = n]); [SetObject]
    for assignments to the fields of an entry object. *)
Inductive Mutation :=
| SetArray (a : loc) (elems : list loc)
| SetObject (o : loc) (e : QueuedDeepLink).

Definition mutate (mu : Mutation) (h : heap) : heap :=
  match mu with
  | SetArray a elems =>
      {| arrays := <[a := elems]> (arrays h); objects := objects h |}
  | SetObject o e =>
      {| arrays := arrays h; objects := <[o := e]> (objects h) |}
  end.

Definition mutate_all (ms : list Mutation) (h : heap) : heap :=
  fold_left (fun h mu => mutate mu h) ms h.

(** A mutation through the array [r] as it was returned in heap [h]: of
    [r] itself or of one of the objects [r] held then. *)
Definition through (h : heap) (r : loc) (mu : Mutation) : Prop :=
  match mu with
  | SetArray a _ => a = r
  | SetObject o _ => o ∈ elements_of h r
  end.

(** The queue of the first model that a heap queue stands for. *)
Definition view (q : DeepLinkQueue) (h : heap) : Queue.DeepLinkQueue :=
  {| Queue.queue := read h (queue q); Queue.processed := processed q |}.

(** No dangling references from the queue. *)
Definition wf (q : DeepLinkQueue) (h : heap) : Prop :=
  queue q ∈ dom (arrays h)
  /\ Forall (fun o => o ∈ dom (objects h)) (elements_of h (queue q)).

(** The heap [h'] has the arrays of [h], and the objects of [h] unchanged. *)
Definition extends_objects (h h' : heap) : Prop :=
  arrays h' = arrays h
  /\ dom (objects h) ⊆ dom (objects h')
  /\ forall o, o ∈ dom (objects h) -> objects h' !! o = objects h !! o.

(** Every array and every object of [h] is in [h'] as it is in [h]. *)
Definition preserved (h h' : heap) : Prop :=
  (forall a, a ∈ dom (arrays h) -> arrays h' !! a = arrays h !! a)
  /\ (forall o, o ∈ dom (objects h) -> objects h' !! o = objects h !! o).

End QueueHeap.


(** ** Concrete hosts and options, used as inputs below *)

Module Samples.

Import Types Electron.

(** No special schemes and no IPv6 literals: enough for custom schemes. *)
Definition custom_schemes_only : URL.HostEnvironment :=
  {| URL.special_scheme_state := fun _ _ => None;
     URL.ipv6_literal := fun _ => None |}.

(** A packaged application on which every request to the operating system
    succeeds. *)
Definition host (p : Platform) (args : list string) : Env :=
  {| platform := p;
     argv := args;
     execPath := "/opt/app/app";
     isPackaged := true;
     name := "app";
     os_setAsDefaultProtocolClient := fun _ _ _ => true;
     os_removeAsDefaultProtocolClient := fun _ => true;
     os_requestSingleInstanceLock := true;
     updateExePath := "/opt/Update.exe";
     targetExeName := "app";
     os_desktopShortcutExists := fun _ => false |}.

(** The same host, on which the operating system refuses to register the
    scheme beta. *)
Definition host_refusing_beta (p : Platform) (args : list string) : Env :=
  {| platform := p;
     argv := args;
     execPath := "/opt/app/app";
     isPackaged := true;
     name := "app";
     os_setAsDefaultProtocolClient :=
       fun scheme _ _ => negb (String.eqb scheme "beta");
     os_removeAsDefaultProtocolClient := fun _ => true;
     os_requestSingleInstanceLock := true;
     updateExePath := "/opt/Update.exe";
     targetExeName := "app";
     os_desktopShortcutExists := fun _ => false |}.

Definition options_for (schemes : list string)
           (handler : option DeepLinkHandler) : SetupOptions :=
  {| protocols := Some schemes;
     onDeepLink := handler;
     onInstanceLockFailed := false;
     windows := None;
     Types.linux := None |}.

(** A manager that has queued four links for the scheme myapp. *)
Definition four_queued_actions : list DeepLinks.Action :=
  [DeepLinks.DoHandleDeepLink "myapp://first" launch;
   DeepLinks.DoHandleDeepLink "myapp://second" launch;
   DeepLinks.DoHandleDeepLink "myapp://third" launch;
   DeepLinks.DoHandleDeepLink "myapp://fourth" open_url].

Definition four_queued (options : SetupOptions) : DeepLinks.Manager :=
  @DeepLinks.perform_all custom_schemes_only options ["myapp"]
    four_queued_actions (DeepLinks.started []).

(** A heap with a queue object on which two links have been enqueued. *)
Definition heap_empty : QueueHeap.heap :=
  {| QueueHeap.arrays := ∅; QueueHeap.objects := ∅ |}.

Definition two_on_heap : QueueHeap.DeepLinkQueue * QueueHeap.heap :=
  let '(q0, h0) := QueueHeap.create heap_empty in
  let '(q1, h1) := QueueHeap.enqueue "myapp://a" launch q0 h0 in
  QueueHeap.enqueue "myapp://b" open_url q1 h1.

(** What a caller may write over the entries it was given. *)
Definition overwritten : Queue.QueuedDeepLink :=
  {| Queue.q_url := "other://overwritten"; Queue.q_intent := open_url |}.

(** The caller empties the array [r] it was given and overwrites every
    object the array held. *)
Definition scribble (h : QueueHeap.heap) (r : QueueHeap.loc)
  : list QueueHeap.Mutation :=
  QueueHeap.SetArray r []
  :: map (fun o => QueueHeap.SetObject o overwritten)
         (QueueHeap.elements_of h r).

(** What the tests of url-parser.ts read from a parse result. *)
Definition observed (p : ParsedDeepLink)
  : string * string * string * URL.URLSearchParams * string :=
  (Types.protocol p, Types.host p, Types.path p, Types.params p, Types.hash p).

(** A callback that returns at once. *)
Definition quiet_handler : DeepLinkHandler := fun _ _ _ => Returns.

(** A callback that throws on [myapp://second], returns a promise that is
    rejected on [myapp://third], and returns otherwise. *)
Definition failing_handler : DeepLinkHandler :=
  fun _ url _ =>
    if String.eqb url "myapp://second" then Throws (Printable "Error: second")
    else if String.eqb url "myapp://third" then Rejects (Printable "Error: third")
    else Returns.

(** [throw Object.create(null)] on [myapp://second]: [String] of that
    value throws a [TypeError].  The callback returns otherwise. *)
Definition unconvertible_failure_handler : DeepLinkHandler :=
  fun _ url _ =>
    if String.eqb url "myapp://second" then
      Throws (Unprintable
                (Printable "TypeError: Cannot convert object to primitive value"))
    else Returns.

(** A callback whose promise for [myapp://first] stays pending.  It returns
    otherwise. *)
Definition stalling_handler : DeepLinkHandler :=
  fun _ url _ =>
    if String.eqb url "myapp://first" then NeverSettles else Returns.

End Samples.

(** ** Statements of the specification that are examined below *)

Module Stated.

Import Types Electron.

(** "For every argv in which a platform startup lifecycle event is
    recognized, acquireInstanceLock returns without ever requesting the
    single-instance lock and reports hasLock = false", on Windows with
    Squirrel handling enabled. *)
Definition recognized_event_skips_lock (env : Env) (options : SetupOptions)
  : Prop :=
  platform env = win32 ->
  Platforms.squirrelHandlingEnabled options = true ->
  Platforms.getSquirrelEvent (argv env) <> None ->
  let '(result, t) := InstanceLock.acquireInstanceLock env options in
  InstanceLock.hasLock result = false
  /\ ~ In requestSingleInstanceLock (app_calls t).

(** "When the callback fails on one entry of a drained batch, every
    remaining queued entry is still dispatched in order", for the batch
    that [processPending] drains from [m]: once the jobs it leaves have
    run, the callback has been invoked with the URL of each entry of the
    batch, in order. *)
Definition remaining_entries_are_dispatched `{URL.HostEnvironment}
           (options : SetupOptions) (protocols : list string)
           (m : DeepLinks.Manager) : Prop :=
  let pending := Queue.peek (DeepLinks.queue m) in
  forall fuel,
    2 * length pending <= fuel ->
    map fst (invocations
               (DeepLinks.trace
                  (DeepLinks.run options protocols fuel
                                 (snd (DeepLinks.processPending options m)))))
    = map fst (invocations (DeepLinks.trace m)) ++ map Queue.q_url pending.

End Stated.

(** ** Notions used to state further properties *)

Module Notions.

Import Js.

(** A scheme as [URL.protocol] prints it: a lower-case letter, then
    lower-case letters, digits, [+], [-] or [.]. *)
Definition is_scheme (p : string) : bool :=
  match chars p with
  | c :: rest =>
      URL.is_lower_alpha c && forallb URL.is_lower_scheme_char rest
  | [] => false
  end.

(** The strings [getSquirrelEvent] looks for. *)
Definition squirrelArguments : list string :=
  map fst Platforms.squirrelEvents.

(** The links [handleDeepLink] accepts, of the links it is given. *)
Definition accepted `{URL.HostEnvironment} (protocols : list string)
           (links : list (string * Types.DeepLinkIntent))
  : list (string * Types.DeepLinkIntent) :=
  List.filter (fun l => UrlParser.isRegisteredProtocol (fst l) protocols) links.

(** The queue entry [{ url, intent }] of a link. *)
Definition entry (l : string * Types.DeepLinkIntent) : Queue.QueuedDeepLink :=
  {| Queue.q_url := fst l; Queue.q_intent := snd l |}.

(** [handleDeepLink(url, intent)] for each link, in order. *)
Definition arrivals (links : list (string * Types.DeepLinkIntent))
  : list DeepLinks.Action :=
  map (fun l => DeepLinks.DoHandleDeepLink (fst l) (snd l)) links.

(** What the consumer sees of an invocation: the URL and the intent. *)
Definition delivered (calls : list Types.Call)
  : list (string * Types.DeepLinkIntent) :=
  map (fun c => (fst c, Types.ctx_intent (snd c))) calls.

End Notions.

Module QueryNotions.

Import Js.

(** A character of a host that is written as it is: not a forbidden host
    code point, and not a control or a space, which the parser may strip. *)
Definition is_host_char (c : ascii) : bool :=
  negb (URL.is_forbidden_host_code_point c)
  && negb (URL.is_c0_control_or_space c).

(** Every byte written as a percent escape. *)
Definition escaped (bytes : list ascii) : list ascii :=
  URL.percent_encode_all (fun _ => true) bytes.

(** [name=value], with both escaped. *)
Definition escaped_pair (item : list ascii * list ascii) : list ascii :=
  escaped (fst item) ++ "="%char :: escaped (snd item).

(** The query string that writes the pairs: [name=value] sequences joined
    by [&]. *)
Fixpoint query_of (pairs : list (list ascii * list ascii)) : list ascii :=
  match pairs with
  | [] => []
  | [item] => escaped_pair item
  | item :: rest => escaped_pair item ++ "&"%char :: query_of rest
  end.

(** The link [<p>://<host>?<query>]. *)
Definition link_with_query (p : string) (host : list ascii)
           (pairs : list (list ascii * list ascii)) : string :=
  str (chars p ++ chars "://" ++ host ++ "?"%char :: query_of pairs).

(** The characters of percent escapes. *)
Definition is_escape_char (c : ascii) : bool :=
  URL.is_char "%" c || URL.is_digit c || URL.in_range 65 70 c.

(** The characters of a written query. *)
Definition is_query_char (c : ascii) : bool :=
  is_escape_char c || URL.is_char "=" c || URL.is_char "&" c.

(** A byte of ASCII text. *)
Definition is_ascii (c : ascii) : bool := URL.code c <=? 127.

(** Bytes read as UTF-8 text. *)
Definition text_of (bytes : list ascii) : string :=
  str (URL.utf8_decode_without_bom bytes).

End QueryNotions.

(** * Properties *)

(** ** The queue (queue.ts) *)

Section QueueFacts.

Import Types Queue.

Lemma entry_eta (e : QueuedDeepLink) :
  {| q_url := q_url e; q_intent := q_intent e |} = e.
Proof. now destruct e. Qed.

Lemma enqueue_open (url : string) (intent : DeepLinkIntent) (q : DeepLinkQueue) :
  processed q = false ->
  fst (enqueue url intent q)
  = {| queue := queue q ++ [{| q_url := url; q_intent := intent |}];
       processed := false |}.
Proof. intros Hp. unfold enqueue. now rewrite Hp. Qed.

Lemma enqueue_closed (url : string) (intent : DeepLinkIntent) (q : DeepLinkQueue) :
  processed q = true -> fst (enqueue url intent q) = q.
Proof. intros Hp. unfold enqueue. now rewrite Hp. Qed.

Lemma reset_is_create (q : DeepLinkQueue) : fst (reset q) = create.
Proof. reflexivity. Qed.

Lemma drain_open (q : DeepLinkQueue) :
  processed q = false ->
  fst (drain q) = (queue q, {| queue := []; processed := true |}).
Proof. intros Hp. unfold drain. now rewrite Hp. Qed.

Lemma drain_closed (q : DeepLinkQueue) :
  processed q = true -> fst (drain q) = ([], q).
Proof. intros Hp. unfold drain. now rewrite Hp. Qed.

Lemma enqueue_all_open (es : list QueuedDeepLink) (q : DeepLinkQueue) :
  processed q = false ->
  enqueue_all es q = {| queue := queue q ++ es; processed := false |}.
Proof.
  revert q. induction es as [|e es IH]; intros q Hp.
  - destruct q as [items p]. simpl in Hp. subst p.
    unfold enqueue_all. simpl. now rewrite app_nil_r.
  - unfold enqueue_all in *. simpl. rewrite (enqueue_open _ _ _ Hp).
    rewrite IH by reflexivity. simpl.
    now rewrite entry_eta, <- app_assoc.
Qed.

Lemma call_closed_empty (c : QueueCall) (q : DeepLinkQueue) :
  closed_empty q -> closed_empty (call c q).
Proof.
  unfold closed_empty. intros Hq.
  destruct c as [url intent| |]; simpl.
  - destruct (processed q) eqn:Hp.
    + rewrite (enqueue_closed _ _ _ Hp). auto.
    + rewrite (enqueue_open _ _ _ Hp). discriminate.
  - destruct (processed q) eqn:Hp.
    + rewrite (drain_closed _ Hp). simpl. auto.
    + rewrite (drain_open _ Hp). reflexivity.
  - reflexivity.
Qed.

Lemma after_closed_empty (cs : list AnyCall) : closed_empty (after cs).
Proof.
  unfold after.
  assert (Hgen : forall q, closed_empty q ->
                   closed_empty (fold_left (fun q c => any_call c q) cs q)).
  { induction cs as [|c cs IH]; intros q Hq; simpl; [exact Hq|].
    apply IH. destruct c as [c|].
    - now apply call_closed_empty.
    - unfold closed_empty. discriminate. }
  apply Hgen. unfold closed_empty. discriminate.
Qed.

(** Once processed and empty, a queue stays so under every call but
    [reset]. *)
Lemma calls_closed (cs : list QueueCall) (q : DeepLinkQueue) :
  processed q = true -> queue q = [] -> calls cs q = q.
Proof.
  revert q. induction cs as [|c cs IH]; intros q Hp Hq; [reflexivity|].
  unfold calls in *. simpl.
  assert (Hc : call c q = q).
  { destruct c as [url intent| |]; simpl.
    - now apply enqueue_closed.
    - now rewrite (drain_closed _ Hp).
    - destruct q as [items p]. simpl in *. now subst. }
  rewrite Hc. now apply IH.
Qed.

Lemma drained_state (cs : list AnyCall) :
  call CallDrain (after cs) = {| queue := []; processed := true |}.
Proof.
  simpl. destruct (processed (after cs)) eqn:Hp.
  - rewrite (drain_closed _ Hp). simpl.
    pose proof (after_closed_empty cs Hp) as Hq.
    destruct (after cs) as [items p]. simpl in *. now subst.
  - now rewrite (drain_open _ Hp).
Qed.

End QueueFacts.

(** C2. Entries enqueued on a new queue, or on a queue that has just been
    reset, come back from the first [drain] all of them and in the order of
    the [enqueue] calls, and the queue is empty afterwards. *)
Theorem C2_drain_returns_enqueued_in_order :
  forall (es : list Queue.QueuedDeepLink),
    (let '(out, q, _) := Queue.drain (Queue.enqueue_all es Queue.create) in
     out = es /\ Queue.size q = 0 /\ Queue.peek q = [])
    /\
    (forall q0 : Queue.DeepLinkQueue,
        let '(out, q, _) := Queue.drain (Queue.enqueue_all es (fst (Queue.reset q0))) in
        out = es /\ Queue.size q = 0 /\ Queue.peek q = []).
Proof.
  intros es.
  assert (Hnew : let '(out, q, _) := Queue.drain (Queue.enqueue_all es Queue.create) in
                 out = es /\ Queue.size q = 0 /\ Queue.peek q = []).
  { rewrite enqueue_all_open by reflexivity. simpl. auto. }
  split; [exact Hnew|].
  intros q0. rewrite reset_is_create. exact Hnew.
Qed.

(** The scenario of the tests: three links, intent launch. *)
Example drain_first_second_third :
  let e u := {| Queue.q_url := u; Queue.q_intent := Types.launch |} in
  let q1 := fst (Queue.enqueue "myapp://first" Types.launch Queue.create) in
  let q2 := fst (Queue.enqueue "myapp://second" Types.launch q1) in
  let q3 := fst (Queue.enqueue "myapp://third" Types.launch q2) in
  fst (fst (Queue.drain q3))
  = [e "myapp://first"; e "myapp://second"; e "myapp://third"].
Proof. reflexivity. Qed.

(** C3. The processed flag is a one-shot gate.  Take a queue object in any
    state it can be in ([history] is what was called on it since [new]) and
    call [drain]; after any further calls other than [reset], the flag is
    set, the buffer is empty, [enqueue] changes nothing and [drain] returns
    nothing.  [reset] gives an empty queue with the flag cleared, from
    which entries are accepted and drained again. *)
Theorem C3_processed_is_one_shot_gate :
  forall (history : list Queue.AnyCall) (later : list Queue.QueueCall),
    let q := Queue.calls later (Queue.call Queue.CallDrain (Queue.after history)) in
    Queue.isProcessed q = true
    /\ Queue.peek q = []
    /\ (forall url intent, fst (Queue.enqueue url intent q) = q)
    /\ fst (Queue.drain q) = ([], q)
    /\ fst (Queue.reset q) = {| Queue.queue := []; Queue.processed := false |}
    /\ (forall es, fst (Queue.drain (Queue.enqueue_all es (fst (Queue.reset q))))
                   = (es, {| Queue.queue := []; Queue.processed := true |})).
Proof.
  intros history later q.
  assert (Hq : q = {| Queue.queue := []; Queue.processed := true |}).
  { unfold q. rewrite drained_state. now apply calls_closed. }
  rewrite Hq. repeat split.
  intros es. rewrite reset_is_create, enqueue_all_open by reflexivity.
  reflexivity.
Qed.

(** ** The platform extractors (platforms/) *)

Section ExtractorFacts.

Import Platforms.

Lemma matchProtocols_spec (arg : string) (protocols : list string) :
  matchProtocols arg protocols
  = if isDeepLinkArg protocols arg then Some arg else None.
Proof.
  induction protocols as [|p ps IH]; simpl; [reflexivity|].
  destruct (Js.startsWith arg (p ++ "://")); simpl; [reflexivity|exact IH].
Qed.

Lemma scanForward_spec (argv protocols : list string) :
  scanForward argv protocols = firstFromFront argv protocols.
Proof.
  unfold firstFromFront.
  induction argv as [|arg rest IH]; simpl; [reflexivity|].
  rewrite matchProtocols_spec.
  destruct (isDeepLinkArg protocols arg); [reflexivity|exact IH].
Qed.

Lemma firstn_snoc {A} (l : list A) (i : nat) (a : A) :
  nth_error l i = Some a -> firstn (S i) l = firstn i l ++ [a].
Proof.
  revert i. induction l as [|x l IH]; intros [|i] Hi; simpl in *;
    try discriminate.
  - now inversion Hi.
  - f_equal. now apply IH.
Qed.

(** The loop that counts down from [n] reads the first [n] arguments from
    the last to the first. *)
Lemma scanBackward_prefix (argv protocols : list string) (n : nat) :
  n <= length argv ->
  scanBackward argv protocols n
  = List.find (isDeepLinkArg protocols) (rev (firstn n argv)).
Proof.
  induction n as [|i IH]; intros Hn; [reflexivity|].
  simpl scanBackward.
  destruct (nth_error argv i) as [arg|] eqn:Hi.
  - rewrite (firstn_snoc _ _ _ Hi), rev_app_distr. simpl.
    rewrite matchProtocols_spec.
    destruct (isDeepLinkArg protocols arg); [reflexivity|].
    apply IH. lia.
  - apply nth_error_None in Hi. lia.
Qed.

Lemma scanBackward_spec (argv protocols : list string) :
  scanBackward argv protocols (length argv) = firstFromBack argv protocols.
Proof.
  rewrite scanBackward_prefix by lia.
  unfold firstFromBack. now rewrite firstn_all.
Qed.

Lemma find_none_iff {A} (f : A -> bool) (l : list A) :
  List.find f l = None <-> Forall (fun x => f x = false) l.
Proof.
  induction l as [|x l IH]; simpl.
  - split; [constructor|reflexivity].
  - destruct (f x) eqn:Hx.
    + split; [discriminate|]. intros Hall. inversion Hall. congruence.
    + rewrite IH. split; [now constructor|]. intros Hall. now inversion Hall.
Qed.

End ExtractorFacts.

(** C5. The extractors share one contract and differ in scan order: the
    macOS and Linux variants return the first element of [argv] that starts
    with [<p>://] for some [p] in [protocols], the Windows variant the first
    such element from the end; each returns nothing exactly when no element
    matches; on [exe, myapp://a, myapp://b] with protocol myapp the Windows
    variant returns [myapp://b] and the other two [myapp://a]. *)
Theorem C5_extractors_differ_in_scan_order :
  forall (env : Electron.Env),
    let macos := Platforms.extractDeepLinkFromArgs (Platforms.createMacOSHandler env) in
    let linux := Platforms.extractDeepLinkFromArgs (Platforms.createLinuxHandler env) in
    let windows := Platforms.extractDeepLinkFromArgs (Platforms.createWindowsHandler env) in
    (forall argv protocols,
        macos argv protocols = Platforms.firstFromFront argv protocols
        /\ linux argv protocols = Platforms.firstFromFront argv protocols
        /\ windows argv protocols = Platforms.firstFromBack argv protocols)
    /\ (forall argv protocols,
           let unmatched :=
             Forall (fun arg => Platforms.isDeepLinkArg protocols arg = false) argv in
           (macos argv protocols = None <-> unmatched)
           /\ (linux argv protocols = None <-> unmatched)
           /\ (windows argv protocols = None <-> unmatched))
    /\ windows ["exe"; "myapp://a"; "myapp://b"] ["myapp"] = Some "myapp://b"
    /\ macos ["exe"; "myapp://a"; "myapp://b"] ["myapp"] = Some "myapp://a"
    /\ linux ["exe"; "myapp://a"; "myapp://b"] ["myapp"] = Some "myapp://a".
Proof.
  intros env macos linux windows.
  assert (Hspec : forall argv protocols,
             macos argv protocols = Platforms.firstFromFront argv protocols
             /\ linux argv protocols = Platforms.firstFromFront argv protocols
             /\ windows argv protocols = Platforms.firstFromBack argv protocols).
  { intros argv protocols. unfold macos, linux, windows. simpl.
    rewrite scanForward_spec, scanBackward_spec. auto. }
  split; [exact Hspec|]. split; [|repeat split; reflexivity].
  intros argv protocols unmatched.
  destruct (Hspec argv protocols) as (Hm & Hl & Hw).
  rewrite Hm, Hl, Hw. unfold Platforms.firstFromFront, Platforms.firstFromBack.
  rewrite !find_none_iff. repeat split; try tauto; unfold unmatched.
  - intros Hall. rewrite <- (rev_involutive argv). now apply List.Forall_rev.
  - intros Hall. now apply List.Forall_rev.
Qed.

(** ** The instance lock (instance-lock.ts, platforms/windows.ts) *)

Section LockFacts.

Import Types Electron Platforms InstanceLock.

Lemma app_calls_app (t1 t2 : list Event) :
  app_calls (t1 ++ t2) = app_calls t1 ++ app_calls t2.
Proof. unfold app_calls. apply flat_map_app. Qed.

(** Handling a startup event never asks for the lock. *)
Lemma startup_never_requests_lock (env : Env) (options : SetupOptions) :
  ~ In requestSingleInstanceLock
       (app_calls (snd (windowsHandleStartupEvents env options))).
Proof.
  unfold windowsHandleStartupEvents, createShortcuts, runSquirrelCommand.
  repeat (case_match; simpl); intuition discriminate.
Qed.

(** When Squirrel handling is enabled the answer of the handler depends
    on the event alone. *)
Lemma startup_answer (env : Env) (options : SetupOptions) :
  squirrelHandlingEnabled options = true ->
  fst (windowsHandleStartupEvents env options)
  = match getSquirrelEvent (argv env) with
    | Some squirrel_firstrun | None => false
    | Some _ => true
    end.
Proof.
  unfold squirrelHandlingEnabled, windowsHandleStartupEvents.
  repeat (case_match; simpl); congruence.
Qed.

Lemma acquire_on_windows (env : Env) (options : SetupOptions) :
  platform env = win32 ->
  acquireInstanceLock env options
  = let '(startup, t0) := windowsHandleStartupEvents env options in
    if startup then
      ({| hasLock := false |},
       t0 ++ [Logged (info, "Handling platform startup event, app will quit")])
    else
      let t1 := t0 ++ [App requestSingleInstanceLock] in
      if negb (os_requestSingleInstanceLock env) then
        ({| hasLock := false |},
         t1 ++ [Logged (info, "Another instance is already running")]
            ++ (if onInstanceLockFailed options then [LockFailedCallback] else []))
      else
        ({| hasLock := true |},
         t1 ++ [Logged (info, "Acquired single instance lock");
                App (on "second-instance")]).
Proof.
  intros Hw. unfold acquireInstanceLock, getPlatformHandler.
  rewrite Hw. reflexivity.
Qed.

End LockFacts.




(** ** The URL parser (url-parser.ts over the platform's [URL]) *)

Section UrlFacts.

Import Js URL.

#[local] Arguments is_char : simpl never.
#[local] Arguments is_scheme_char : simpl never.
#[local] Arguments is_alpha : simpl never.
#[local] Arguments to_lower : simpl never.

Lemma chars_str (l : list ascii) : chars (str l) = l.
Proof. apply list_ascii_of_string_of_list_ascii. Qed.

Lemma str_chars (s : string) : str (chars s) = s.
Proof. apply string_of_list_ascii_of_string. Qed.

Lemma chars_append (s t : string) :
  chars (s ++ t)%string = chars s ++ chars t.
Proof.
  induction s as [|c s IH]; simpl; [reflexivity|].
  unfold chars in *. simpl. now rewrite IH.
Qed.

Lemma strip_trailing_colon_snoc (l : list ascii) :
  strip_trailing_colon_chars (l ++ [":"%char]) = l.
Proof.
  induction l as [|c l IH]; [reflexivity|].
  simpl. rewrite IH. destruct l; reflexivity.
Qed.

(** The [replace] of [parseDeepLink] removes the colon of [protocol] and
    nothing else. *)
Lemma protocol_stripped (u : URL.t) :
  strip_trailing_colon (URL.protocol u) = URL.scheme u.
Proof.
  unfold strip_trailing_colon, URL.protocol.
  rewrite chars_append. change (chars ":") with [":"%char].
  now rewrite strip_trailing_colon_snoc, str_chars.
Qed.

(** A fact about one character is checked on the 256 characters. *)
Ltac each_character c :=
  destruct c as [[] [] [] [] [] [] [] []]; vm_compute;
  try congruence; try (intros; split; congruence).

Lemma to_lower_scheme_char (c : ascii) :
  is_scheme_char c = true -> is_lower_scheme_char (to_lower c) = true.
Proof. each_character c. Qed.

Lemma lower_scheme_char_fixed (c : ascii) :
  is_lower_scheme_char c = true -> to_lower c = c /\ is_char ":" c = false.
Proof. each_character c. Qed.

Lemma colon_not_scheme_char (c : ascii) :
  is_char ":" c = true -> is_scheme_char c = false.
Proof. each_character c. Qed.

Lemma alpha_scheme_char (c : ascii) :
  is_alpha c = true -> is_scheme_char c = true.
Proof. each_character c. Qed.

Lemma scheme_state_lower (rest buffer s r : list ascii) :
  scheme_state buffer rest = Some (s, r) ->
  forallb is_lower_scheme_char buffer = true ->
  forallb is_lower_scheme_char s = true.
Proof.
  revert buffer. induction rest as [|c rest IH]; intros buffer; simpl;
    [discriminate|].
  destruct (is_scheme_char c) eqn:Hc.
  - intros Hs Hb. apply (IH _ Hs).
    rewrite forallb_app, Hb. simpl.
    now rewrite (to_lower_scheme_char _ Hc).
  - destruct (is_char ":" c); [|discriminate].
    intros Hs Hb. now inversion Hs; subst.
Qed.

Lemma scheme_start_lower (input s r : list ascii) :
  scheme_start_state input = Some (s, r) ->
  forallb is_lower_scheme_char s = true.
Proof.
  destruct input as [|c rest]; simpl; [discriminate|].
  destruct (is_alpha c) eqn:Hc; [|discriminate].
  intros Hs. apply (scheme_state_lower _ _ _ _ Hs). simpl.
  now rewrite (to_lower_scheme_char _ (alpha_scheme_char _ Hc)).
Qed.

Lemma scheme_state_none (rest buffer : list ascii) :
  scheme_rest rest = false -> scheme_state buffer rest = None.
Proof.
  revert buffer. induction rest as [|c rest IH]; intros buffer; simpl;
    [reflexivity|].
  destruct (is_char ":" c) eqn:Hcolon; [discriminate|].
  destruct (is_scheme_char c); simpl; [|reflexivity].
  intros Hr. now apply IH.
Qed.

Lemma scheme_state_some (rest buffer : list ascii) :
  scheme_rest rest = true -> scheme_state buffer rest <> None.
Proof.
  revert buffer. induction rest as [|c rest IH]; intros buffer; simpl;
    [discriminate|].
  destruct (is_char ":" c) eqn:Hcolon.
  - rewrite (colon_not_scheme_char _ Hcolon). discriminate.
  - destruct (is_scheme_char c); simpl; [|discriminate].
    intros Hr. now apply IH.
Qed.

(** [has_scheme] tells exactly when the parser leaves its scheme states
    with a scheme. *)
Lemma has_scheme_iff (input : string) :
  has_scheme input = true
  <-> scheme_start_state (preprocess (chars input)) <> None.
Proof.
  unfold has_scheme. destruct (preprocess (chars input)) as [|c rest]; simpl.
  - split; [discriminate|congruence].
  - destruct (is_alpha c); simpl; [|split; [discriminate|congruence]].
    destruct (scheme_rest rest) eqn:Hr.
    + split; [intros _; now apply scheme_state_some|reflexivity].
    + rewrite (scheme_state_none _ _ Hr). split; [discriminate|congruence].
Qed.

Context `{HostEnvironment}.

(** Without a scheme there is no URL: the parser stops in its no scheme
    state, whatever the host environment. *)
Lemma new_needs_scheme (input : string) :
  has_scheme input = false -> URL.new input = None.
Proof.
  unfold has_scheme, URL.new.
  destruct (preprocess (chars input)) as [|c rest]; [reflexivity|].
  simpl. destruct (is_alpha c); simpl; [|reflexivity].
  intros Hr. now rewrite (scheme_state_none _ _ Hr).
Qed.

Lemma new_scheme_lower (input : string) (u : URL.t) :
  URL.new input = Some u ->
  forallb is_lower_scheme_char (chars (URL.scheme u)) = true.
Proof.
  unfold URL.new.
  destruct (scheme_start_state (preprocess (chars input)))
    as [[buffer rest]|] eqn:Hs; [|discriminate].
  pose proof (scheme_start_lower _ _ _ Hs) as Hlow.
  destruct (if is_special_scheme (str buffer)
            then special_scheme_state (str buffer) rest
            else non_special_state rest); simpl; [|discriminate].
  intros Hu. inversion Hu; subst. simpl. now rewrite chars_str.
Qed.

Lemma lower_scheme_fixed (l : list ascii) :
  forallb is_lower_scheme_char l = true ->
  map to_lower l = l /\ ~ In ":"%char l.
Proof.
  induction l as [|c l IH]; simpl; [auto|].
  intros Hl. apply andb_prop in Hl. destruct Hl as [Hc Hl].
  destruct (lower_scheme_char_fixed _ Hc) as [Hfix Hcolon].
  destruct (IH Hl) as [IH1 IH2]. split; [now rewrite Hfix, IH1|].
  intros [Heq|Hin]; [|auto]. subst c. discriminate.
Qed.

(** Decoding undoes the percent-encoding of a byte. *)
Lemma percent_decode_encoded (c : ascii) (rest : list ascii) :
  percent_decode (percent_encode_byte c ++ rest) = c :: percent_decode rest.
Proof.
  destruct c as [[] [] [] [] [] [] [] []]; reflexivity.
Qed.

Lemma percent_decode_encode_all (l : list ascii) :
  percent_decode (percent_encode_all (fun _ => true) l) = l.
Proof.
  induction l as [|c l IH]; [reflexivity|].
  unfold percent_encode_all in *. cbn [flat_map]. unfold percent_encode at 1.
  now rewrite percent_decode_encoded, IH.
Qed.

End UrlFacts.

(** ** The scheme of a link and the configured schemes *)

Section SchemeFacts.

Import Js URL Notions.

#[local] Arguments is_char : simpl never.
#[local] Arguments is_scheme_char : simpl never.
#[local] Arguments is_alpha : simpl never.
#[local] Arguments is_lower_alpha : simpl never.
#[local] Arguments is_lower_scheme_char : simpl never.
#[local] Arguments is_c0_control_or_space : simpl never.
#[local] Arguments is_tab_or_newline : simpl never.
#[local] Arguments to_lower : simpl never.

Ltac every_character c :=
  destruct c as [[] [] [] [] [] [] [] []]; vm_compute;
  try congruence; try (intros; repeat split; congruence).

Lemma alpha_lowered (c : ascii) :
  is_alpha c = true -> is_lower_alpha (to_lower c) = true.
Proof. every_character c. Qed.

Lemma lower_alpha_facts (c : ascii) :
  is_lower_alpha c = true ->
  is_alpha c = true /\ is_lower_scheme_char c = true.
Proof. every_character c. Qed.

Lemma lower_scheme_char_facts (c : ascii) :
  is_lower_scheme_char c = true ->
  is_scheme_char c = true /\ to_lower c = c
  /\ is_c0_control_or_space c = false /\ is_tab_or_newline c = false.
Proof. every_character c. Qed.

(** The scheme state only adds to its buffer. *)
Lemma scheme_state_extends (rest buffer s r : list ascii) :
  scheme_state buffer rest = Some (s, r) ->
  exists s', s = buffer ++ s' /\ forallb is_lower_scheme_char s' = true.
Proof.
  revert buffer. induction rest as [|c rest IH]; intros buffer; simpl;
    [discriminate|].
  destruct (is_scheme_char c) eqn:Hc.
  - intros Hs. destruct (IH _ Hs) as (s' & -> & Hlow).
    exists (to_lower c :: s'). rewrite <- app_assoc. split; [reflexivity|].
    simpl. now rewrite (to_lower_scheme_char _ Hc).
  - destruct (is_char ":" c); [|discriminate].
    intros Hs. inversion Hs; subst. exists []. now rewrite app_nil_r.
Qed.

(** The scheme of a URL record is a scheme in lower case. *)
Lemma new_is_scheme `{HostEnvironment} (input : string) (u : URL.t) :
  URL.new input = Some u -> is_scheme (URL.scheme u) = true.
Proof.
  unfold URL.new.
  destruct (scheme_start_state (preprocess (chars input)))
    as [[buffer rest]|] eqn:Hs; [|discriminate].
  destruct (if is_special_scheme (str buffer)
            then special_scheme_state (str buffer) rest
            else non_special_state rest) as [found|]; simpl; [|discriminate].
  intros Hu. inversion Hu; subst. simpl. unfold is_scheme. rewrite chars_str.
  unfold scheme_start_state in Hs.
  destruct (preprocess (chars input)) as [|c input']; [discriminate|].
  destruct (is_alpha c) eqn:Hc; [|discriminate].
  destruct (scheme_state_extends _ _ _ _ Hs) as (s' & -> & Hlow).
  simpl. now rewrite (alpha_lowered _ Hc), Hlow.
Qed.

Lemma starts_with_chars_app (p s : list ascii) :
  starts_with_chars p s = true -> exists r, s = p ++ r.
Proof.
  revert s. induction p as [|a p IH]; intros s; simpl.
  - intros _. now exists s.
  - destruct s as [|b s]; [discriminate|].
    intros Hs. apply andb_prop in Hs. destruct Hs as [Hab Hs].
    apply Ascii.eqb_eq in Hab. subst b.
    destruct (IH _ Hs) as (r & ->). now exists r.
Qed.

Lemma drop_leading_app (f : ascii -> bool) (a q : list ascii) :
  q <> [] -> forallb (fun c => negb (f c)) q = true ->
  exists x, drop_leading f (a ++ q) = x ++ q.
Proof.
  intros Hq Hall. induction a as [|d a IH]; simpl.
  - exists []. destruct q as [|c q]; [contradiction|].
    simpl in *. apply andb_prop in Hall. destruct Hall as [Hc _].
    apply negb_true_iff in Hc. now rewrite Hc.
  - destruct (f d); [exact IH|]. now exists (d :: a).
Qed.

(** Preprocessing keeps a prefix whose characters it does not discard. *)
Lemma preprocess_prefix (p s : list ascii) :
  p <> [] ->
  forallb (fun c => negb (is_c0_control_or_space c)) p = true ->
  forallb (fun c => negb (is_tab_or_newline c)) p = true ->
  exists s', preprocess (p ++ s) = p ++ s'.
Proof.
  intros Hp Hspace Htab. unfold preprocess, trim.
  assert (Hfront : drop_leading is_c0_control_or_space (p ++ s) = p ++ s).
  { destruct p as [|c p]; [contradiction|]. simpl in *.
    apply andb_prop in Hspace. destruct Hspace as [Hc _].
    apply negb_true_iff in Hc. now rewrite Hc. }
  rewrite Hfront, rev_app_distr.
  destruct (drop_leading_app is_c0_control_or_space (rev s) (rev p))
    as (x & ->).
  - intros Hnil. apply (f_equal (@rev ascii)) in Hnil.
    rewrite rev_involutive in Hnil. contradiction.
  - rewrite forallb_forall in *. intros c Hc. apply Hspace.
    now apply in_rev.
  - rewrite rev_app_distr, rev_involutive, List.filter_app.
    exists (List.filter (fun c => negb (is_tab_or_newline c)) (rev x)).
    f_equal. clear -Htab. induction p as [|c p IH]; [reflexivity|].
    simpl in *. apply andb_prop in Htab. destruct Htab as [Hc Hp].
    rewrite Hc. f_equal. now apply IH.
Qed.

(** The scheme state reads a scheme in lower case up to its colon. *)
Lemma scheme_state_reads (l buffer r : list ascii) :
  forallb is_lower_scheme_char l = true ->
  scheme_state buffer (l ++ ":"%char :: r) = Some (buffer ++ l, r).
Proof.
  revert buffer. induction l as [|c l IH]; intros buffer Hl; simpl.
  - now rewrite app_nil_r.
  - simpl in Hl. apply andb_prop in Hl. destruct Hl as [Hc Hl].
    destruct (lower_scheme_char_facts _ Hc) as (Hs & Hfix & _).
    rewrite Hs, Hfix, IH by exact Hl. now rewrite <- app_assoc.
Qed.

(** A string that starts with [<p>://], for a scheme [p] in lower case,
    is read by the parser as having the scheme [p]. *)
Lemma scheme_of_link (p arg : string) :
  is_scheme p = true ->
  startsWith arg (p ++ "://") = true ->
  exists rest,
    scheme_start_state (preprocess (chars arg)) = Some (chars p, rest).
Proof.
  unfold is_scheme, startsWith. rewrite chars_append.
  change (chars "://") with [":"; "/"; "/"]%char.
  destruct (chars p) as [|c l] eqn:Hp; [discriminate|].
  intros Hscheme Hstarts. apply andb_prop in Hscheme.
  destruct Hscheme as [Hc Hl].
  destruct (starts_with_chars_app _ _ Hstarts) as (r & ->).
  destruct (lower_alpha_facts _ Hc) as [Halpha Hlow].
  assert (Hall : forallb is_lower_scheme_char (c :: l) = true)
    by (simpl; now rewrite Hlow, Hl).
  destruct (preprocess_prefix ((c :: l) ++ [":"; "/"; "/"]%char) r)
    as (s' & ->).
  - discriminate.
  - rewrite forallb_app. apply andb_true_intro. split; [|reflexivity].
    rewrite forallb_forall in *. intros x Hx.
    now destruct (lower_scheme_char_facts _ (Hall x Hx)) as (_ & _ & -> & _).
  - rewrite forallb_app. apply andb_true_intro. split; [|reflexivity].
    rewrite forallb_forall in *. intros x Hx.
    now destruct (lower_scheme_char_facts _ (Hall x Hx)) as (_ & _ & _ & ->).
  - rewrite <- !app_assoc. cbn [app scheme_start_state]. rewrite Halpha.
    destruct (lower_scheme_char_facts _ Hlow) as (_ & -> & _).
    rewrite (scheme_state_reads l [c] _ Hl). eauto.
Qed.

End SchemeFacts.

(** ** The query of a link *)

Section QueryFacts.

Import Js URL Notions QueryNotions.

#[local] Arguments is_char : simpl never.
#[local] Arguments is_c0_control_or_space : simpl never.
#[local] Arguments is_tab_or_newline : simpl never.
#[local] Arguments is_forbidden_host_code_point : simpl never.
#[local] Arguments query_set : simpl never.
#[local] Arguments is_host_char : simpl never.

Ltac all_characters c :=
  destruct c as [[] [] [] [] [] [] [] []]; vm_compute;
  try congruence; try (intros; repeat split; congruence).

Lemma escape_char_facts (c : ascii) :
  is_escape_char c = true ->
  is_char "&" c = false /\ is_char "=" c = false /\ is_char "+" c = false
  /\ is_char "#" c = false /\ query_set c = false
  /\ is_c0_control_or_space c = false.
Proof. all_characters c. Qed.

Lemma encoded_byte_chars (b : ascii) :
  forallb is_escape_char (percent_encode_byte b) = true.
Proof. destruct b as [[] [] [] [] [] [] [] []]; reflexivity. Qed.

Lemma escaped_chars (bytes : list ascii) :
  forallb is_escape_char (escaped bytes) = true.
Proof.
  induction bytes as [|b bytes IH]; [reflexivity|].
  unfold escaped, percent_encode_all in *. cbn [flat_map].
  unfold percent_encode at 1. now rewrite forallb_app, encoded_byte_chars, IH.
Qed.

Lemma host_char_facts (c : ascii) :
  is_host_char c = true ->
  is_forbidden_host_code_point c = false
  /\ is_c0_control_or_space c = false
  /\ is_char "@" c = false /\ is_char ":" c = false
  /\ is_char "[" c = false /\ is_char "]" c = false
  /\ ends_authority c = false.
Proof. all_characters c. Qed.

Lemma space_or_control (c : ascii) :
  is_c0_control_or_space c = false -> is_tab_or_newline c = false.
Proof. all_characters c. Qed.

Lemma forallb_weaken {A} (f g : A -> bool) (l : list A) :
  (forall x, f x = true -> g x = true) ->
  forallb f l = true -> forallb g l = true.
Proof.
  intros Hfg. induction l as [|x l IH]; [reflexivity|].
  simpl. intros Hl. apply andb_prop in Hl. destruct Hl as [Hx Hl].
  now rewrite (Hfg _ Hx), IH.
Qed.

Lemma kept_of_negb (b : bool) : b = false -> negb b = true.
Proof. now intros ->. Qed.

(** *** Preprocessing *)

Lemma preprocess_clean (l : list ascii) :
  forallb (fun c => negb (is_c0_control_or_space c)) l = true ->
  preprocess l = l.
Proof.
  intros Hall.
  assert (Hdrop : forall k,
             forallb (fun c => negb (is_c0_control_or_space c)) k = true ->
             drop_leading is_c0_control_or_space k = k).
  { intros [|c k]; [reflexivity|]. simpl. intros Hk.
    apply andb_prop in Hk. destruct Hk as [Hc _].
    apply negb_true_iff in Hc. now rewrite Hc. }
  unfold preprocess, trim. rewrite (Hdrop l Hall), Hdrop, rev_involutive.
  - induction l as [|c l IH]; [reflexivity|].
    simpl in Hall. apply andb_prop in Hall. destruct Hall as [Hc Hl].
    apply negb_true_iff in Hc. simpl.
    rewrite (space_or_control _ Hc). simpl. now rewrite IH.
  - rewrite forallb_forall in *. intros c Hc. apply Hall. now apply in_rev.
Qed.

(** *** The states between the scheme and the query *)

Lemma authority_state_plain (h : list ascii) :
  forall (buffer rest : list ascii),
    forallb is_host_char h = true ->
    authority_state false false [] [] buffer (h ++ "?"%char :: rest)
    = Some ([], [], buffer ++ h ++ "?"%char :: rest).
Proof.
  induction h as [|c h IH]; intros buffer rest Hh.
  - reflexivity.
  - simpl in Hh. apply andb_prop in Hh. destruct Hh as [Hc Hh].
    destruct (host_char_facts _ Hc) as (_ & _ & Hat & _ & _ & _ & Hend).
    cbn [app authority_state]. rewrite Hat, Hend, IH by exact Hh.
    now rewrite <- app_assoc.
Qed.

Lemma host_parser_plain `{HostEnvironment} (input : list ascii) :
  forallb is_host_char input = true ->
  host_parser input = Some (str (percent_encode_all c0_control_set input)).
Proof.
  intros Hall.
  assert (Hopaque : opaque_host_parser input
                    = Some (percent_encode_all c0_control_set input)).
  { unfold opaque_host_parser.
    assert (Hnone : existsb is_forbidden_host_code_point input = false).
    { clear -Hall. induction input as [|c input IH]; [reflexivity|].
      simpl in *. apply andb_prop in Hall. destruct Hall as [Hc Hall].
      destruct (host_char_facts _ Hc) as (-> & _). now rewrite IH. }
    now rewrite Hnone. }
  unfold host_parser. rewrite Hopaque.
  destruct input as [|c input]; [reflexivity|].
  simpl in Hall. apply andb_prop in Hall. destruct Hall as [Hc _].
  destruct c as [[] [] [] [] [] [] [] []]; try reflexivity.
  vm_compute in Hc. discriminate.
Qed.

Lemma host_state_plain `{HostEnvironment} (h : list ascii) :
  forall (buffer rest : list ascii),
    forallb is_host_char buffer = true ->
    forallb is_host_char h = true ->
    host_state false buffer (h ++ "?"%char :: rest)
    = Some (str (percent_encode_all c0_control_set (buffer ++ h)), None,
            "?"%char :: rest).
Proof.
  induction h as [|c h IH]; intros buffer rest Hb Hh.
  - cbn [app host_state]. rewrite app_nil_r.
    change (is_char ":" "?" && negb false) with false.
    change (ends_authority "?") with true. cbv iota.
    now rewrite (host_parser_plain _ Hb).
  - simpl in Hh. apply andb_prop in Hh. destruct Hh as [Hc Hh].
    destruct (host_char_facts _ Hc) as (_ & _ & _ & Hcolon & Hopen & Hclose & Hend).
    cbn [app host_state]. rewrite Hcolon, Hend, Hopen, Hclose. cbn [andb].
    rewrite IH; [now rewrite <- app_assoc| |exact Hh].
    rewrite forallb_app, Hb. simpl. now rewrite Hc.
Qed.

(** *** The query *)

Lemma percent_encode_all_outside (set : ascii -> bool) (l : list ascii) :
  forallb (fun c => negb (set c)) l = true -> percent_encode_all set l = l.
Proof.
  induction l as [|c l IH]; [reflexivity|].
  simpl. intros Hl. apply andb_prop in Hl. destruct Hl as [Hc Hl].
  apply negb_true_iff in Hc. unfold percent_encode_all in *. cbn [flat_map].
  unfold percent_encode at 1. rewrite Hc. simpl. now rewrite IH.
Qed.

Lemma break_at_absent (sep : ascii) (l : list ascii) :
  forallb (fun c => negb (is_char sep c)) l = true ->
  break_at sep l = (l, None).
Proof.
  induction l as [|c l IH]; [reflexivity|].
  simpl. intros Hl. apply andb_prop in Hl. destruct Hl as [Hc Hl].
  apply negb_true_iff in Hc. now rewrite Hc, IH.
Qed.

Lemma break_at_first (sep : ascii) (a b : list ascii) :
  forallb (fun c => negb (is_char sep c)) a = true ->
  break_at sep (a ++ sep :: b) = (a, Some b).
Proof.
  induction a as [|c a IH]; simpl.
  - intros _. unfold is_char. now rewrite Ascii.eqb_refl.
  - intros Ha. apply andb_prop in Ha. destruct Ha as [Hc Ha].
    apply negb_true_iff in Hc. now rewrite Hc, IH.
Qed.

Lemma split_on_absent (sep : ascii) (a : list ascii) :
  forallb (fun c => negb (is_char sep c)) a = true -> split_on sep a = [a].
Proof.
  induction a as [|c a IH]; [reflexivity|].
  simpl. intros Ha. apply andb_prop in Ha. destruct Ha as [Hc Ha].
  apply negb_true_iff in Hc. now rewrite Hc, IH.
Qed.

Lemma split_on_first (sep : ascii) (a b : list ascii) :
  forallb (fun c => negb (is_char sep c)) a = true ->
  split_on sep (a ++ sep :: b) = a :: split_on sep b.
Proof.
  induction a as [|c a IH]; simpl.
  - intros _. unfold is_char. now rewrite Ascii.eqb_refl.
  - intros Ha. apply andb_prop in Ha. destruct Ha as [Hc Ha].
    apply negb_true_iff in Hc. now rewrite Hc, IH.
Qed.

Lemma query_char_facts (c : ascii) :
  is_query_char c = true ->
  is_char "#" c = false /\ query_set c = false
  /\ is_c0_control_or_space c = false.
Proof. all_characters c. Qed.

Lemma escape_is_query_char (c : ascii) :
  is_escape_char c = true -> is_query_char c = true.
Proof. unfold is_query_char. now intros ->. Qed.

Lemma escaped_pair_chars (item : list ascii * list ascii) :
  forallb is_query_char (escaped_pair item) = true
  /\ forallb (fun c => negb (is_char "&" c)) (escaped_pair item) = true.
Proof.
  unfold escaped_pair.
  pose proof (escaped_chars (fst item)) as Hn.
  pose proof (escaped_chars (snd item)) as Hv.
  rewrite forallb_forall in Hn, Hv. split.
  - rewrite forallb_forall. intros c Hc. apply in_app_iff in Hc.
    destruct Hc as [Hc|[<-|Hc]]; [|reflexivity|];
      now apply escape_is_query_char; auto.
  - rewrite forallb_forall. intros c Hc. apply in_app_iff in Hc.
    destruct Hc as [Hc|[<-|Hc]]; [|reflexivity|].
    + destruct (escape_char_facts _ (Hn _ Hc)) as (-> & _). reflexivity.
    + destruct (escape_char_facts _ (Hv _ Hc)) as (-> & _). reflexivity.
Qed.

Lemma query_of_chars (pairs : list (list ascii * list ascii)) :
  forallb is_query_char (query_of pairs) = true.
Proof.
  induction pairs as [|item [|next rest] IH]; [reflexivity| |].
  - apply escaped_pair_chars.
  - cbn [query_of] in *. rewrite forallb_app.
    rewrite (proj1 (escaped_pair_chars item)). simpl. exact IH.
Qed.

(** The sequences of a written query are the written pairs. *)
Lemma sequences_of_query (pairs : list (list ascii * list ascii)) :
  List.filter (fun sequence => negb (is_nil sequence))
              (split_on "&" (query_of pairs))
  = map escaped_pair pairs.
Proof.
  assert (Hfull : forall item, is_nil (escaped_pair item) = false).
  { intros item. unfold escaped_pair. now destruct (escaped (fst item)). }
  induction pairs as [|item [|next rest] IH]; [reflexivity| |].
  - cbn [query_of map].
    rewrite (split_on_absent _ _ (proj2 (escaped_pair_chars item))).
    simpl. now rewrite Hfull.
  - cbn [query_of map] in *.
    rewrite (split_on_first _ _ _ (proj2 (escaped_pair_chars item))).
    cbn [List.filter]. rewrite Hfull. simpl. now rewrite IH.
Qed.

Lemma urlencoded_decode_escaped (bytes : list ascii) :
  urlencoded_decode (escaped bytes) = text_of bytes.
Proof.
  unfold urlencoded_decode, text_of.
  assert (Hplus : plus_to_space (escaped bytes) = escaped bytes).
  { pose proof (escaped_chars bytes) as Hall. unfold plus_to_space.
    induction (escaped bytes) as [|c l IH]; [reflexivity|].
    simpl in *. apply andb_prop in Hall. destruct Hall as [Hc Hl].
    destruct (escape_char_facts _ Hc) as (_ & _ & -> & _). now rewrite IH. }
  rewrite Hplus. unfold escaped. now rewrite percent_decode_encode_all.
Qed.

(** Parsing undoes the writing of a query. *)
Lemma urlencoded_parse_query (pairs : list (list ascii * list ascii)) :
  urlencoded_parse (query_of pairs)
  = map (fun item => (text_of (fst item), text_of (snd item))) pairs.
Proof.
  unfold urlencoded_parse, raw_pairs. rewrite sequences_of_query, !map_map.
  apply map_ext. intros item. unfold raw_pair, escaped_pair.
  rewrite break_at_first.
  - simpl. now rewrite !urlencoded_decode_escaped.
  - pose proof (escaped_chars (fst item)) as Hall.
    rewrite forallb_forall in *. intros c Hc.
    now destruct (escape_char_facts _ (Hall _ Hc)) as (_ & -> & _).
Qed.

(** ASCII text is its own UTF-8 reading. *)
Lemma text_of_ascii (bytes : list ascii) :
  forallb is_ascii bytes = true -> text_of bytes = str bytes.
Proof.
  intros Hall. unfold text_of, utf8_decode_without_bom. f_equal.
  induction bytes as [|b bytes IH]; [reflexivity|].
  simpl in Hall. apply andb_prop in Hall. destruct Hall as [Hb Hall].
  cbn [utf8_decode_from].
  assert (Hstep : utf8_step utf8_idle b = ([b], utf8_idle)).
  { unfold utf8_step, utf8_lead. cbn [needed utf8_idle].
    unfold is_ascii in Hb. now rewrite Hb. }
  rewrite Hstep. simpl. now rewrite IH.
Qed.

(** *** From the link to its parameters *)

Context `{HostEnvironment}.

Lemma new_link_with_query (p : string) (host : list ascii)
      (pairs : list (list ascii * list ascii)) :
  is_scheme p = true ->
  is_special_scheme p = false ->
  forallb is_host_char host = true ->
  option_map searchParams (URL.new (link_with_query p host pairs))
  = Some (map (fun item => (text_of (fst item), text_of (snd item))) pairs).
Proof.
  intros Hp Hspecial Hhost. unfold URL.new, link_with_query.
  rewrite chars_str.
  assert (Hclean : forallb (fun c => negb (is_c0_control_or_space c))
                           (chars p ++ chars "://" ++ host
                              ++ "?"%char :: query_of pairs) = true).
  { unfold is_scheme in Hp. destruct (chars p) as [|c l]; [discriminate|].
    apply andb_prop in Hp. destruct Hp as [Hc Hl].
    destruct (lower_alpha_facts _ Hc) as [_ Hlow].
    assert (Hall : forallb is_lower_scheme_char (c :: l) = true)
      by (simpl; now rewrite Hlow, Hl).
    rewrite !forallb_app.
    rewrite (forallb_weaken _ _ (c :: l)
               (fun x Hx => kept_of_negb _
                              (proj1 (proj2 (proj2 (lower_scheme_char_facts x Hx)))))
               Hall).
    rewrite (forallb_weaken _ _ host
               (fun x Hx => kept_of_negb _
                              (proj1 (proj2 (host_char_facts x Hx))))
               Hhost).
    change (forallb (fun c0 => negb (is_c0_control_or_space c0))
                    ("?"%char :: query_of pairs))
      with (forallb (fun c0 => negb (is_c0_control_or_space c0))
                    (query_of pairs)).
    rewrite (forallb_weaken _ _ (query_of pairs)
               (fun x Hx => kept_of_negb _
                              (proj2 (proj2 (query_char_facts x Hx))))
               (query_of_chars pairs)).
    reflexivity. }
  rewrite (preprocess_clean _ Hclean).
  assert (Hscheme : scheme_start_state
                      (chars p ++ chars "://" ++ host
                         ++ "?"%char :: query_of pairs)
                    = Some (chars p,
                            "/"%char :: "/"%char :: host
                              ++ "?"%char :: query_of pairs)).
  { unfold is_scheme in Hp. destruct (chars p) as [|c l]; [discriminate|].
    apply andb_prop in Hp. destruct Hp as [Hc Hl].
    destruct (lower_alpha_facts _ Hc) as [Halpha Hlow].
    change (chars "://") with [":"; "/"; "/"]%char.
    cbn [app scheme_start_state]. rewrite Halpha.
    destruct (lower_scheme_char_facts _ Hlow) as (_ & -> & _).
    now rewrite (scheme_state_reads l [c] _ Hl). }
  rewrite Hscheme, str_chars, Hspecial.
  cbn [non_special_state].
  rewrite (authority_state_plain host [] _ Hhost).
  cbn [app]. rewrite (host_state_plain host [] _ eq_refl Hhost).
  cbn [app path_start_state].
  change (ends_path "?") with true. cbv iota.
  unfold with_path, query_and_fragment.
  change (is_char "?" "?") with true. cbv iota.
  pose proof (query_of_chars pairs) as Hq.
  rewrite break_at_absent.
  - cbn [option_map]. unfold searchParams. cbn [query parts].
    unfold encode. rewrite percent_encode_all_outside.
    + now rewrite chars_str, urlencoded_parse_query.
    + rewrite forallb_forall in *. intros x Hx.
      now destruct (query_char_facts _ (Hq x Hx)) as (_ & -> & _).
  - rewrite forallb_forall in *. intros x Hx.
    now destruct (query_char_facts _ (Hq x Hx)) as (-> & _).
Qed.

(** A string with a scheme that is not special parses, unless two slashes
    follow the colon: only an authority can be refused. *)
Lemma non_special_without_authority (rest : list ascii) :
  starts_with_chars ["/"; "/"]%char rest = false ->
  non_special_state rest <> None.
Proof.
  assert (Hpath : forall l, (let '(segments, rest2) := path_state [] [] l in
                             Some (with_path "" "" None None
                                             (ListPath segments) rest2))
                            <> None).
  { intros l. now destruct (path_state [] [] l). }
  assert (Hopaque : forall l, (let '(path, rest1) := opaque_path_state [] l in
                               Some (with_path "" "" None None
                                               (OpaquePath (str path)) rest1))
                              <> None).
  { intros l. now destruct (opaque_path_state [] l). }
  destruct rest as [|c1 rest]; [intros _; apply (Hopaque [])|].
  destruct (Ascii.eqb_spec c1 "/") as [->|Hc1].
  - destruct rest as [|c2 rest]; [intros _; apply (Hpath [])|].
    destruct c2 as [[] [] [] [] [] [] [] []];
      try (intros _; apply (Hpath (_ :: rest))).
    discriminate.
  - intros _. destruct c1 as [[] [] [] [] [] [] [] []];
      try apply (Hopaque (_ :: rest)).
    now contradiction Hc1.
Qed.

End QueryFacts.




(** A value with a space, an ampersand and an equals sign, written with
    every byte as a percent escape, comes back as it was. *)
Example escaped_value_is_decoded :
  let raw :=
    QueryNotions.link_with_query
      "myapp" (Js.chars "open") [(Js.chars "q", Js.chars "a b&c=d")] in
  raw = "myapp://open?%71=%61%20%62%26%63%3D%64"
  /\ option_map Types.params
                (@UrlParser.parseDeepLink Samples.custom_schemes_only raw)
     = Some [("q", "a b&c=d")].
Proof. vm_compute. auto. Qed.

(** The link of that lemma, computed. *)
Example mixed_case_link_is_normalised :
  option_map Samples.observed
    (@UrlParser.parseDeepLink Samples.custom_schemes_only
       "MyApp://Open/Doc?q=hello%20world&tag=a+b")
  = Some ("myapp", "Open", "/Doc", [("q", "hello world"); ("tag", "a b")], "").
Proof. vm_compute. reflexivity. Qed.

(** ** The dispatch pipeline (deep-links.ts) *)

Section ManagerFacts.

Import Types Electron UrlParser DeepLinks.
Import Queue (QueuedDeepLink, q_url, q_intent).

Context `{URL.HostEnvironment}.
Variable options : SetupOptions.
Variable protocols : list string.

Lemma invocations_app (t1 t2 : list Event) :
  invocations (t1 ++ t2) = invocations t1 ++ invocations t2.
Proof. unfold invocations. apply flat_map_app. Qed.

Lemma rejections_app (t1 t2 : list Event) :
  rejections (t1 ++ t2) = rejections t1 ++ rejections t2.
Proof. unfold rejections. apply flat_map_app. Qed.

Lemma invocations_logged (l : list LogEntry) : invocations (logged l) = [].
Proof. induction l; simpl; auto. Qed.

Lemma rejections_logged (l : list LogEntry) : rejections (logged l) = [].
Proof. induction l; simpl; auto. Qed.

Lemma extend_extend (m : Manager) (t1 t2 : list Event) :
  extend (extend m t1) t2 = extend m (t1 ++ t2).
Proof. unfold extend. simpl. now rewrite app_assoc. Qed.

(** *** URLs that are not accepted *)

Lemma includes_In (l : list string) (x : string) :
  Js.includes l x = true <-> In x l.
Proof.
  unfold Js.includes. rewrite existsb_exists. split.
  - intros (y & Hy & Heq). apply String.eqb_eq in Heq. now subst.
  - intros Hx. exists x. split; [exact Hx|apply String.eqb_refl].
Qed.

Lemma context_of_parsed (url : string) (intent : DeepLinkIntent) :
  createDeepLinkContext url intent
  = option_map
      (fun parsed =>
         {| ctx_url := Types.url parsed; ctx_parsed := Types.parsed parsed;
            ctx_protocol := Types.protocol parsed; ctx_path := Types.path parsed;
            ctx_params := Types.params parsed; ctx_intent := intent |})
      (parseDeepLink url).
Proof. unfold createDeepLinkContext. now destruct (parseDeepLink url). Qed.

(** [isRegisteredProtocol] is the test [handleDeepLink] makes. *)
Lemma registered_cases (url : string) (intent : DeepLinkIntent) :
  isRegisteredProtocol url protocols
  = match createDeepLinkContext url intent with
    | Some context => Js.includes protocols (ctx_protocol context)
    | None => false
    end.
Proof.
  unfold isRegisteredProtocol. rewrite context_of_parsed.
  now destruct (parseDeepLink url).
Qed.

Lemma not_registered_cases (url : string) :
  isRegisteredProtocol url protocols = false
  <-> (parseDeepLink url = None
       \/ exists parsed, parseDeepLink url = Some parsed
                         /\ ~ In (Types.protocol parsed) protocols).
Proof.
  unfold isRegisteredProtocol. destruct (parseDeepLink url) as [parsed|].
  - split.
    + intros Hin. right. exists parsed. split; [reflexivity|].
      rewrite <- includes_In. congruence.
    + intros [Hnone|(parsed' & Heq & Hnot)]; [discriminate|].
      inversion Heq; subst. rewrite <- includes_In in Hnot.
      now destruct (Js.includes protocols (protocol parsed')).
  - split; auto.
Qed.

(** A link that does not parse, or whose scheme is not in the list, is
    logged and dropped. *)
Lemma handle_dropped (url : string) (intent : DeepLinkIntent) (m : Manager) :
  isRegisteredProtocol url protocols = false ->
  exists l, handleDeepLink options protocols url intent m
            = (Normal tt, extend m (logged l)).
Proof.
  rewrite (registered_cases url intent).
  unfold handleDeepLink, bind, log, emit, extend.
  destruct (createDeepLinkContext url intent) as [context|]; simpl.
  - intros Hin. rewrite Hin. simpl. eexists [_; _]. simpl.
    now rewrite <- app_assoc.
  - intros _. eexists [_; _]. simpl. now rewrite <- app_assoc.
Qed.

End ManagerFacts.

(** C4. A URL that fails to parse, and a URL whose scheme is not in the
    protocol list, is dropped by [handleDeepLink]: the call returns
    normally, the consumer callback is not invoked and the queue (entries
    and processed flag) is unchanged.  In particular [other://x] with the
    protocol list [myapp]. *)
Theorem C4_rejected_links_are_dropped :
  forall (E : URL.HostEnvironment) (options : Types.SetupOptions)
         (protocols : list string) (url : string)
         (intent : Types.DeepLinkIntent) (m : DeepLinks.Manager),
    ((UrlParser.parseDeepLink url = None
      \/ exists parsed, UrlParser.parseDeepLink url = Some parsed
                        /\ ~ In (Types.protocol parsed) protocols) ->
     DeepLinks.drops m (DeepLinks.handleDeepLink options protocols url intent m))
    /\ DeepLinks.drops
         m (DeepLinks.handleDeepLink options ["myapp"] "other://x" Types.launch m).
Proof.
  intros E options protocols url intent m.
  assert (Hdrop : forall ps u i,
             UrlParser.isRegisteredProtocol u ps = false ->
             DeepLinks.drops m (DeepLinks.handleDeepLink options ps u i m)).
  { intros ps u i Hu.
    destruct (handle_dropped options ps u i m Hu) as [l Hl].
    rewrite Hl. unfold DeepLinks.drops, DeepLinks.extend. simpl.
    rewrite invocations_app, rejections_app.
    rewrite invocations_logged, rejections_logged, !app_nil_r. auto. }
  split.
  - intros Hu. apply Hdrop. now apply not_registered_cases.
  - apply Hdrop. vm_compute. reflexivity.
Qed.

Lemma C4_rejected_links_are_dropped_witness :
  let m := DeepLinks.fresh_manager in
  DeepLinks.drops
    m (@DeepLinks.handleDeepLink Samples.custom_schemes_only
         (Samples.options_for ["myapp"] None) ["myapp"] "not a url"
         Types.launch m).
Proof.
  apply (proj1 (C4_rejected_links_are_dropped
                  Samples.custom_schemes_only
                  (Samples.options_for ["myapp"] None) ["myapp"] "not a url"
                  Types.launch DeepLinks.fresh_manager)).
  left. vm_compute. reflexivity.
Defined.

Section DispatchFacts.

Import Types Electron UrlParser DeepLinks.
Import Queue (QueuedDeepLink, q_url, q_intent).

Context `{URL.HostEnvironment}.
Variable options : SetupOptions.
Variable protocols : list string.

Lemma dispatch_with_handler (handler : DeepLinkHandler) (url : string)
      (context : DeepLinkContext) (m : Manager) :
  onDeepLink options = Some handler ->
  let r := handler (invocations (trace m)) url context in
  dispatchDeepLink options url context m
  = (started_by r, extend m (dispatch_events url context r)).
Proof.
  intros Hh r. unfold dispatchDeepLink, dispatchBody, try_catch, bind, log,
    emit, invoke, dispatchError, ret. simpl. rewrite Hh. simpl.
  rewrite invocations_app. simpl. rewrite app_nil_r. fold r.
  unfold extend, dispatch_events, dispatching, dispatch_failed.
  destruct r as [|[text|raised]| |e|]; simpl; rewrite <- ?app_assoc;
    reflexivity.
Qed.

Lemma dispatch_without_handler (url : string) (context : DeepLinkContext)
      (m : Manager) :
  onDeepLink options = None ->
  dispatchDeepLink options url context m
  = (Settled (Normal tt),
     extend m [dispatching url;
               Logged (debug, "No handler for deep link: " ++ url)%string]).
Proof.
  intros Hh. unfold dispatchDeepLink, dispatchBody, try_catch, bind, log,
    emit, ret. simpl. rewrite Hh. simpl.
  unfold extend, dispatching. now rewrite <- app_assoc.
Qed.

(** The call of [dispatchDeepLink] invokes the callback once, when there
    is one.  Its promise is rejected at the call only when the callback
    threw a value that [String] cannot convert. *)
Lemma dispatch_started (url : string) (context : DeepLinkContext)
      (m : Manager) :
  exists st t,
    dispatchDeepLink options url context m = (st, extend m t)
    /\ rejections t = []
    /\ invocations t
       = match onDeepLink options with
         | Some _ => [(url, context)]
         | None => []
         end
    /\ (fails_printably options ->
        match st with
        | Settled c => c = Normal tt
        | AwaitingHandler r => converts r = true
        end).
Proof.
  destruct (onDeepLink options) as [handler|] eqn:Hh.
  - rewrite (dispatch_with_handler handler) by exact Hh.
    eexists _, _. split; [reflexivity|].
    assert (Hr : fails_printably options ->
                 converts (handler (invocations (trace m)) url context) = true).
    { intros Hpolite. now apply Hpolite. }
    destruct (handler (invocations (trace m)) url context)
      as [|[text|raised]| |e|]; simpl; repeat split; auto.
    intros Hpolite. specialize (Hr Hpolite). discriminate.
  - rewrite dispatch_without_handler by exact Hh.
    eexists _, _. split; [reflexivity|]. simpl. auto.
Qed.

(** When [dispatchDeepLink] resumes it only writes to the log; a rejected
    callback promise is caught there, unless [String] cannot convert what
    it was rejected with. *)
Lemma dispatchResume_normal (url : string) (r : HandlerResult) (m : Manager) :
  exists c l,
    dispatchResume url r m = (c, extend m (logged l))
    /\ (converts r = true -> c = Normal tt).
Proof.
  unfold dispatchResume, try_catch, dispatchError, log, emit, ret, throw, extend.
  destruct m as [q t tasks].
  destruct r as [|e| |[text|raised]|]; simpl;
    try (exists (Normal tt), []; simpl; now rewrite app_nil_r).
  - eexists (Normal tt), [_]. split; reflexivity.
  - exists (Throw raised), []. simpl. rewrite app_nil_r.
    split; [reflexivity|discriminate].
Qed.

End DispatchFacts.

Section PipelineFacts.

Import Types Electron UrlParser DeepLinks.
Import Queue (QueuedDeepLink, q_url, q_intent).

Context `{URL.HostEnvironment}.
Variable options : SetupOptions.
Variable protocols : list string.

Lemma grows_trans (m1 m2 m3 : Manager) (t1 t2 : list Event)
      (k1 k2 : list Task) :
  grows m1 m2 t1 k1 -> grows m2 m3 t2 k2 -> grows m1 m3 (t1 ++ t2) (k1 ++ k2).
Proof.
  intros (-> & Hr1 & Hk1) (-> & Hr2 & Hk2). repeat split; simpl.
  - now rewrite !app_assoc.
  - now rewrite rejections_app, Hr1, Hr2.
  - apply Forall_app. auto.
Qed.

Lemma grows_extend (m : Manager) (t : list Event) :
  rejections t = [] -> grows m (extend m t) t [].
Proof.
  intros Ht. repeat split; [|exact Ht|constructor].
  unfold extend. now rewrite app_nil_r.
Qed.

Lemma grows_safe (m m' : Manager) (t : list Event) (tasks : list Task) :
  grows m m' t tasks ->
  queue m' = queue m
  /\ rejections (trace m') = rejections (trace m)
  /\ invocations (trace m') = invocations (trace m) ++ invocations t
  /\ (tasks_ok m -> tasks_ok m').
Proof.
  intros (-> & Hr & Hk). simpl.
  rewrite rejections_app, invocations_app, Hr, app_nil_r.
  repeat split. unfold tasks_ok. simpl. intros Hm. apply Forall_app. auto.
Qed.

Lemma void_dispatch_grows (url : string) (context : DeepLinkContext)
      (m : Manager) :
  exists t tasks,
    void_dispatch options url context m
    = (Normal tt, {| queue := queue m; trace := trace m ++ t;
                     suspended := suspended m ++ tasks |})
    /\ invocations t
       = match onDeepLink options with
         | Some _ => [(url, context)]
         | None => []
         end
    /\ (fails_printably options -> rejections t = [] /\ Forall task_ok tasks).
Proof.
  unfold void_dispatch.
  destruct (dispatch_started options url context m) as (st & t & -> & Hr & Hi & Hst).
  destruct st as [[[]|e]|r].
  - exists t, []. unfold settle, extend. simpl. rewrite app_nil_r. auto.
  - exists (t ++ [UnhandledRejection e]), []. unfold settle, extend, emit.
    simpl. rewrite app_nil_r, app_assoc, invocations_app. simpl.
    rewrite app_nil_r. split; [reflexivity|]. split; [exact Hi|].
    intros Hpolite. specialize (Hst Hpolite). discriminate.
  - exists t, [AwaitHandler url r Detached]. unfold suspend, extend. simpl.
    split; [reflexivity|]. split; [exact Hi|].
    intros Hpolite. split; [exact Hr|]. repeat constructor. simpl. auto.
Qed.

(** An accepted link is appended while the queue is open. *)
Lemma handle_queued (url : string) (intent : DeepLinkIntent) (m : Manager) :
  isRegisteredProtocol url protocols = true ->
  Queue.isProcessed (queue m) = false ->
  exists l,
    handleDeepLink options protocols url intent m
    = (Normal tt,
       {| queue := {| Queue.queue :=
                        Queue.queue (queue m)
                          ++ [{| q_url := url; q_intent := intent |}];
                      Queue.processed := false |};
          trace := trace m ++ logged l;
          suspended := suspended m |}).
Proof.
  rewrite (registered_cases protocols url intent).
  unfold handleDeepLink, bind, log, emit, isProcessed, on_queue, Queue.isProcessed.
  destruct (createDeepLinkContext url intent) as [context|]; [|discriminate].
  intros Hin Hp. simpl. rewrite Hin. simpl. rewrite Hp. simpl.
  unfold Queue.enqueue. simpl. rewrite Hp. simpl.
  eexists [_; _; _]. simpl. now rewrite <- !app_assoc.
Qed.

(** An accepted link is dispatched at once when the queue is processed. *)
Lemma handle_immediate (url : string) (intent : DeepLinkIntent) (m : Manager) :
  isRegisteredProtocol url protocols = true ->
  Queue.isProcessed (queue m) = true ->
  exists context,
    createDeepLinkContext url intent = Some context
    /\ handleDeepLink options protocols url intent m
       = void_dispatch options url context (extend m [received url intent]).
Proof.
  rewrite (registered_cases protocols url intent).
  unfold handleDeepLink, bind, log, emit, isProcessed, Queue.isProcessed.
  destruct (createDeepLinkContext url intent) as [context|]; [|discriminate].
  intros Hin Hp. exists context. split; [reflexivity|].
  simpl. rewrite Hin. simpl. rewrite Hp. reflexivity.
Qed.

Lemma context_intent (url : string) (intent : DeepLinkIntent)
      (context : DeepLinkContext) :
  createDeepLinkContext url intent = Some context ->
  ctx_intent context = intent /\ ctx_url context = url.
Proof.
  unfold createDeepLinkContext, parseDeepLink.
  destruct (URL.new url); [|discriminate].
  intros Hc. inversion Hc. simpl. auto.
Qed.

End PipelineFacts.

Lemma registered_iff `{URL.HostEnvironment} (url : string)
      (protocols : list string) :
  UrlParser.isRegisteredProtocol url protocols = true
  <-> exists parsed, UrlParser.parseDeepLink url = Some parsed
                     /\ In (Types.protocol parsed) protocols.
Proof.
  unfold UrlParser.isRegisteredProtocol.
  destruct (UrlParser.parseDeepLink url) as [parsed|].
  - rewrite includes_In. split.
    + intros Hin. now exists parsed.
    + intros (parsed' & Heq & Hin). now inversion Heq; subst.
  - split; [discriminate|]. intros (parsed & Heq & _). discriminate.
Qed.

Section LoopFacts.

Import Types Electron UrlParser DeepLinks.
Import Queue (QueuedDeepLink, q_url, q_intent).

Context `{URL.HostEnvironment}.
Variable options : SetupOptions.
Variable protocols : list string.

Lemma grows_refl (m : Manager) : grows m m [] [].
Proof.
  destruct m. unfold grows. simpl. rewrite !app_nil_r. auto.
Qed.

(** The loop only adds events and suspended computations, and leaves no
    rejection unhandled by itself. *)
Lemma loopFrom_grows (rest : list QueuedDeepLink) (m : Manager) :
  exists t tasks,
    loopFrom options rest m
    = {| queue := queue m; trace := trace m ++ t;
         suspended := suspended m ++ tasks |}
    /\ rejections t = []
    /\ (fails_printably options -> Forall task_ok tasks).
Proof.
  revert m. induction rest as [|entry rest IH]; intros m; simpl.
  - exists [], []. destruct m. simpl. rewrite !app_nil_r. auto.
  - destruct (createDeepLinkContext (q_url entry) (q_intent entry))
      as [context|]; [|apply IH].
    destruct (dispatch_started options (q_url entry) context m)
      as (st & t & -> & Hr & _ & Hst).
    destruct st as [c|r]; simpl.
    + exists t, [AwaitDispatch c rest].
      unfold extend. simpl. repeat split; auto.
      intros Hpolite. rewrite (Hst Hpolite). repeat constructor.
    + exists t, [AwaitHandler (q_url entry) r (Loop rest)].
      unfold extend. simpl. repeat split; auto.
      intros Hpolite. repeat constructor. simpl. auto.
Qed.

Lemma processPending_grows (m : Manager) :
  exists t tasks,
    fst (processPending options m) = Normal tt
    /\ snd (processPending options m)
       = {| queue := snd (fst (Queue.drain (queue m)));
            trace := trace m ++ t;
            suspended := suspended m ++ tasks |}
    /\ rejections t = []
    /\ (fails_printably options -> Forall task_ok tasks).
Proof.
  unfold processPending, bind, on_queue, log, emit.
  destruct (Queue.drain (queue m)) as [[pending q'] l] eqn:Hd. simpl.
  destruct (length pending =? 0); simpl.
  - eexists (logged l ++ [_]), []. rewrite app_nil_r, <- app_assoc.
    split; [reflexivity|]. split; [reflexivity|]. split; [|constructor].
    now rewrite rejections_app, rejections_logged.
  - match goal with
    | |- context [loopFrom options pending ?m0] =>
        destruct (loopFrom_grows pending m0) as (t & tasks & -> & Hr & Hk)
    end.
    simpl. eexists (logged l ++ [_] ++ t), tasks. rewrite <- !app_assoc.
    split; [reflexivity|]. split; [reflexivity|]. split; [|exact Hk].
    now rewrite !rejections_app, rejections_logged, Hr.
Qed.

(** [handleDeepLink] returns normally whatever the callback does; and
    when the callback fails only with values that [String] converts, no
    rejection is left unhandled. *)
Lemma handle_grows (url : string) (intent : DeepLinkIntent) (m : Manager) :
  fst (handleDeepLink options protocols url intent m) = Normal tt
  /\ (fails_printably options ->
      rejections (trace (snd (handleDeepLink options protocols url intent m)))
      = rejections (trace m)
      /\ (tasks_ok m ->
          tasks_ok (snd (handleDeepLink options protocols url intent m)))).
Proof.
  destruct (isRegisteredProtocol url protocols) eqn:Hreg.
  - destruct (Queue.isProcessed (queue m)) eqn:Hp.
    + destruct (handle_immediate options protocols url intent m Hreg Hp)
        as (context & _ & ->).
      destruct (void_dispatch_grows options url context
                  (extend m [received url intent]))
        as (t & tasks & -> & _ & Hsafe).
      simpl. split; [reflexivity|]. intros Hpolite.
      destruct (Hsafe Hpolite) as [Hr Hk].
      rewrite !rejections_app, Hr. simpl. rewrite !app_nil_r.
      repeat split. unfold tasks_ok. simpl. intros Hm. apply Forall_app. auto.
    + destruct (handle_queued options protocols url intent m Hreg Hp)
        as (l & ->).
      simpl. rewrite rejections_app, rejections_logged, app_nil_r. auto.
  - destruct (handle_dropped options protocols url intent m Hreg) as (l & ->).
    unfold extend. simpl.
    rewrite rejections_app, rejections_logged, app_nil_r. auto.
Qed.

End LoopFacts.

(** C1. A URL that parses and whose scheme is in the protocol list is
    routed on the processed flag of the queue.  While the flag is false the
    entry (url, intent) is appended and the consumer callback is not
    invoked.  Once it is true, which [processPending] makes it, the callback
    is invoked with the URL and a context that carries the intent, and the
    queue is left as it was. *)
Theorem C1_handleDeepLink_routes_on_processed :
  forall (E : URL.HostEnvironment) (options : Types.SetupOptions)
         (protocols : list string) (url : string)
         (intent : Types.DeepLinkIntent) (m : DeepLinks.Manager),
    ((exists parsed, UrlParser.parseDeepLink url = Some parsed
                     /\ In (Types.protocol parsed) protocols) ->
     let '(c, m') := DeepLinks.handleDeepLink options protocols url intent m in
     c = DeepLinks.Normal tt
     /\ if Queue.isProcessed (DeepLinks.queue m) then
          DeepLinks.queue m' = DeepLinks.queue m
          /\ exists context,
               UrlParser.createDeepLinkContext url intent = Some context
               /\ Types.ctx_intent context = intent
               /\ Electron.invocations (DeepLinks.trace m')
                  = Electron.invocations (DeepLinks.trace m)
                      ++ match Types.onDeepLink options with
                         | Some _ => [(url, context)]
                         | None => []
                         end
        else
          Queue.peek (DeepLinks.queue m')
          = Queue.peek (DeepLinks.queue m)
              ++ [{| Queue.q_url := url; Queue.q_intent := intent |}]
          /\ Queue.isProcessed (DeepLinks.queue m') = false
          /\ Electron.invocations (DeepLinks.trace m')
             = Electron.invocations (DeepLinks.trace m))
    /\ Queue.isProcessed
         (DeepLinks.queue (snd (DeepLinks.processPending options m))) = true.
Proof.
  intros E options protocols url intent m. split.
  - intros Hreg. apply registered_iff in Hreg.
    destruct (Queue.isProcessed (DeepLinks.queue m)) eqn:Hp.
    + destruct (handle_immediate options protocols url intent m Hreg Hp)
        as (context & Hctx & ->).
      destruct (void_dispatch_grows options url context
                  (DeepLinks.extend m [DeepLinks.received url intent]))
        as (t & tasks & -> & Hi & _).
      simpl. repeat split. exists context.
      destruct (context_intent url intent context Hctx) as [Hint _].
      repeat split; auto.
      rewrite !invocations_app, Hi. simpl. now rewrite app_nil_r.
    + destruct (handle_queued options protocols url intent m Hreg Hp)
        as (l & ->).
      simpl. repeat split.
      now rewrite invocations_app, invocations_logged, app_nil_r.
  - destruct (processPending_grows options m) as (t & tasks & _ & -> & _).
    simpl. unfold Queue.drain.
    now destruct (Queue.processed (DeepLinks.queue m)) eqn:Hp.
Qed.

Lemma C1_handleDeepLink_routes_on_processed_witness :
  let E := Samples.custom_schemes_only in
  let options := Samples.options_for ["myapp"] (Some Samples.quiet_handler) in
  let m := snd (DeepLinks.processPending options DeepLinks.fresh_manager) in
  let '(c, m') :=
    DeepLinks.handleDeepLink options ["myapp"] "myapp://open" Types.open_url m in
  c = DeepLinks.Normal tt
  /\ if Queue.isProcessed (DeepLinks.queue m) then
       DeepLinks.queue m' = DeepLinks.queue m
       /\ exists context,
            UrlParser.createDeepLinkContext "myapp://open" Types.open_url
            = Some context
            /\ Types.ctx_intent context = Types.open_url
            /\ Electron.invocations (DeepLinks.trace m')
               = Electron.invocations (DeepLinks.trace m)
                   ++ match Types.onDeepLink options with
                      | Some _ => [("myapp://open", context)]
                      | None => []
                      end
     else
       Queue.peek (DeepLinks.queue m')
       = Queue.peek (DeepLinks.queue m)
           ++ [{| Queue.q_url := "myapp://open"; Queue.q_intent := Types.open_url |}]
       /\ Queue.isProcessed (DeepLinks.queue m') = false
       /\ Electron.invocations (DeepLinks.trace m')
          = Electron.invocations (DeepLinks.trace m).
Proof.
  intros E options m.
  apply (proj1 (C1_handleDeepLink_routes_on_processed
                  E options ["myapp"] "myapp://open" Types.open_url m)).
  apply registered_iff. vm_compute. reflexivity.
Defined.

Section SafetyFacts.

Import Types Electron UrlParser DeepLinks.
Import Queue (QueuedDeepLink, q_url, q_intent).

Context `{URL.HostEnvironment}.
Variable options : SetupOptions.
Variable protocols : list string.

(** The callback fails only with values that [String] converts. *)
Hypothesis polite : fails_printably options.

Lemma keeps_refl (m : Manager) : keeps m m.
Proof. split; auto. Qed.

Lemma keeps_trans (m1 m2 m3 : Manager) :
  keeps m1 m2 -> keeps m2 m3 -> keeps m1 m3.
Proof. intros [H1 K1] [H2 K2]. split; [congruence|auto]. Qed.

Lemma grows_keeps (m m' : Manager) (t : list Event) (tasks : list Task) :
  grows m m' t tasks -> keeps m m'.
Proof. intros Hg. apply grows_safe in Hg. unfold keeps. tauto. Qed.

Lemma loopFrom_keeps (rest : list QueuedDeepLink) (m : Manager) :
  keeps m (loopFrom options rest m).
Proof.
  destruct (loopFrom_grows options rest m) as (t & tasks & Hm & Hr & Hk).
  apply (grows_keeps _ _ t tasks). repeat split; auto.
Qed.

Lemma settle_keeps (k : Continuation) (m : Manager) :
  keeps m (settle options (Normal tt) k m).
Proof.
  destruct k as [|rest]; simpl; [apply keeps_refl|apply loopFrom_keeps].
Qed.

Lemma settled_keeps (k : Continuation) (m : Manager) :
  keeps m (settled options (Normal tt) k m).
Proof.
  destruct k as [|rest]; simpl; [apply keeps_refl|].
  split; [reflexivity|]. unfold tasks_ok. simpl. intros Hm.
  apply Forall_app. split; [exact Hm|repeat constructor].
Qed.

(** Resuming a suspended computation leaves no rejection unhandled. *)
Lemma resume_keeps (i : nat) (m m' : Manager) :
  tasks_ok m -> resume options protocols i m = Some m' -> keeps m m'.
Proof.
  intros Hok. unfold resume.
  destruct (suspended m !! i) as [task|] eqn:Hi; [|discriminate].
  pose proof (Forall_lookup_1 _ _ _ _ Hok Hi) as Htask.
  set (m0 := {| queue := queue m; trace := trace m;
                suspended := delete i (suspended m) |}).
  assert (H0 : keeps m m0).
  { split; [reflexivity|]. intros _. unfold tasks_ok, m0. simpl.
    now apply Forall_delete. }
  destruct task as [url r k|c rest|url intent].
  - assert (Hres : (let '(c, m1) := dispatchResume url r m0 in
                    Some (settled options c k m1)) = Some m' -> keeps m m').
    { destruct (dispatchResume_normal url r m0) as (c & l & -> & Hc).
      simpl in Htask. rewrite (Hc Htask).
      intros Heq. injection Heq as <-.
      apply (keeps_trans _ _ _ H0).
      eapply keeps_trans; [|apply settled_keeps].
      apply (grows_keeps _ _ (logged l) []), grows_extend, rejections_logged. }
    destruct r; try discriminate; exact Hres.
  - simpl in Htask. destruct c as [[]|e]; [|contradiction].
    intros Heq. injection Heq as <-.
    apply (keeps_trans _ _ _ H0). exact (settle_keeps (Loop rest) m0).
  - unfold try_catch.
    pose proof (handle_grows options protocols url intent m0) as (Hc & Hsafe).
    destruct (Hsafe polite) as [Hr Hk].
    destruct (handleDeepLink options protocols url intent m0) as [c m1].
    simpl in Hc, Hr, Hk. subst c. simpl.
    intros Heq. injection Heq as <-.
    apply (keeps_trans _ _ _ H0). split; assumption.
Qed.

(** Every action returns normally and leaves no rejection unhandled. *)
Lemma perform_keeps (a : Action) (m : Manager) :
  tasks_ok m ->
  fst (perform options protocols a m) = Normal tt
  /\ keeps m (snd (perform options protocols a m)).
Proof.
  intros Hok. destruct a as [url intent| |url intent| |i]; simpl.
  - pose proof (handle_grows options protocols url intent m) as (Hc & Hsafe).
    destruct (Hsafe polite) as [Hr Hk].
    split; [exact Hc|split; assumption].
  - destruct (processPending_grows options m) as (t & tasks & Hc & Hm & Hr & Hk).
    split; [exact Hc|]. rewrite Hm. split; simpl.
    + now rewrite rejections_app, Hr, app_nil_r.
    + unfold tasks_ok. simpl. intros Hm0. apply Forall_app. auto.
  - unfold queueDeepLink, bind, isProcessed, log, emit, suspend.
    destruct (Queue.isProcessed (queue m)); simpl.
    + split; [reflexivity|]. split; simpl.
      * now rewrite rejections_app, app_nil_r.
      * unfold tasks_ok. simpl. intros Hm0. apply Forall_app.
        split; [exact Hm0|repeat constructor].
    + pose proof (handle_grows options protocols url (default open_url intent) m)
        as (Hc & Hsafe).
      destruct (Hsafe polite) as [Hr Hk].
      split; [exact Hc|split; assumption].
  - unfold clearPending, on_queue. simpl. split; [reflexivity|].
    split; simpl; [|auto]. now rewrite rejections_app, app_nil_r.
  - split; [reflexivity|].
    destruct (resume options protocols i m) as [m'|] eqn:Hres; simpl.
    + now apply (resume_keeps i).
    + apply keeps_refl.
Qed.

Lemma perform_all_keeps (actions : list Action) (m : Manager) :
  tasks_ok m ->
  tasks_ok (perform_all options protocols actions m)
  /\ rejections (trace (perform_all options protocols actions m))
     = rejections (trace m).
Proof.
  revert m. induction actions as [|a actions IH]; intros m Hok; simpl;
    [auto|].
  destruct (perform_keeps a m Hok) as (_ & Hr & Hk).
  destruct (IH _ (Hk Hok)) as (Hok' & Hr'). split; [exact Hok'|congruence].
Qed.

End SafetyFacts.

Section DrainFacts.

Import Types Electron UrlParser DeepLinks.
Import Queue (QueuedDeepLink, q_url, q_intent).

Context `{URL.HostEnvironment}.
Variable options : SetupOptions.
Variable protocols : list string.
Variable handler : DeepLinkHandler.
Hypothesis configured : onDeepLink options = Some handler.
Hypothesis settles :
  forall history url context, handler history url context <> NeverSettles.
Hypothesis printably :
  forall history url context, converts (handler history url context) = true.

Lemma run_idle (fuel : nat) (m : Manager) :
  suspended m = [] -> run options protocols fuel m = m.
Proof.
  intros Hs. destruct fuel as [|fuel]; [reflexivity|].
  simpl. now rewrite Hs.
Qed.

Lemma run_step (fuel : nat) (m m' : Manager) :
  oldest_ready (suspended m) = Some 0 ->
  resume options protocols 0 m = Some m' ->
  run options protocols (S fuel) m = run options protocols fuel m'.
Proof. intros Hready Hres. simpl. now rewrite Hready, Hres. Qed.

(** The job of the loop after an [await] that did not throw. *)
Lemma resume_await_dispatch (rest : list QueuedDeepLink)
      (q : Queue.DeepLinkQueue) (t : list Event) :
  resume options protocols 0
         {| queue := q; trace := t;
            suspended := [AwaitDispatch (Normal tt) rest] |}
  = Some (loopFrom options rest {| queue := q; trace := t; suspended := [] |}).
Proof. reflexivity. Qed.

(** The job of [dispatchDeepLink] after its [await]: it writes to the log
    at most, and queues the job of the loop. *)
Lemma resume_await_handler (url : string) (r : HandlerResult)
      (rest : list QueuedDeepLink) (q : Queue.DeepLinkQueue) (t : list Event) :
  r <> NeverSettles ->
  converts r = true ->
  exists l,
    resume options protocols 0
           {| queue := q; trace := t;
              suspended := [AwaitHandler url r (Loop rest)] |}
    = Some {| queue := q; trace := t ++ logged l;
              suspended := [AwaitDispatch (Normal tt) rest] |}.
Proof.
  intros Hr Hc. unfold resume. simpl.
  destruct (dispatchResume_normal
              url r {| queue := q; trace := t; suspended := [] |})
    as (c & l & Hl & Hnormal).
  exists l. rewrite (Hnormal Hc) in Hl.
  destruct r; try congruence; now rewrite Hl.
Qed.

(** One turn of the loop: the entry is dispatched, and after two jobs at
    most the loop is at the next entry with nothing suspended, however the
    callback failed. *)
Lemma loop_turn (entry : QueuedDeepLink) (rest : list QueuedDeepLink)
      (context : DeepLinkContext) (fuel : nat)
      (q : Queue.DeepLinkQueue) (t : list Event) :
  createDeepLinkContext (q_url entry) (q_intent entry) = Some context ->
  exists t' fuel',
    (fuel' = fuel \/ fuel' = S fuel)
    /\ run options protocols (S (S fuel))
           (loopFrom options (entry :: rest)
                     {| queue := q; trace := t; suspended := [] |})
       = run options protocols fuel'
             (loopFrom options rest
                       {| queue := q; trace := t'; suspended := [] |})
    /\ invocations t' = invocations t ++ [(q_url entry, context)].
Proof.
  intros Hctx. cbn [loopFrom]. rewrite Hctx.
  rewrite (dispatch_with_handler options handler) by exact configured.
  cbn [trace].
  pose proof (settles (invocations t) (q_url entry) context) as Hr.
  pose proof (printably (invocations t) (q_url entry) context) as Hc.
  set (r := handler (invocations t) (q_url entry) context) in *.
  assert (Hevents : invocations (t ++ dispatch_events (q_url entry) context r)
                    = invocations t ++ [(q_url entry, context)]).
  { unfold dispatch_events. rewrite !invocations_app. simpl.
    destruct r as [|e| |e|]; try (destruct (JsString e)); simpl;
      now rewrite ?app_nil_r. }
  assert (Hwait : started_by r = AwaitingHandler r ->
          exists t' fuel',
            (fuel' = fuel \/ fuel' = S fuel)
            /\ run options protocols (S (S fuel))
                   (let (s0, m') :=
                      (started_by r,
                       extend {| queue := q; trace := t; suspended := [] |}
                              (dispatch_events (q_url entry) context r)) in
                    match s0 with
                    | Settled c => snd (suspend (AwaitDispatch c rest) m')
                    | AwaitingHandler r0 =>
                        snd (suspend (AwaitHandler (q_url entry) r0 (Loop rest))
                                     m')
                    end)
               = run options protocols fuel'
                     (loopFrom options rest
                               {| queue := q; trace := t'; suspended := [] |})
            /\ invocations t' = invocations t ++ [(q_url entry, context)]).
  { intros ->. cbn [extend suspend snd queue trace suspended app].
    destruct (resume_await_handler
                (q_url entry) r rest q
                (t ++ dispatch_events (q_url entry) context r) Hr Hc)
      as (l & Hres).
    assert (Hready : oldest_ready [AwaitHandler (q_url entry) r (Loop rest)]
                     = Some 0)
      by (destruct r; try reflexivity; congruence).
    eexists _, fuel. split; [now left|]. split.
    - erewrite run_step; [|exact Hready|exact Hres].
      erewrite run_step; [|reflexivity|apply resume_await_dispatch].
      reflexivity.
    - now rewrite invocations_app, invocations_logged, app_nil_r. }
  destruct r as [|[text|raised]| |e|] eqn:Heq;
    try (apply Hwait; reflexivity); try discriminate; try congruence.
  (* the callback threw, and the [catch] block logged it *)
  cbn [started_by JsString extend suspend snd queue trace suspended app].
  eexists _, (S fuel). split; [now right|]. split.
  - erewrite run_step; [|reflexivity|apply resume_await_dispatch].
    reflexivity.
  - exact Hevents.
Qed.

Lemma dispatched_cons (entry : QueuedDeepLink) (rest : list QueuedDeepLink) :
  dispatched options (entry :: rest)
  = match createDeepLinkContext (q_url entry) (q_intent entry) with
    | Some context => [(q_url entry, context)]
    | None => []
    end ++ dispatched options rest.
Proof. unfold dispatched. simpl. now rewrite configured. Qed.

(** From a manager with nothing suspended, the loop dispatches every entry
    in order when two jobs per entry are run, however the callback fails,
    as long as [String] converts what it fails with. *)
Lemma run_loop (rest : list QueuedDeepLink) :
  forall (fuel : nat) (m : Manager),
    suspended m = [] ->
    2 * length rest <= fuel ->
    let m' := run options protocols fuel (loopFrom options rest m) in
    invocations (trace m') = invocations (trace m) ++ dispatched options rest
    /\ suspended m' = []
    /\ queue m' = queue m.
Proof.
  induction rest as [|entry rest IH]; intros fuel m Hs Hfuel.
  - simpl. rewrite (run_idle _ _ Hs). unfold dispatched. simpl.
    now rewrite app_nil_r.
  - rewrite dispatched_cons.
    destruct (createDeepLinkContext (q_url entry) (q_intent entry))
      as [context|] eqn:Hctx.
    + destruct fuel as [|[|fuel]]; [simpl in Hfuel; lia|simpl in Hfuel; lia|].
      simpl in Hfuel. destruct m as [q t tasks]. simpl in Hs. subst tasks.
      destruct (loop_turn entry rest context fuel q t Hctx)
        as (t' & fuel' & Hfuel' & Hrun & Hi).
      cbv zeta. rewrite Hrun.
      destruct (IH fuel' {| queue := q; trace := t'; suspended := [] |})
        as (Hi' & Hs' & Hq); [reflexivity|lia|].
      simpl in Hi', Hq. simpl. rewrite Hi', Hs', Hq, Hi, <- app_assoc. auto.
    + cbn [loopFrom]. rewrite Hctx. cbn [app].
      apply IH; [exact Hs|simpl in Hfuel; lia].
Qed.

End DrainFacts.

Section ReachFacts.

Import Types Electron UrlParser DeepLinks.
Import Queue (QueuedDeepLink, q_url, q_intent).

Context `{URL.HostEnvironment}.
Variable options : SetupOptions.
Variable protocols : list string.

(** [handleDeepLink] keeps a processed queue, and suspends nothing while
    the queue is open. *)
Lemma handle_flag (url : string) (intent : DeepLinkIntent) (m : Manager) :
  let m' := snd (handleDeepLink options protocols url intent m) in
  (Queue.isProcessed (queue m) = true -> queue m' = queue m)
  /\ (Queue.isProcessed (queue m) = false -> suspended m' = suspended m).
Proof.
  destruct (isRegisteredProtocol url protocols) eqn:Hreg.
  - destruct (Queue.isProcessed (queue m)) eqn:Hp.
    + destruct (handle_immediate options protocols url intent m Hreg Hp)
        as (context & _ & ->).
      destruct (void_dispatch_grows options url context
                  (extend m [received url intent]))
        as (t & tasks & -> & _).
      simpl. split; [reflexivity|discriminate].
    + destruct (handle_queued options protocols url intent m Hreg Hp)
        as (l & ->).
      simpl. split; [discriminate|reflexivity].
  - destruct (handle_dropped options protocols url intent m Hreg) as (l & ->).
    simpl. auto.
Qed.

Lemma handle_open_idle (url : string) (intent : DeepLinkIntent) (m : Manager) :
  open_idle m -> open_idle (snd (handleDeepLink options protocols url intent m)).
Proof.
  intros Hm. destruct (handle_flag url intent m) as [Hq Hs].
  unfold open_idle in *. intros Hp'.
  destruct (Queue.isProcessed (queue m)) eqn:Hp.
  - rewrite (Hq eq_refl), Hp in Hp'. discriminate.
  - rewrite (Hs eq_refl). auto.
Qed.

Lemma resume_open_idle (i : nat) (m m' : Manager) :
  open_idle m -> resume options protocols i m = Some m' -> open_idle m'.
Proof.
  intros Hm. destruct (Queue.isProcessed (queue m)) eqn:Hp.
  - (* the queue is processed, and stays so *)
    unfold resume. destruct (suspended m !! i) as [task|]; [|discriminate].
    set (m0 := {| queue := queue m; trace := trace m;
                  suspended := delete i (suspended m) |}).
    assert (Hkeep : forall c k l, queue (settled options c k
                                                 (extend m0 (logged l)))
                                  = queue m).
    { intros [[]|e] [|rest] l; reflexivity. }
    assert (Hdone : forall m1, queue m1 = queue m -> open_idle m1).
    { intros m1 Hq. unfold open_idle. rewrite Hq, Hp. discriminate. }
    destruct task as [url r k|c rest|url intent].
    + assert (Hres : (let '(c, m1) := dispatchResume url r m0 in
                      Some (settled options c k m1)) = Some m' -> open_idle m').
      { destruct (dispatchResume_normal url r m0) as (c & l & -> & _).
        intros Heq. injection Heq as <-. apply Hdone, Hkeep. }
      destruct r; try discriminate; exact Hres.
    + intros Heq. injection Heq as <-. apply Hdone.
      destruct c as [[]|e]; simpl.
      * destruct (loopFrom_grows options rest m0) as (t & tasks & -> & _).
        reflexivity.
      * reflexivity.
    + unfold try_catch.
      pose proof (handle_grows options protocols url intent m0) as (Hc & _).
      pose proof (handle_flag url intent m0) as [Hq _].
      destruct (handleDeepLink options protocols url intent m0) as [c m1].
      simpl in Hc, Hq. subst c. simpl.
      intros Heq. injection Heq as <-. apply Hdone. apply Hq. exact Hp.
  - (* the queue is open: nothing is suspended, nothing to resume *)
    unfold resume. rewrite (Hm Hp). discriminate.
Qed.

Lemma perform_open_idle (a : Action) (m : Manager) :
  open_idle m -> open_idle (snd (perform options protocols a m)).
Proof.
  intros Hm. destruct a as [url intent| |url intent| |i]; simpl.
  - now apply handle_open_idle.
  - destruct (processPending_grows options m) as (t & tasks & _ & -> & _).
    unfold open_idle, Queue.isProcessed, Queue.drain. simpl.
    destruct (Queue.processed (queue m)) eqn:Hp; simpl; congruence.
  - unfold queueDeepLink, bind, isProcessed, log, emit, suspend.
    destruct (Queue.isProcessed (queue m)) eqn:Hp; simpl.
    + unfold open_idle. simpl. congruence.
    + now apply handle_open_idle.
  - unfold clearPending, on_queue, open_idle in *. simpl. exact Hm.
  - destruct (resume options protocols i m) as [m'|] eqn:Hres; simpl;
      [exact (resume_open_idle i m m' Hm Hres)|exact Hm].
Qed.

Lemma perform_all_open_idle (actions : list Action) (m : Manager) :
  open_idle m -> open_idle (perform_all options protocols actions m).
Proof.
  revert m. induction actions as [|a actions IH]; intros m Hm; simpl;
    [exact Hm|].
  apply IH, perform_open_idle, Hm.
Qed.

Lemma started_ok (t : list Event) :
  open_idle (started t) /\ tasks_ok (started t).
Proof. split; [intros _; reflexivity|constructor]. Qed.

(** *** Only accepted links are in the queue *)

Lemma handle_queued_registered (url : string) (intent : DeepLinkIntent)
      (m : Manager) :
  queued_registered protocols m ->
  queued_registered protocols (snd (handleDeepLink options protocols url intent m)).
Proof.
  intros Hm. destruct (isRegisteredProtocol url protocols) eqn:Hreg.
  - destruct (Queue.isProcessed (queue m)) eqn:Hp.
    + destruct (handle_flag url intent m) as [Hq _]. unfold queued_registered.
      now rewrite (Hq Hp).
    + destruct (handle_queued options protocols url intent m Hreg Hp)
        as (l & ->).
      unfold queued_registered, Queue.peek in *. simpl.
      apply Forall_app. split; [exact Hm|]. repeat constructor. exact Hreg.
  - destruct (handle_dropped options protocols url intent m Hreg) as (l & ->).
    exact Hm.
Qed.

Lemma resume_queued_registered (i : nat) (m m' : Manager) :
  queued_registered protocols m ->
  resume options protocols i m = Some m' ->
  queued_registered protocols m'.
Proof.
  intros Hm. unfold resume.
  destruct (suspended m !! i) as [task|]; [|discriminate].
  set (m0 := {| queue := queue m; trace := trace m;
                suspended := delete i (suspended m) |}).
  assert (Hkeep : forall c k m1,
             queue m1 = queue m -> queue (settle options c k m1) = queue m).
  { intros [[]|e] [|rest] m1 Hq; simpl; try exact Hq.
    destruct (loopFrom_grows options rest m1) as (t & tasks & -> & _).
    exact Hq. }
  assert (Hdone : forall m1, queue m1 = queue m -> queued_registered protocols m1).
  { intros m1 Hq. unfold queued_registered. now rewrite Hq. }
  destruct task as [url r k|c rest|url intent].
  - assert (Hres : (let '(c, m1) := dispatchResume url r m0 in
                    Some (settled options c k m1)) = Some m' ->
                   queued_registered protocols m').
    { destruct (dispatchResume_normal url r m0) as (c & l & -> & _).
      intros Heq. injection Heq as <-. apply Hdone.
      now destruct c as [[]|e]; destruct k as [|rest]. }
    destruct r; try discriminate; exact Hres.
  - intros Heq. injection Heq as <-. apply Hdone.
    exact (Hkeep c (Loop rest) m0 eq_refl).
  - unfold try_catch.
    pose proof (handle_grows options protocols url intent m0) as (Hc & _).
    pose proof (handle_queued_registered url intent m0 Hm) as Hq.
    destruct (handleDeepLink options protocols url intent m0) as [c m1].
    simpl in Hc, Hq. subst c. simpl.
    intros Heq. injection Heq as <-. exact Hq.
Qed.

Lemma perform_queued_registered (a : Action) (m : Manager) :
  queued_registered protocols m ->
  queued_registered protocols (snd (perform options protocols a m)).
Proof.
  intros Hm. destruct a as [url intent| |url intent| |i]; simpl.
  - now apply handle_queued_registered.
  - destruct (processPending_grows options m) as (t & tasks & _ & -> & _).
    unfold queued_registered, Queue.peek, Queue.drain in *. simpl.
    destruct (Queue.processed (queue m)); simpl; [exact Hm|constructor].
  - unfold queueDeepLink, bind, isProcessed, log, emit, suspend.
    destruct (Queue.isProcessed (queue m)); simpl;
      [exact Hm|now apply handle_queued_registered].
  - constructor.
  - destruct (resume options protocols i m) as [m'|] eqn:Hres; simpl;
      [exact (resume_queued_registered i m m' Hm Hres)|exact Hm].
Qed.

Lemma perform_all_queued_registered (actions : list Action) (t : list Event) :
  queued_registered protocols
    (perform_all options protocols actions (started t)).
Proof.
  assert (Hgen : forall m, queued_registered protocols m ->
                   queued_registered protocols
                     (perform_all options protocols actions m)).
  { induction actions as [|a actions IH]; intros m Hm; simpl; [exact Hm|].
    apply IH, perform_queued_registered, Hm. }
  apply Hgen. constructor.
Qed.

(** An accepted link parses again when it is dispatched from the queue. *)
Lemma dispatched_registered (handler : DeepLinkHandler)
      (es : list QueuedDeepLink) :
  onDeepLink options = Some handler ->
  Forall (fun entry => isRegisteredProtocol (q_url entry) protocols = true) es ->
  map fst (dispatched options es) = map q_url es.
Proof.
  intros Hh. induction 1 as [|entry es Hentry _ IH]; [reflexivity|].
  unfold dispatched in *. cbn [flat_map]. rewrite map_app, IH, Hh.
  rewrite (registered_cases protocols (q_url entry) (q_intent entry)) in Hentry.
  destruct (createDeepLinkContext (q_url entry) (q_intent entry));
    [reflexivity|discriminate].
Qed.

End ReachFacts.

(** What [createDeepLinkManager] returns is a manager at its creation, on
    which [handleDeepLink] has run when the launch arguments hold a link. *)
Lemma created_is_started `{URL.HostEnvironment} (env : Electron.Env)
      (options : Types.SetupOptions) (protocols : list string)
      (t0 : list Electron.Event) :
  exists t actions,
    DeepLinks.createDeepLinkManager env options protocols t0
    = DeepLinks.perform_all options protocols actions (DeepLinks.started t).
Proof.
  unfold DeepLinks.createDeepLinkManager.
  destruct (Platforms.extractDeepLinkFromArgs
              (Platforms.getPlatformHandler env) (Electron.argv env) protocols)
    as [[|c launchUrl]|].
  - eexists _, []. reflexivity.
  - eexists _, [DeepLinks.DoHandleDeepLink (String c launchUrl) Types.launch].
    reflexivity.
  - eexists _, []. reflexivity.
Qed.

(** C8. The claim holds as long as [String] converts what the callback
    fails with, and not otherwise.  The [catch] block of [dispatchDeepLink]
    builds its message with [String(error)]; when the callback throws
    [Object.create(null)] on the second of four queued links, that
    conversion throws in its turn, the promise of [dispatchDeepLink] is
    rejected, the [await] of the loop rethrows and the loop is left.  The
    calls still return normally, but the third and the fourth link are
    never dispatched, they are no longer in the queue, and the rejection is
    unhandled. *)
Theorem C8_unconvertible_failure_stops_the_batch :
  let E := Samples.custom_schemes_only in
  let options :=
    Samples.options_for ["myapp"] (Some Samples.unconvertible_failure_handler) in
  let m := Samples.four_queued options in
  let r := DeepLinks.processPending options m in
  let m' := DeepLinks.run options ["myapp"] 8 (snd r) in
  fst r = DeepLinks.Normal tt
  /\ DeepLinks.getPending m
     = ["myapp://first"; "myapp://second"; "myapp://third"; "myapp://fourth"]
  /\ map fst (Electron.invocations (DeepLinks.trace m'))
     = ["myapp://first"; "myapp://second"]
  /\ Electron.rejections (DeepLinks.trace m')
     = [Types.Printable "TypeError: Cannot convert object to primitive value"]
  /\ DeepLinks.suspended m' = []
  /\ DeepLinks.getPending m' = []
  /\ ~ Stated.remaining_entries_are_dispatched options ["myapp"] m.
Proof.
  intros E options m r m'.
  repeat (split; [vm_compute; reflexivity|]).
  intros Hstated. specialize (Hstated 8).
  vm_compute in Hstated. specialize (Hstated (le_n 8)). discriminate.
Qed.



(** The batch of the witness, computed: the second callback throws, the
    third returns a promise that is rejected, and all four links reach the
    callback, in order. *)
Example failing_batch_is_drained :
  let options := Samples.options_for ["myapp"] (Some Samples.failing_handler) in
  let m' :=
    @DeepLinks.run Samples.custom_schemes_only options ["myapp"] 8
      (snd (@DeepLinks.processPending Samples.custom_schemes_only options
              (Samples.four_queued options))) in
  map fst (Electron.invocations (DeepLinks.trace m'))
  = ["myapp://first"; "myapp://second"; "myapp://third"; "myapp://fourth"]
  /\ Electron.rejections (DeepLinks.trace m') = []
  /\ DeepLinks.suspended m' = [].
Proof. vm_compute. auto. Qed.

(** The order of the jobs: [queueDeepLink] is called while the third of
    four links is being dispatched.  Its deferred job runs before the job
    in which the loop goes on, so the new link reaches the callback before
    the fourth. *)
Example deferred_link_runs_before_the_next_entry :
  let options := Samples.options_for ["myapp"] (Some Samples.quiet_handler) in
  let at_third :=
    @DeepLinks.run Samples.custom_schemes_only options ["myapp"] 4
      (snd (@DeepLinks.processPending Samples.custom_schemes_only options
              (Samples.four_queued options))) in
  let requeued :=
    snd (@DeepLinks.queueDeepLink Samples.custom_schemes_only options ["myapp"]
           "myapp://later" None at_third) in
  let m' :=
    @DeepLinks.run Samples.custom_schemes_only options ["myapp"] 8 requeued in
  map fst (Electron.invocations (DeepLinks.trace at_third))
  = ["myapp://first"; "myapp://second"; "myapp://third"]
  /\ map fst (Electron.invocations (DeepLinks.trace m'))
     = ["myapp://first"; "myapp://second"; "myapp://third"; "myapp://later";
        "myapp://fourth"]
  /\ DeepLinks.suspended m' = [].
Proof. vm_compute. auto. Qed.

(** A promise that stays pending holds back the batch it belongs to, and
    nothing else: a link passed to [queueDeepLink] afterwards is still
    dispatched. *)
Example pending_promise_blocks_its_batch_only :
  let options := Samples.options_for ["myapp"] (Some Samples.stalling_handler) in
  let stalled :=
    @DeepLinks.run Samples.custom_schemes_only options ["myapp"] 8
      (snd (@DeepLinks.processPending Samples.custom_schemes_only options
              (Samples.four_queued options))) in
  let m' :=
    @DeepLinks.run Samples.custom_schemes_only options ["myapp"] 8
      (snd (@DeepLinks.queueDeepLink Samples.custom_schemes_only options
              ["myapp"] "myapp://later" None stalled)) in
  map fst (Electron.invocations (DeepLinks.trace stalled)) = ["myapp://first"]
  /\ map fst (Electron.invocations (DeepLinks.trace m'))
     = ["myapp://first"; "myapp://later"]
  /\ length (DeepLinks.suspended m') = 1.
Proof. vm_compute. auto. Qed.

(** ** Protocol registration and setup (protocol-registry.ts, index.ts) *)

Section RegistryFacts.

Import Types Electron Platforms ProtocolRegistry.

(** The loop sorts the schemes by the answer of the platform. *)
Lemma registerLoop_registered (handler : PlatformHandler)
      (options : SetupOptions) (schemes : list string) :
  forall (acc : ProtocolRegistryResult) (t : list Event),
    registered (fst (registerLoop handler options schemes acc t))
    = registered acc
        ++ List.filter (fun s => fst (registerProtocol handler s options)) schemes
    /\ failed (fst (registerLoop handler options schemes acc t))
       = failed acc
           ++ List.filter
                (fun s => negb (fst (registerProtocol handler s options)))
                schemes.
Proof.
  induction schemes as [|scheme rest IH]; intros acc t; simpl.
  - now rewrite !app_nil_r.
  - destruct (registerProtocol handler scheme options) as [success calls].
    simpl. destruct success; simpl.
    + destruct (IH {| registered := registered acc ++ [scheme];
                      failed := failed acc |}
                   ((t ++ [Logged (debug, ("Registering protocol: " ++ scheme)%string)])
                      ++ calls
                      ++ [Logged (info, ("Registered protocol: " ++ scheme)%string)]))
        as [Hr Hf].
      rewrite Hr, Hf. simpl. now rewrite <- app_assoc.
    + destruct (IH {| registered := registered acc;
                      failed := failed acc ++ [scheme] |}
                   ((t ++ [Logged (debug, ("Registering protocol: " ++ scheme)%string)])
                      ++ calls
                      ++ [Logged (error, ("Failed to register protocol: " ++ scheme)%string)]))
        as [Hr Hf].
      rewrite Hr, Hf. simpl. now rewrite <- app_assoc.
Qed.

Lemma registerProtocols_registered (env : Env) (options : SetupOptions) :
  registered (fst (registerProtocols env options))
  = List.filter
      (fun s => fst (registerProtocol (getPlatformHandler env) s options))
      (normalizeProtocols (protocols options)).
Proof.
  unfold registerProtocols.
  now destruct (registerLoop_registered
                  (getPlatformHandler env) options
                  (normalizeProtocols (protocols options))
                  {| registered := []; failed := [] |} []) as [-> _].
Qed.

End RegistryFacts.

(** C10. The list against which [handleDeepLink] tests the scheme is the
    list of the schemes whose registration succeeded: [setupInstance] hands
    [registerProtocols(...).registered] to the deep-link manager.  So a URL
    whose scheme is configured but was refused by the platform is dropped:
    neither queued nor dispatched. *)
Theorem C10_membership_filter_is_registered_schemes :
  forall (E : URL.HostEnvironment) (env : Electron.Env)
         (options : Types.SetupOptions)
         (result : ProtocolRegistry.ProtocolRegistryResult)
         (m0 : DeepLinks.Manager),
    Index.setupInstance env options = Index.Running result m0 ->
    let configured :=
      ProtocolRegistry.normalizeProtocols (Types.protocols options) in
    let succeeded scheme :=
      fst (Platforms.registerProtocol
             (Platforms.getPlatformHandler env) scheme options) in
    ProtocolRegistry.registered result = List.filter succeeded configured
    /\ (exists t0,
           m0 = DeepLinks.createDeepLinkManager
                  env options (ProtocolRegistry.registered result) t0)
    /\ forall (scheme url : string) (intent : Types.DeepLinkIntent)
              (m : DeepLinks.Manager),
         In scheme configured ->
         succeeded scheme = false ->
         option_map Types.protocol (UrlParser.parseDeepLink url) = Some scheme ->
         DeepLinks.drops
           m (DeepLinks.handleDeepLink
                options (ProtocolRegistry.registered result) url intent m).
Proof.
  intros E env options result m0 Hsetup configured succeeded.
  unfold Index.setupInstance in Hsetup.
  destruct (InstanceLock.acquireInstanceLock env options) as [lockResult t1].
  destruct (negb (InstanceLock.hasLock lockResult)); [discriminate|].
  pose proof (registerProtocols_registered env options) as Hreg.
  destruct (ProtocolRegistry.registerProtocols env options) as [protocolResult t2].
  simpl in Hreg. inversion Hsetup; subst; clear Hsetup.
  split; [exact Hreg|]. split; [eexists; reflexivity|].
  intros scheme url intent m Hin Hfail Hurl.
  assert (Hdrop : UrlParser.isRegisteredProtocol
                    url (ProtocolRegistry.registered result) = false).
  { unfold UrlParser.isRegisteredProtocol.
    destruct (UrlParser.parseDeepLink url) as [parsed|]; [|reflexivity].
    simpl in Hurl. inversion Hurl as [Hscheme].
    destruct (Js.includes (ProtocolRegistry.registered result)
                          (Types.protocol parsed)) eqn:Hinc; [|reflexivity].
    apply includes_In in Hinc. rewrite Hreg in Hinc.
    apply filter_In in Hinc. destruct Hinc as [_ Hok].
    unfold succeeded in Hfail. congruence. }
  destruct (handle_dropped options _ url intent m Hdrop) as [l Hl].
  rewrite Hl. unfold DeepLinks.drops, DeepLinks.extend. simpl.
  rewrite invocations_app, rejections_app.
  rewrite invocations_logged, rejections_logged, !app_nil_r. auto.
Qed.

Lemma C10_membership_filter_is_registered_schemes_witness :
  let E := Samples.custom_schemes_only in
  let env := Samples.host_refusing_beta Electron.linux ["app"] in
  let options := Samples.options_for ["myapp"; "beta"] (Some Samples.quiet_handler) in
  let result := fst (ProtocolRegistry.registerProtocols env options) in
  ProtocolRegistry.registered result = ["myapp"]
  /\ DeepLinks.drops
       DeepLinks.fresh_manager
       (DeepLinks.handleDeepLink options (ProtocolRegistry.registered result)
                                 "beta://x" Types.open_url DeepLinks.fresh_manager).
Proof.
  intros E env options result.
  destruct (C10_membership_filter_is_registered_schemes
              E env options result
              (DeepLinks.createDeepLinkManager
                 env options (ProtocolRegistry.registered result)
                 ([Electron.Logged (Types.info, "Setting up electron-launch-handler");
                   Electron.Logged (Types.debug, "Single instance mode enabled")]
                    ++ snd (InstanceLock.acquireInstanceLock env options)
                    ++ snd (ProtocolRegistry.registerProtocols env options))))
    as (Hreg & _ & Hdrop).
  - vm_compute. reflexivity.
  - split; [rewrite Hreg; vm_compute; reflexivity|].
    apply (Hdrop "beta"); [simpl; auto|reflexivity|vm_compute; reflexivity].
Defined.

(** ** The queue on the heap (queue.ts): copies and references *)

Section HeapFacts.

Import QueueHeap.
Import Queue (QueuedDeepLink, q_url, q_intent).

#[local] Arguments alloc_object : simpl never.
#[local] Arguments alloc_array : simpl never.
#[local] Arguments map_copy : simpl never.

Lemma omap_agree {A B} (f g : A -> option B) (l : list A) :
  Forall (fun x => f x = g x) l -> omap f l = omap g l.
Proof.
  induction 1 as [|x l Hx _ IH]; [reflexivity|].
  change (omap f (x :: l))
    with (match f x with Some y => y :: omap f l | None => omap f l end).
  change (omap g (x :: l))
    with (match g x with Some y => y :: omap g l | None => omap g l end).
  now rewrite Hx, IH.
Qed.

Lemma omap_total_length {A B} (f : A -> option B) (l : list A) :
  Forall (fun x => is_Some (f x)) l -> length (omap f l) = length l.
Proof.
  induction 1 as [|x l [y Hy] _ IH]; [reflexivity|].
  change (omap f (x :: l))
    with (match f x with Some y => y :: omap f l | None => omap f l end).
  rewrite Hy. simpl. now rewrite IH.
Qed.

Lemma extends_objects_refl (h : heap) : extends_objects h h.
Proof. repeat split; auto. Qed.

Lemma extends_objects_trans (h1 h2 h3 : heap) :
  extends_objects h1 h2 -> extends_objects h2 h3 -> extends_objects h1 h3.
Proof.
  intros (Ha1 & Hd1 & Ho1) (Ha2 & Hd2 & Ho2). repeat split.
  - congruence.
  - set_solver.
  - intros o Ho. rewrite Ho2 by set_solver. now apply Ho1.
Qed.

Lemma alloc_object_extends (e : QueuedDeepLink) (h : heap) :
  let '(o, h') := alloc_object e h in
  extends_objects h h'
  /\ (o ∉ dom (objects h))
  /\ objects h' !! o = Some e.
Proof.
  unfold alloc_object. simpl.
  pose proof (is_fresh (dom (objects h))) as Hfresh.
  repeat split; simpl.
  - rewrite dom_insert. set_solver.
  - intros o Ho. apply lookup_insert_ne. set_solver.
  - exact Hfresh.
  - apply lookup_insert_eq.
Qed.

(** The copies are new objects with the contents of the originals. *)
Lemma copy_items_spec (items : list loc) :
  forall (h : heap),
    Forall (fun o => o ∈ dom (objects h)) items ->
    let '(os, h') := copy_items items h in
    extends_objects h h'
    /\ Forall (fun o => (o ∉ dom (objects h)) /\ o ∈ dom (objects h')) os
    /\ omap (fun o => objects h' !! o) os = omap (fun o => objects h !! o) items.
Proof.
  induction items as [|item rest IH]; intros h Hall; cbn [copy_items].
  - split; [apply extends_objects_refl|]. split; [constructor|reflexivity].
  - inversion Hall as [|? ? Hitem Hrest]; subst.
    apply elem_of_dom in Hitem. destruct Hitem as [e He]. rewrite He.
    pose proof (alloc_object_extends e h) as Halloc.
    destruct (alloc_object e h) as [o h1].
    destruct Halloc as (Hext1 & Hfresh & Ho).
    assert (Hrest1 : Forall (fun o => o ∈ dom (objects h1)) rest).
    { eapply Forall_impl; [exact Hrest|]. intros x Hx.
      destruct Hext1 as (_ & Hd & _). set_solver. }
    specialize (IH h1 Hrest1).
    destruct (copy_items rest h1) as [os h2].
    destruct IH as (Hext2 & Hos & Hread).
    split; [exact (extends_objects_trans _ _ _ Hext1 Hext2)|]. split.
    + constructor.
      * split; [exact Hfresh|].
        destruct Hext2 as (_ & Hd & _). apply Hd.
        apply elem_of_dom. eauto.
      * eapply Forall_impl; [exact Hos|]. intros x [Hx1 Hx2].
        split; [|exact Hx2]. destruct Hext1 as (_ & Hd & _). set_solver.
    + change (omap (fun o => objects h !! o) (item :: rest))
        with (match objects h !! item with
              | Some y => y :: omap (fun o => objects h !! o) rest
              | None => omap (fun o => objects h !! o) rest
              end).
      change (omap (fun o0 => objects h2 !! o0) (o :: os))
        with (match objects h2 !! o with
              | Some y => y :: omap (fun o0 => objects h2 !! o0) os
              | None => omap (fun o0 => objects h2 !! o0) os
              end).
      destruct Hext2 as (_ & _ & Hsame).
      rewrite Hsame by (apply elem_of_dom; eauto). rewrite Ho, He.
      f_equal. rewrite Hread. apply omap_agree.
      eapply Forall_impl; [exact Hrest|]. intros x Hx. simpl.
      destruct Hext1 as (_ & _ & Hsame1). now apply Hsame1.
Qed.

Lemma preserved_refl (h : heap) : preserved h h.
Proof. split; auto. Qed.

Lemma preserved_dom (h h' : heap) :
  preserved h h' ->
  dom (arrays h) ⊆ dom (arrays h') /\ dom (objects h) ⊆ dom (objects h').
Proof.
  intros [Ha Ho]. split; intros x Hx.
  - apply elem_of_dom. rewrite (Ha x Hx). now apply elem_of_dom.
  - apply elem_of_dom. rewrite (Ho x Hx). now apply elem_of_dom.
Qed.

Lemma preserved_trans (h1 h2 h3 : heap) :
  preserved h1 h2 -> preserved h2 h3 -> preserved h1 h3.
Proof.
  intros H12 H23. destruct (preserved_dom _ _ H12) as [Da Do].
  destruct H12 as [Ha1 Ho1]. destruct H23 as [Ha2 Ho2]. split.
  - intros a Ha. rewrite Ha2 by set_solver. now apply Ha1.
  - intros o Ho. rewrite Ho2 by set_solver. now apply Ho1.
Qed.

Lemma alloc_array_spec (elems : list loc) (h : heap) :
  let '(a, h') := alloc_array elems h in
  preserved h h'
  /\ (a ∉ dom (arrays h))
  /\ arrays h' !! a = Some elems
  /\ objects h' = objects h.
Proof.
  unfold alloc_array.
  pose proof (is_fresh (dom (arrays h))) as Hfresh.
  repeat split; simpl; auto.
  - intros a Ha. apply lookup_insert_ne. set_solver.
  - apply lookup_insert_eq.
Qed.

(** The queue is seen the same in a heap that preserves its cells. *)
Lemma view_preserved (q : DeepLinkQueue) (h h' : heap) :
  wf q h -> preserved h h' ->
  elements_of h' (queue q) = elements_of h (queue q)
  /\ view q h' = view q h
  /\ wf q h'.
Proof.
  intros [Hq Hall] Hp. destruct (preserved_dom _ _ Hp) as [Da Do].
  destruct Hp as [Ha Ho].
  assert (He : elements_of h' (queue q) = elements_of h (queue q)).
  { unfold elements_of. now rewrite (Ha _ Hq). }
  split; [exact He|]. split.
  - unfold view, read. rewrite He. f_equal. apply omap_agree.
    eapply Forall_impl; [exact Hall|]. intros o Hin. now apply Ho.
  - split; [set_solver|]. rewrite He.
    eapply Forall_impl; [exact Hall|]. intros o Hin. set_solver.
Qed.

Lemma wf_size (q : DeepLinkQueue) (h : heap) :
  wf q h -> size q h = Queue.size (view q h).
Proof.
  intros [_ Hall]. unfold size, Queue.size, view, read. simpl.
  symmetry. apply omap_total_length.
  eapply Forall_impl; [exact Hall|]. intros o Hin. now apply elem_of_dom.
Qed.

(** [items.map(...)] returns a new array of new objects that reads as the
    array it copies. *)
Lemma map_copy_spec (a : loc) (h : heap) :
  Forall (fun o => o ∈ dom (objects h)) (elements_of h a) ->
  let '(r, h') := map_copy a h in
  preserved h h'
  /\ (r ∉ dom (arrays h))
  /\ r ∈ dom (arrays h')
  /\ Forall (fun o => o ∉ dom (objects h)) (elements_of h' r)
  /\ read h' r = read h a.
Proof.
  intros Hall. unfold map_copy.
  pose proof (copy_items_spec (elements_of h a) h Hall) as Hcopy.
  destruct (copy_items (elements_of h a) h) as [os h1].
  destruct Hcopy as ((Harr & Hdom & Hsame) & Hos & Hread).
  pose proof (alloc_array_spec os h1) as Halloc.
  destruct (alloc_array os h1) as [r h2].
  destruct Halloc as (Hp & Hfresh & Hr & Hobj).
  assert (Hp1 : preserved h h1).
  { split; [|exact Hsame]. intros x _. now rewrite Harr. }
  split; [exact (preserved_trans _ _ _ Hp1 Hp)|].
  split; [now rewrite <- Harr|].
  split; [apply elem_of_dom; eauto|].
  assert (He : elements_of h2 r = os) by (unfold elements_of; now rewrite Hr).
  split.
  - rewrite He. eapply Forall_impl; [exact Hos|]. now intros o [Hnew _].
  - unfold read at 1. rewrite He, Hobj. exact Hread.
Qed.

(** A change made through the returned array leaves the cells of the heap
    [h], to which that array and its objects are new, as they were. *)
Lemma mutate_preserved (h h1 : heap) (r : loc) (ms : list Mutation) :
  (r ∉ dom (arrays h)) ->
  Forall (fun o => o ∉ dom (objects h)) (elements_of h1 r) ->
  Forall (through h1 r) ms ->
  forall h2, preserved h h2 -> preserved h (mutate_all ms h2).
Proof.
  intros Hr Hos. induction 1 as [|mu ms Hmu _ IH]; intros h2 Hp; [exact Hp|].
  simpl. apply IH. destruct Hp as [Ha Ho].
  destruct mu as [a elems|o e]; simpl in Hmu; split; simpl; auto.
  - intros a' Ha'. subst a. rewrite lookup_insert_ne by set_solver. auto.
  - intros o' Ho'. rewrite lookup_insert_ne; [auto|].
    intros ->. rewrite Forall_forall in Hos. exact (Hos _ Hmu Ho').
Qed.

(** *** The heap queue is seen through [view] as the queue of the first
    model: each method commutes with [view]. *)

Lemma enqueue_view (url : string) (intent : Types.DeepLinkIntent)
      (q : DeepLinkQueue) (h : heap) :
  wf q h ->
  let '(q', h') := enqueue url intent q h in
  view q' h' = fst (Queue.enqueue url intent (view q h)) /\ wf q' h'.
Proof.
  intros Hwf. unfold enqueue, Queue.enqueue.
  change (Queue.processed (view q h)) with (processed q).
  destruct (processed q) eqn:Hp; [auto|].
  pose proof (alloc_object_extends
                {| q_url := url; q_intent := intent |} h) as Halloc.
  destruct (alloc_object {| q_url := url; q_intent := intent |} h) as [o h1].
  destruct Halloc as ((Harr & Hdom & Hsame) & Hfresh & Ho).
  destruct Hwf as [Hq Hall].
  unfold wf, view, read, elements_of in *. simpl. rewrite Harr.
  rewrite lookup_insert_eq. simpl. split.
  - rewrite omap_app. f_equal; [|exact Hp]. f_equal.
    + apply omap_agree. eapply Forall_impl; [exact Hall|].
      intros x Hx. now apply Hsame.
    + simpl. now rewrite Ho.
  - split.
    + rewrite dom_insert. set_solver.
    + apply Forall_app. split.
      * eapply Forall_impl; [exact Hall|]. intros x Hx. set_solver.
      * repeat constructor. apply elem_of_dom. eauto.
Qed.

Lemma fresh_array_view (h : heap) (p : bool) :
  let '(a, h') := alloc_array [] h in
  view {| queue := a; processed := p |} h'
  = {| Queue.queue := []; Queue.processed := p |}
  /\ wf {| queue := a; processed := p |} h'.
Proof.
  pose proof (alloc_array_spec [] h) as Halloc.
  destruct (alloc_array [] h) as [a h'].
  destruct Halloc as (_ & _ & Ha & _).
  unfold view, wf, read, elements_of. cbn [queue processed]. rewrite Ha.
  repeat split; [apply elem_of_dom; eauto|constructor].
Qed.

Lemma create_view (h : heap) :
  let '(q, h') := create h in view q h' = Queue.create /\ wf q h'.
Proof.
  unfold create. pose proof (fresh_array_view h false) as Hnew.
  now destruct (alloc_array [] h) as [a h'].
Qed.

Lemma clear_view (q : DeepLinkQueue) (h : heap) :
  let '(q', h') := clear q h in
  view q' h' = fst (Queue.clear (view q h)) /\ wf q' h'.
Proof.
  unfold clear. pose proof (fresh_array_view h (processed q)) as Hnew.
  now destruct (alloc_array [] h) as [a h'].
Qed.

Lemma reset_view (q : DeepLinkQueue) (h : heap) :
  let '(q', h') := reset q h in
  view q' h' = fst (Queue.reset (view q h)) /\ wf q' h'.
Proof.
  unfold reset. pose proof (fresh_array_view h false) as Hnew.
  now destruct (alloc_array [] h) as [a h'].
Qed.

Lemma peek_view (q : DeepLinkQueue) (h : heap) :
  wf q h ->
  let '(r, h') := peek q h in
  read h' r = Queue.peek (view q h) /\ view q h' = view q h /\ wf q h'.
Proof.
  intros Hwf. unfold peek.
  pose proof (map_copy_spec (queue q) h (proj2 Hwf)) as Hcopy.
  destruct (map_copy (queue q) h) as [r h1].
  destruct Hcopy as (Hp & _ & _ & _ & Hread).
  destruct (view_preserved q h h1 Hwf Hp) as (_ & Hview & Hwf1).
  auto.
Qed.

Lemma read_new_array (h : heap) :
  let '(a, h') := alloc_array [] h in read h' a = [].
Proof.
  unfold alloc_array, read, elements_of. simpl.
  now rewrite lookup_insert_eq.
Qed.

Lemma drain_view (q : DeepLinkQueue) (h : heap) :
  wf q h ->
  let '(r, q', h') := drain q h in
  read h' r = fst (fst (Queue.drain (view q h)))
  /\ view q' h' = snd (fst (Queue.drain (view q h)))
  /\ wf q' h'.
Proof.
  intros Hwf. unfold drain, Queue.drain.
  change (Queue.processed (view q h)) with (processed q).
  destruct (processed q) eqn:Hp.
  - pose proof (alloc_array_spec [] h) as Halloc.
    pose proof (read_new_array h) as Hnew.
    destruct (alloc_array [] h) as [r h1].
    destruct Halloc as (Hpres & _).
    destruct (view_preserved q h h1 Hwf Hpres) as (_ & Hview & Hwf1).
    cbn [fst snd]. auto.
  - pose proof (map_copy_spec (queue q) h (proj2 Hwf)) as Hcopy.
    destruct (map_copy (queue q) h) as [urls h1].
    destruct Hcopy as (Hp1 & _ & Hin & _ & Hread).
    pose proof (alloc_array_spec [] h1) as Halloc.
    pose proof (read_new_array h1) as Hnew.
    destruct (alloc_array [] h1) as [a h2].
    destruct Halloc as ((Harr & _) & _ & Ha & Hobj).
    cbn [fst snd]. split; [|split].
    + transitivity (read h1 urls); [|exact Hread].
      unfold read, elements_of. now rewrite (Harr _ Hin), Hobj.
    + unfold view. cbn [queue processed]. now rewrite Hnew.
    + split; cbn [queue].
      * apply elem_of_dom. eauto.
      * unfold elements_of. rewrite Ha. constructor.
Qed.

End HeapFacts.

(** C9. [peek] leaves the entries and the processed flag as they were and
    returns an array that reads as the current entries.  The array and the
    objects in it are copies: whatever the caller writes to that array or
    to those objects, the queue is seen as before, and [size], [peek] and
    [drain] give afterwards what they would have given. *)
Theorem C9_peek_returns_defensive_copy :
  forall (q : QueueHeap.DeepLinkQueue) (h : QueueHeap.heap),
    QueueHeap.wf q h ->
    let '(r, h1) := QueueHeap.peek q h in
    QueueHeap.view q h1 = QueueHeap.view q h
    /\ QueueHeap.read h1 r = Queue.peek (QueueHeap.view q h)
    /\ forall ms : list QueueHeap.Mutation,
         Forall (QueueHeap.through h1 r) ms ->
         let h2 := QueueHeap.mutate_all ms h1 in
         QueueHeap.view q h2 = QueueHeap.view q h
         /\ QueueHeap.size q h2 = Queue.size (QueueHeap.view q h)
         /\ (let '(r', h3) := QueueHeap.peek q h2 in
             QueueHeap.read h3 r' = Queue.peek (QueueHeap.view q h))
         /\ (let '(r', q', h3) := QueueHeap.drain q h2 in
             QueueHeap.read h3 r' = fst (fst (Queue.drain (QueueHeap.view q h)))
             /\ QueueHeap.view q' h3
                = snd (fst (Queue.drain (QueueHeap.view q h)))).
Proof.
  intros q h Hwf. unfold QueueHeap.peek at 1.
  pose proof (map_copy_spec (QueueHeap.queue q) h (proj2 Hwf)) as Hcopy.
  destruct (QueueHeap.map_copy (QueueHeap.queue q) h) as [r h1].
  destruct Hcopy as (Hp & Hfresh & _ & Hos & Hread).
  destruct (view_preserved q h h1 Hwf Hp) as (_ & Hview & _).
  split; [exact Hview|]. split; [exact Hread|].
  intros ms Hms. set (h2 := QueueHeap.mutate_all ms h1).
  pose proof (mutate_preserved h h1 r ms Hfresh Hos Hms h1 Hp) as Hp2.
  fold h2 in Hp2.
  destruct (view_preserved q h h2 Hwf Hp2) as (_ & Hview2 & Hwf2).
  split; [exact Hview2|]. split; [|split].
  - now rewrite (wf_size q h2 Hwf2), Hview2.
  - pose proof (peek_view q h2 Hwf2) as Hpeek.
    destruct (QueueHeap.peek q h2) as [r' h3].
    destruct Hpeek as (Hr' & _). now rewrite Hr', Hview2.
  - pose proof (drain_view q h2 Hwf2) as Hdrain.
    destruct (QueueHeap.drain q h2) as [[r' q'] h3].
    destruct Hdrain as (Hr' & Hq' & _). now rewrite Hr', Hq', Hview2.
Qed.

Lemma C9_peek_returns_defensive_copy_witness :
  let q := fst Samples.two_on_heap in
  let h := snd Samples.two_on_heap in
  let r := fst (QueueHeap.peek q h) in
  let h1 := snd (QueueHeap.peek q h) in
  QueueHeap.wf q h
  /\ QueueHeap.view q (QueueHeap.mutate_all (Samples.scribble h1 r) h1)
     = QueueHeap.view q h.
Proof.
  intros q h.
  assert (Hwf : QueueHeap.wf q h).
  { vm_compute. split; [reflexivity|repeat constructor]. }
  pose proof (C9_peek_returns_defensive_copy q h Hwf) as Hcopy.
  destruct (QueueHeap.peek q h) as [r h1]. cbn [fst snd].
  split; [exact Hwf|].
  destruct Hcopy as (_ & _ & Hframe).
  apply (Hframe (Samples.scribble h1 r)).
  unfold Samples.scribble. constructor; [reflexivity|].
  apply List.Forall_forall. intros mu Hmu. apply in_map_iff in Hmu.
  destruct Hmu as (o & <- & Ho). simpl. now apply list_elem_of_In.
Defined.

(** The same, computed: the caller's array is emptied and both objects are
    overwritten, and the queue still holds the two links. *)
Example scribbled_copy_leaves_queue :
  let '(q, h) := Samples.two_on_heap in
  let '(r, h1) := QueueHeap.peek q h in
  let h2 := QueueHeap.mutate_all (Samples.scribble h1 r) h1 in
  QueueHeap.read h2 r = []
  /\ omap (fun o => QueueHeap.objects h2 !! o) (QueueHeap.elements_of h1 r)
     = [Samples.overwritten; Samples.overwritten]
  /\ QueueHeap.read h2 (QueueHeap.queue q)
     = [{| Queue.q_url := "myapp://a"; Queue.q_intent := Types.launch |};
        {| Queue.q_url := "myapp://b"; Queue.q_intent := Types.open_url |}].
Proof. vm_compute. auto. Qed.

(** ** The unit tests of the repository, replayed on the model *)

Section TestReplay.

Import Types.
Import Samples (observed).
Context `{URL.HostEnvironment}.

Example test_parse_simple :
  option_map observed (UrlParser.parseDeepLink "myapp://open")
  = Some ("myapp", "open", "", [], "").
Proof. vm_compute. reflexivity. Qed.

Example test_parse_path :
  option_map observed (UrlParser.parseDeepLink "myapp://open/document/123")
  = Some ("myapp", "open", "/document/123", [], "").
Proof. vm_compute. reflexivity. Qed.

Example test_parse_hash :
  option_map hash (UrlParser.parseDeepLink "myapp://page#section")
  = Some "#section".
Proof. vm_compute. reflexivity. Qed.

Example test_parse_invalid :
  UrlParser.parseDeepLink "not a url" = None
  /\ UrlParser.parseDeepLink "" = None
  /\ UrlParser.parseDeepLink "://missing-protocol" = None
  /\ UrlParser.createDeepLinkContext "invalid" launch = None.
Proof. vm_compute. auto. Qed.

Example test_parse_special_characters :
  option_map (fun p => URL.get "q" (params p))
             (UrlParser.parseDeepLink "myapp://search?q=hello%20world")
  = Some (Some "hello world").
Proof. vm_compute. reflexivity. Qed.

Example test_parse_preserves_url :
  option_map url (UrlParser.parseDeepLink "myapp://test/path?param=value")
  = Some "myapp://test/path?param=value".
Proof. vm_compute. reflexivity. Qed.

Example test_context :
  option_map (fun c => (ctx_protocol c, ctx_path c, ctx_intent c,
                        URL.get "code" (ctx_params c)))
             (UrlParser.createDeepLinkContext
                "myapp://auth/callback?code=abc123&state=xyz" launch)
  = Some ("myapp", "/callback", launch, Some "abc123").
Proof. vm_compute. reflexivity. Qed.

Example test_isRegisteredProtocol :
  UrlParser.isRegisteredProtocol "myapp://test" ["myapp"] = true
  /\ UrlParser.isRegisteredProtocol "myapp://test" ["other"; "myapp"] = true
  /\ UrlParser.isRegisteredProtocol "other://test" ["myapp"] = false
  /\ UrlParser.isRegisteredProtocol "other://test" [] = false
  /\ UrlParser.isRegisteredProtocol "not a url" ["myapp"] = false
  /\ UrlParser.isRegisteredProtocol
       "myapp-dev://test" ["myapp"; "myapp-dev"; "myapp-beta"] = true.
Proof. vm_compute. auto 10. Qed.

End TestReplay.

Example test_getSquirrelEvent :
  Platforms.getSquirrelEvent ["electron.exe"; "--squirrel-install"]
  = Some Platforms.squirrel_install
  /\ Platforms.getSquirrelEvent ["electron.exe"; "--squirrel-firstrun"]
     = Some Platforms.squirrel_firstrun
  /\ Platforms.getSquirrelEvent ["electron.exe"; "main.js"; "--some-flag"] = None
  /\ Platforms.getSquirrelEvent [] = None
  /\ Platforms.getSquirrelEvent
       ["electron.exe"; "main.js"; "--squirrel-install"; "--other"]
     = Some Platforms.squirrel_install.
Proof. vm_compute. auto. Qed.

Example test_buildShortcutArgs :
  let only desktop menu :=
    Some {| Types.createDesktopShortcut := Some desktop;
            Types.createStartMenuShortcut := Some menu;
            Types.shortcutName := None |} in
  Platforms.buildShortcutArgs Platforms.create "MyApp.exe" None
  = ["--createShortcut=MyApp.exe"]
  /\ Platforms.buildShortcutArgs Platforms.create "MyApp.exe" (only true false)
     = ["--createShortcut=MyApp.exe"; "--shortcut-locations=Desktop"]
  /\ Platforms.buildShortcutArgs Platforms.create "MyApp.exe" (only false true)
     = ["--createShortcut=MyApp.exe"; "--shortcut-locations=StartMenu"]
  /\ Platforms.buildShortcutArgs Platforms.create "MyApp.exe" (only false false)
     = []
  /\ Platforms.buildShortcutArgs Platforms.remove "MyApp.exe" (only false false)
     = ["--removeShortcut=MyApp.exe"].
Proof. vm_compute. auto. Qed.

Example test_queue_not_queued_after_drain :
  let q1 := fst (Queue.enqueue "myapp://test1" Types.launch Queue.create) in
  let q2 := snd (fst (Queue.drain q1)) in
  let q3 := fst (Queue.enqueue "myapp://test2" Types.launch q2) in
  Queue.size q3 = 0 /\ fst (fst (Queue.drain q3)) = [].
Proof. vm_compute. auto. Qed.

Example test_queue_reset_allows_reprocessing :
  let q1 := fst (Queue.enqueue "myapp://test1" Types.launch Queue.create) in
  let q2 := fst (Queue.reset (snd (fst (Queue.drain q1)))) in
  let q3 := fst (Queue.enqueue "myapp://test2" Types.launch q2) in
  fst (fst (Queue.drain q3))
  = [{| Queue.q_url := "myapp://test2"; Queue.q_intent := Types.launch |}].
Proof. vm_compute. reflexivity. Qed.

(** "should return a copy of the queue": [urls.push(...)] on the array that
    [peek] returned, then [peek] again. *)
Example test_peek_returns_copy :
  let '(q0, h0) := QueueHeap.create Samples.heap_empty in
  let '(q, h) := QueueHeap.enqueue "myapp://test1" Types.launch q0 h0 in
  let '(urls, h1) := QueueHeap.peek q h in
  let '(pushed, h2) :=
    QueueHeap.alloc_object
      {| Queue.q_url := "myapp://modified"; Queue.q_intent := Types.launch |} h1 in
  let h3 :=
    QueueHeap.mutate
      (QueueHeap.SetArray urls (QueueHeap.elements_of h2 urls ++ [pushed])) h2 in
  let '(again, h4) := QueueHeap.peek q h3 in
  length (QueueHeap.read h3 urls) = 2
  /\ QueueHeap.read h4 again
     = [{| Queue.q_url := "myapp://test1"; Queue.q_intent := Types.launch |}].
Proof. vm_compute. auto. Qed.

(** A second launch with a link of the refused scheme: the extractor, which
    reads the configured list, finds the link; the manager, which reads the
    registered list, drops it. *)
Example refused_scheme_from_second_instance :
  let env := Samples.host_refusing_beta Electron.linux ["app"] in
  let options := Samples.options_for ["myapp"; "beta"] (Some Samples.quiet_handler) in
  let started := @Index.setupInstance Samples.custom_schemes_only env options in
  let after :=
    snd (@Index.secondInstance Samples.custom_schemes_only env options
           ["app"; "beta://settings"] started) in
  let accepted :=
    snd (@Index.secondInstance Samples.custom_schemes_only env options
           ["app"; "myapp://settings"] started) in
  fst (InstanceLock.secondInstanceHandler env options ["app"; "beta://settings"])
  = Some "beta://settings"
  /\ Index.getPendingDeepLinks after = []
  /\ Index.getPendingDeepLinks accepted = ["myapp://settings"].
Proof. vm_compute. auto. Qed.

(** * Further properties *)

(** ** queue.ts: [clear], [size], [hasItems] *)

(** X1. [clear] discards the pending entries and leaves the processed flag
    as it is.  On a queue that was not processed, the entries enqueued
    after [clear] are what the next [drain] returns; a processed queue is
    not opened again by [clear]: later entries are ignored and [drain]
    returns nothing. *)
Theorem X1_clear_discards_entries_only :
  forall (history : list Queue.AnyCall) (es : list Queue.QueuedDeepLink),
    let q := Queue.after history in
    let q' := fst (Queue.clear q) in
    Queue.size q' = 0
    /\ Queue.isProcessed q' = Queue.isProcessed q
    /\ fst (Queue.drain (Queue.enqueue_all es q'))
       = if Queue.isProcessed q then ([], q)
         else (es, {| Queue.queue := []; Queue.processed := true |}).
Proof.
  intros history es q q'. split; [reflexivity|]. split; [reflexivity|].
  unfold Queue.isProcessed. destruct (Queue.processed q) eqn:Hp.
  - assert (Hq : q' = q).
    { pose proof (after_closed_empty history Hp) as Hempty. fold q in Hempty.
      unfold q'. destruct q as [items p]. simpl in *. now subst. }
    rewrite Hq. unfold Queue.enqueue_all.
    rewrite calls_closed;
      [now apply drain_closed|exact Hp|exact (after_closed_empty history Hp)].
  - rewrite enqueue_all_open by (simpl; exact Hp).
    now rewrite drain_open.
Qed.

(** X2. Whatever calls were made on a queue, it is never both processed
    and non-empty.  On a processed queue [peek] is empty, [size] is 0,
    [hasItems] is false and [enqueue] changes nothing; on a queue that is
    not processed every [enqueue] adds one to [size].  [hasItems] holds
    exactly when [size] is positive. *)
Theorem X2_processed_queue_holds_nothing :
  forall (history : list Queue.AnyCall),
    let q := Queue.after history in
    Queue.hasItems q = negb (Queue.size q =? 0)
    /\ if Queue.isProcessed q then
         Queue.peek q = [] /\ Queue.size q = 0 /\ Queue.hasItems q = false
         /\ forall url intent, fst (Queue.enqueue url intent q) = q
       else
         forall url intent,
           Queue.size (fst (Queue.enqueue url intent q)) = S (Queue.size q)
           /\ Queue.isProcessed (fst (Queue.enqueue url intent q)) = false.
Proof.
  intros history q. split.
  - unfold Queue.hasItems, Queue.size. now destruct (length (Queue.queue q)).
  - unfold Queue.isProcessed. destruct (Queue.processed q) eqn:Hp.
    + pose proof (after_closed_empty history Hp) as Hempty. fold q in Hempty.
      unfold Queue.peek, Queue.size, Queue.hasItems. rewrite Hempty.
      repeat split. intros url intent. now apply enqueue_closed.
    + intros url intent. rewrite (enqueue_open _ _ _ Hp).
      unfold Queue.size. simpl. rewrite length_app. simpl. split; [lia|reflexivity].
Qed.

(** ** platforms/windows.ts: Squirrel events *)

Section SquirrelFacts.

Import Types Electron Platforms Notions.

Lemma squirrelEventOf_none (arg : string) :
  squirrelEventOf arg squirrelEvents = None <-> ~ In arg squirrelArguments.
Proof.
  unfold squirrelArguments, squirrelEvents. simpl.
  repeat match goal with
         | |- context [String.eqb arg ?s] =>
             destruct (String.eqb_spec arg s)
         end.
  all: split; [try discriminate|intros Hnot].
  all: try (exfalso; apply Hnot; subst; tauto).
  all: try reflexivity.
  intros _ Hin. intuition congruence.
Qed.

Lemma squirrelEventOf_listed (arg : string) (ev : SquirrelEvent) :
  In (arg, ev) squirrelEvents -> squirrelEventOf arg squirrelEvents = Some ev.
Proof.
  unfold squirrelEvents. simpl.
  intros [Heq|[Heq|[Heq|[Heq|[Heq|[]]]]]]; inversion Heq; reflexivity.
Qed.

Lemma getSquirrelEvent_none (argv : list string) :
  getSquirrelEvent argv = None
  <-> List.Forall (fun arg => ~ In arg squirrelArguments) argv.
Proof.
  induction argv as [|arg rest IH]; cbn [getSquirrelEvent].
  - split; [constructor|reflexivity].
  - destruct (squirrelEventOf arg squirrelEvents) as [ev|] eqn:Hev.
    + split; [discriminate|]. intros Hall. inversion Hall as [|? ? Hnot _]; subst.
      apply squirrelEventOf_none in Hnot. congruence.
    + rewrite IH. apply squirrelEventOf_none in Hev. split.
      * intros Hall. now constructor.
      * intros Hall. now inversion Hall.
Qed.

Lemma getSquirrelEvent_skips (before rest : list string) :
  List.Forall (fun arg => ~ In arg squirrelArguments) before ->
  getSquirrelEvent (before ++ rest) = getSquirrelEvent rest.
Proof.
  induction 1 as [|arg before Hnot _ IH]; [reflexivity|].
  cbn [app getSquirrelEvent]. apply squirrelEventOf_none in Hnot.
  now rewrite Hnot.
Qed.

Lemma not_false_spec (options : option SquirrelOptions)
      (field : SquirrelOptions -> option bool) :
  not_false options field = false
  <-> exists o, options = Some o /\ field o = Some false.
Proof.
  unfold not_false. destruct options as [o|].
  - destruct (field o) as [[|]|] eqn:Hf.
    + split; [discriminate|].
      intros (o' & Ho & Hf'). inversion Ho; subst. congruence.
    + split; [|reflexivity]. intros _. now exists o.
    + split; [discriminate|].
      intros (o' & Ho & Hf'). inversion Ho; subst. congruence.
  - split; [discriminate|]. intros (o & Ho & _). discriminate.
Qed.

End SquirrelFacts.

(** X3. [getSquirrelEvent] returns the first element of [argv] that is
    one of the five [--squirrel-*] strings, as the event it names, and
    [undefined] exactly when no element of [argv] is one of them; what
    follows the first such element is not looked at. *)
Theorem X3_getSquirrelEvent_returns_first_event :
  forall (argv : list string),
    (Platforms.getSquirrelEvent argv = None
     <-> List.Forall (fun arg => ~ In arg Notions.squirrelArguments) argv)
    /\ forall (before rest : list string) (arg : string)
              (ev : Platforms.SquirrelEvent),
         argv = before ++ arg :: rest ->
         List.Forall (fun a => ~ In a Notions.squirrelArguments) before ->
         In (arg, ev) Platforms.squirrelEvents ->
         Platforms.getSquirrelEvent argv = Some ev.
Proof.
  intros argv. split; [apply getSquirrelEvent_none|].
  intros before rest arg ev -> Hbefore Hin.
  rewrite (getSquirrelEvent_skips _ _ Hbefore).
  cbn [Platforms.getSquirrelEvent].
  now rewrite (squirrelEventOf_listed _ _ Hin).
Qed.

(** X4. [buildShortcutArgs]: for [remove] the result is the single
    argument [--removeShortcut=<target>], whatever the options.  For
    [create] the result is empty exactly when both [createDesktopShortcut]
    and [createStartMenuShortcut] are given as [false]; otherwise it starts
    with [--createShortcut=<target>] and is followed by at most one
    [--shortcut-locations] argument, which is absent exactly when neither
    option is given as [false]. *)
Theorem X4_buildShortcutArgs_shape :
  forall (target : string) (options : option Types.SquirrelOptions),
    let off field :=
      exists o, options = Some o /\ field o = Some false in
    let args := Platforms.buildShortcutArgs Platforms.create target options in
    Platforms.buildShortcutArgs Platforms.remove target options
    = [("--removeShortcut=" ++ target)%string]
    /\ (args = []
        <-> off Types.createDesktopShortcut /\ off Types.createStartMenuShortcut)
    /\ (args = [("--createShortcut=" ++ target)%string]
        <-> ~ off Types.createDesktopShortcut
            /\ ~ off Types.createStartMenuShortcut)
    /\ (args = [("--createShortcut=" ++ target)%string;
                "--shortcut-locations=Desktop"]
        <-> ~ off Types.createDesktopShortcut
            /\ off Types.createStartMenuShortcut)
    /\ (args = [("--createShortcut=" ++ target)%string;
                "--shortcut-locations=StartMenu"]
        <-> off Types.createDesktopShortcut
            /\ ~ off Types.createStartMenuShortcut).
Proof.
  intros target options off args. split; [reflexivity|].
  unfold args, off, Platforms.buildShortcutArgs.
  rewrite <- !not_false_spec.
  destruct (Platforms.not_false options Types.createDesktopShortcut);
    destruct (Platforms.not_false options Types.createStartMenuShortcut);
    simpl; repeat split; intros; try discriminate; try tauto;
    try (destruct_and?; congruence).
Qed.

(** X5. [handleStartupEvents] on Windows.  When it answers that the
    application should quit it has arranged exactly one quit and nothing
    else: either [app.quit()] at once, or one [Update.exe] process, spawned
    with a non-empty argument list, whose close calls [app.quit()]; on
    uninstall it is always the process, with [--removeShortcut].  When it
    answers false it has done nothing; this is the answer whenever Squirrel
    handling is disabled or [argv] holds no Squirrel event. *)
Theorem X5_startup_event_quits_exactly_once :
  forall (env : Electron.Env) (options : Types.SetupOptions),
    let '(quitting, t) := Platforms.windowsHandleStartupEvents env options in
    (if quitting then
       t = [Electron.App Electron.quit]
       \/ exists args,
            args <> []
            /\ t = [Electron.App
                      (Electron.spawnThenQuit (Electron.updateExePath env) args)]
     else t = [])
    /\ (Platforms.squirrelHandlingEnabled options = false
        \/ Platforms.getSquirrelEvent (Electron.argv env) = None ->
        quitting = false)
    /\ (Platforms.squirrelHandlingEnabled options = true ->
        Platforms.getSquirrelEvent (Electron.argv env)
        = Some Platforms.squirrel_uninstall ->
        t = [Electron.App
               (Electron.spawnThenQuit
                  (Electron.updateExePath env)
                  [("--removeShortcut=" ++ Electron.targetExeName env)%string])]).
Proof.
  intros env options.
  unfold Platforms.windowsHandleStartupEvents, Platforms.squirrelHandlingEnabled,
    Platforms.createShortcuts, Platforms.runSquirrelCommand.
  destruct (Types.windows options) as [[[[|]|] so]|];
    destruct (Platforms.getSquirrelEvent (Electron.argv env)) as [[]|];
    cbn [fst snd];
    repeat match goal with
           | |- context [if ?b then _ else _] => destruct b eqn:?
           end;
    repeat split; intros; try discriminate; try tauto; try congruence;
    try (left; reflexivity);
    try (right; eexists; split; [|reflexivity];
         intros Hnil; rewrite Hnil in *; discriminate);
    try (right; eexists; split; [|reflexivity]; discriminate);
    match goal with
    | H : _ \/ _ |- _ => simpl in H; destruct H; discriminate
    end.
Qed.

(** ** Registration: the platform handlers and protocol-registry.ts *)

Section RegistrationFacts.

Import Types Electron Platforms ProtocolRegistry.

(** Every handler registers a scheme by one call of
    [app.setAsDefaultProtocolClient] for that scheme. *)
Lemma registerProtocol_call (env : Env) (scheme : string)
      (options : SetupOptions) :
  exists path args,
    registerProtocol (getPlatformHandler env) scheme options
    = call_setAsDefault env scheme path args.
Proof.
  unfold getPlatformHandler, createMacOSHandler, createWindowsHandler,
    createLinuxHandler, registerDevelopment.
  destruct (platform env); cbn [registerProtocol];
    destruct (isPackaged env); eauto;
    destruct (match Types.linux options with
              | Some l => desktopFileName l
              | None => None
              end) as [[|c s]|]; eauto.
Qed.

Lemma unregisterProtocol_call (env : Env) (scheme : string) :
  unregisterProtocol (getPlatformHandler env) scheme
  = call_removeAsDefault env scheme.
Proof. unfold getPlatformHandler. now destruct (platform env). Qed.

(** The events of the loop: what was there, then for each scheme in order
    what its registration did. *)
Lemma registerLoop_calls (handler : PlatformHandler) (options : SetupOptions)
      (schemes : list string) :
  forall (acc : ProtocolRegistryResult) (t : list Event),
    app_calls (snd (registerLoop handler options schemes acc t))
    = app_calls t
        ++ flat_map
             (fun s => app_calls (snd (registerProtocol handler s options)))
             schemes.
Proof.
  induction schemes as [|scheme rest IH]; intros acc t; cbn [registerLoop flat_map].
  - now rewrite app_nil_r.
  - destruct (registerProtocol handler scheme options) as [success calls].
    destruct success; rewrite IH; cbn [snd];
      rewrite !app_calls_app; simpl; rewrite !app_nil_r;
      now rewrite <- app_assoc.
Qed.

Lemma filter_partition_length {A} (f : A -> bool) (l : list A) :
  length (List.filter f l) + length (List.filter (fun x => negb (f x)) l)
  = length l.
Proof.
  induction l as [|x l IH]; [reflexivity|].
  simpl. destruct (f x); simpl; lia.
Qed.

End RegistrationFacts.

(** X6. Whatever the platform, [registerProtocol] makes exactly one call
    of [app.setAsDefaultProtocolClient], for the scheme it is given, and
    returns the answer of that call.  In a packaged application the
    executable path is not passed; no arguments are passed on macOS and
    Windows, and elsewhere the only argument is [linux.desktopFileName]
    when it is given and not empty.  In development the call passes
    [process.execPath] and [process.argv.slice(1)] with the elements that
    start with [<scheme>://] left out: the other elements stay, each as
    often as it occurs and in the order of [process.argv], so that a deep
    link of the scheme being registered is never part of the registered
    command line. *)
Theorem X6_registerProtocol_makes_one_call :
  forall (env : Electron.Env) (scheme : string) (options : Types.SetupOptions),
    exists path args,
      Platforms.registerProtocol (Platforms.getPlatformHandler env) scheme options
      = (Electron.os_setAsDefaultProtocolClient env scheme path args,
         [Electron.App (Electron.setAsDefaultProtocolClient scheme path args)])
      /\ (if Electron.isPackaged env then
            path = None
            /\ match Electron.platform env with
               | Electron.darwin | Electron.win32 => args = None
               | _ =>
                   (args = None
                    /\ forall l file,
                         Types.linux options = Some l ->
                         Types.desktopFileName l = Some file -> file = "")
                   \/ exists l file,
                        Types.linux options = Some l
                        /\ Types.desktopFileName l = Some file
                        /\ file <> ""
                        /\ args = Some [file]
               end
          else
            path = Some (Electron.execPath env)
            /\ exists kept,
                 args = Some kept
                 /\ kept
                    = List.filter
                        (fun arg => negb (Js.startsWith arg (scheme ++ "://")))
                        (tl (Electron.argv env))
                 /\ List.Forall
                      (fun arg => Js.startsWith arg (scheme ++ "://") = false)
                      kept
                 /\ forall arg,
                      In arg kept
                      <-> In arg (tl (Electron.argv env))
                          /\ Js.startsWith arg (scheme ++ "://") = false).
Proof.
  intros env scheme options.
  assert (Hdev : exists kept,
             Some (Platforms.cleanArgs env scheme) = Some kept
             /\ kept
                = List.filter
                    (fun arg => negb (Js.startsWith arg (scheme ++ "://")))
                    (tl (Electron.argv env))
             /\ List.Forall
                  (fun arg => Js.startsWith arg (scheme ++ "://") = false) kept
             /\ forall arg,
                  In arg kept
                  <-> In arg (tl (Electron.argv env))
                      /\ Js.startsWith arg (scheme ++ "://") = false).
  { exists (Platforms.cleanArgs env scheme). split; [reflexivity|].
    split; [reflexivity|].
    unfold Platforms.cleanArgs. split.
    - apply List.Forall_forall. intros arg Hin.
      apply List.filter_In in Hin. destruct Hin as [_ Hneg].
      now apply negb_true_iff in Hneg.
    - intros arg. rewrite List.filter_In, negb_true_iff. reflexivity. }
  unfold Platforms.getPlatformHandler, Platforms.createMacOSHandler,
    Platforms.createWindowsHandler, Platforms.createLinuxHandler,
    Platforms.registerDevelopment, Platforms.call_setAsDefault.
  destruct (Electron.platform env); cbn [Platforms.registerProtocol];
    destruct (Electron.isPackaged env);
    try (eexists _, _; split; [reflexivity|]; split; [reflexivity|];
         first [reflexivity | exact Hdev]).
  all: destruct (Types.linux options) as [[[[|c s]|]]|];
    cbn [Types.desktopFileName];
    eexists _, _; (split; [reflexivity|]); (split; [reflexivity|]);
    first [left; split; [reflexivity|]; intros l file Hl Hfile;
           inversion Hl; subst; simpl in Hfile; congruence
          | right; eexists _, _; split; [reflexivity|]; split; [reflexivity|];
            split; [discriminate|reflexivity]].
Qed.

(** X7. [registerProtocols] attempts every configured scheme, in the
    configured order, whether or not earlier ones failed: the calls it makes
    on the application are one [setAsDefaultProtocolClient] per configured
    scheme.  Each scheme ends in [registered] or in [failed] according to
    the answer of the platform, both lists keep the configured order, and
    together they are as long as the configured list.  With no [protocols]
    option nothing is called and both lists are empty. *)
Theorem X7_registerProtocols_sorts_every_scheme :
  forall (env : Electron.Env) (options : Types.SetupOptions),
    let configured :=
      ProtocolRegistry.getProtocolSchemes (Types.protocols options) in
    let succeeds scheme :=
      fst (Platforms.registerProtocol
             (Platforms.getPlatformHandler env) scheme options) in
    let '(result, t) := ProtocolRegistry.registerProtocols env options in
    ProtocolRegistry.registered result = List.filter succeeds configured
    /\ ProtocolRegistry.failed result
       = List.filter (fun s => negb (succeeds s)) configured
    /\ length (ProtocolRegistry.registered result)
       + length (ProtocolRegistry.failed result) = length configured
    /\ List.Forall2
         (fun scheme call =>
            exists path args,
              call = Electron.setAsDefaultProtocolClient scheme path args)
         configured (Electron.app_calls t)
    /\ (Types.protocols options = None ->
        result = {| ProtocolRegistry.registered := [];
                    ProtocolRegistry.failed := [] |}
        /\ t = []).
Proof.
  intros env options configured succeeds.
  pose proof (registerLoop_registered
                (Platforms.getPlatformHandler env) options configured
                {| ProtocolRegistry.registered := [];
                   ProtocolRegistry.failed := [] |} []) as [Hr Hf].
  pose proof (registerLoop_calls
                (Platforms.getPlatformHandler env) options configured
                {| ProtocolRegistry.registered := [];
                   ProtocolRegistry.failed := [] |} []) as Hcalls.
  assert (Hnone : Types.protocols options = None ->
                  ProtocolRegistry.registerProtocols env options
                  = ({| ProtocolRegistry.registered := [];
                        ProtocolRegistry.failed := [] |}, [])).
  { intros Hp. unfold ProtocolRegistry.registerProtocols. now rewrite Hp. }
  unfold ProtocolRegistry.registerProtocols.
  fold (ProtocolRegistry.getProtocolSchemes (Types.protocols options)).
  fold configured. unfold ProtocolRegistry.registerProtocols in Hnone.
  fold (ProtocolRegistry.getProtocolSchemes (Types.protocols options)) in Hnone.
  fold configured in Hnone.
  destruct (ProtocolRegistry.registerLoop
              (Platforms.getPlatformHandler env) options configured
              {| ProtocolRegistry.registered := [];
                 ProtocolRegistry.failed := [] |} []) as [result t].
  simpl in Hr, Hf, Hcalls. fold succeeds in Hr.
  split; [exact Hr|]. split; [exact Hf|]. split; [|split].
  - rewrite Hr, Hf. apply filter_partition_length.
  - rewrite Hcalls. clear. induction configured as [|scheme rest IH]; simpl.
    + constructor.
    + destruct (registerProtocol_call env scheme options) as (path & args & ->).
      simpl. constructor; [eauto|exact IH].
  - intros Hp. specialize (Hnone Hp). now inversion Hnone.
Qed.

(** X8. [unregisterProtocols] calls [app.removeAsDefaultProtocolClient]
    once for each scheme whose registration succeeded, in order, and for no
    other scheme.  It does not touch the deep-link manager: the list
    against which schemes are tested, the queue, the suspended dispatches
    and the consumer invocations are as before, so links of the
    unregistered schemes are still accepted when they arrive.  On the
    minimal manager it does nothing. *)
Theorem X8_unregisterProtocols_only_calls_the_platform :
  forall (env : Electron.Env) (i : Index.InstanceManager),
    match i, Index.unregisterProtocols env i with
    | Index.Running result m, Index.Running result' m' =>
        result' = result
        /\ DeepLinks.queue m' = DeepLinks.queue m
        /\ DeepLinks.suspended m' = DeepLinks.suspended m
        /\ Electron.invocations (DeepLinks.trace m')
           = Electron.invocations (DeepLinks.trace m)
        /\ Electron.app_calls (DeepLinks.trace m')
           = Electron.app_calls (DeepLinks.trace m)
               ++ map Electron.removeAsDefaultProtocolClient
                      (ProtocolRegistry.registered result)
    | Index.MustQuit t, Index.MustQuit t' => t' = t
    | _, _ => False
    end.
Proof.
  intros env [t|result m]; [reflexivity|].
  cbn [Index.unregisterProtocols DeepLinks.extend DeepLinks.queue
       DeepLinks.suspended DeepLinks.trace].
  rewrite invocations_app, app_calls_app.
  repeat split.
  - rewrite <- (app_nil_r (Electron.invocations (DeepLinks.trace m))) at 2.
    f_equal. unfold ProtocolRegistry.unregisterAll.
    induction (ProtocolRegistry.registered result) as [|scheme rest IH];
      [reflexivity|].
    cbn [flat_map]. rewrite unregisterProtocol_call. simpl. exact IH.
  - f_equal. unfold ProtocolRegistry.unregisterAll.
    induction (ProtocolRegistry.registered result) as [|scheme rest IH];
      [reflexivity|].
    cbn [flat_map map]. rewrite unregisterProtocol_call. simpl. now rewrite IH.
Qed.

(** ** instance-lock.ts and index.ts *)

Section SetupFacts.

Import Types Electron Platforms InstanceLock.

(** The answer and the events of the startup step of
    [acquireInstanceLock]. *)
Lemma startup_cases (env : Env) (options : SetupOptions) :
  match handleStartupEvents (getPlatformHandler env) with
  | Some handle => handle options
  | None => (false, [])
  end
  = match platform env with
    | win32 => windowsHandleStartupEvents env options
    | _ => (false, [])
    end.
Proof. unfold getPlatformHandler. now destruct (platform env). Qed.

(** A startup step that does not end in a quit has done nothing. *)
Lemma startup_false_silent (env : Env) (options : SetupOptions) :
  fst (windowsHandleStartupEvents env options) = false ->
  snd (windowsHandleStartupEvents env options) = [].
Proof.
  unfold windowsHandleStartupEvents.
  repeat (case_match; simpl); congruence.
Qed.

(** Handling a startup event registers no scheme and no listener. *)
Lemma startup_only_quits (env : Env) (options : SetupOptions) :
  List.Forall
    (fun e => match e with
              | App quit | App (spawnThenQuit _ _) => True
              | _ => False
              end)
    (snd (windowsHandleStartupEvents env options)).
Proof.
  unfold windowsHandleStartupEvents, createShortcuts, runSquirrelCommand.
  repeat (case_match; simpl); repeat constructor.
Qed.

End SetupFacts.

(** X9. [acquireInstanceLock], when no startup event makes the
    application quit (always so off Windows, whatever [argv] holds): the
    lock is requested exactly once and [hasLock] is the answer of the
    operating system.  The [second-instance] listener is registered exactly
    when the lock is held, and [onInstanceLockFailed] is called exactly when
    the lock is refused and the callback was supplied.  When a startup
    event does make the application quit, [hasLock] is false and neither
    the listener nor the callback is touched. *)
Theorem X9_lock_is_requested_once :
  forall (env : Electron.Env) (options : Types.SetupOptions),
    let startup :=
      match Platforms.handleStartupEvents (Platforms.getPlatformHandler env) with
      | Some handle => fst (handle options)
      | None => false
      end in
    let '(result, t) := InstanceLock.acquireInstanceLock env options in
    (Electron.platform env <> Electron.win32 -> startup = false)
    /\ if startup then
         InstanceLock.hasLock result = false
         /\ ~ In Electron.LockFailedCallback t
         /\ ~ In (Electron.on "second-instance") (Electron.app_calls t)
       else
         InstanceLock.hasLock result = Electron.os_requestSingleInstanceLock env
         /\ Electron.app_calls t
            = Electron.requestSingleInstanceLock
                :: (if InstanceLock.hasLock result
                    then [Electron.on "second-instance"] else [])
         /\ (In Electron.LockFailedCallback t
             <-> InstanceLock.hasLock result = false
                 /\ Types.onInstanceLockFailed options = true).
Proof.
  intros env options startup.
  assert (Hstartup : startup
                     = fst (match Electron.platform env with
                            | Electron.win32 =>
                                Platforms.windowsHandleStartupEvents env options
                            | _ => (false, [])
                            end)).
  { unfold startup, Platforms.getPlatformHandler.
    now destruct (Electron.platform env). }
  unfold InstanceLock.acquireInstanceLock. rewrite startup_cases.
  rewrite Hstartup. clear Hstartup startup.
  set (step := match Electron.platform env with
               | Electron.win32 =>
                   Platforms.windowsHandleStartupEvents env options
               | _ => (false, [])
               end).
  assert (Hplat : Electron.platform env <> Electron.win32 -> fst step = false).
  { unfold step. destruct (Electron.platform env); simpl; congruence. }
  assert (Hsilent : fst step = false -> snd step = []).
  { unfold step. destruct (Electron.platform env); try reflexivity.
    apply startup_false_silent. }
  assert (Hquits : List.Forall
                     (fun e => match e with
                               | Electron.App Electron.quit
                               | Electron.App (Electron.spawnThenQuit _ _) => True
                               | _ => False
                               end) (snd step)).
  { unfold step. destruct (Electron.platform env); try constructor.
    apply startup_only_quits. }
  clearbody step. destruct step as [quitting t0]. cbn [fst snd] in *.
  destruct quitting.
  - split; [exact Hplat|]. split; [reflexivity|]. split.
    + rewrite in_app_iff. intros [Hin|[Hin|[]]]; [|discriminate].
      rewrite List.Forall_forall in Hquits. exact (Hquits _ Hin).
    + rewrite app_calls_app, in_app_iff. simpl. intros [Hin|[]].
      unfold Electron.app_calls in Hin. apply in_flat_map in Hin.
      destruct Hin as (e & He & Hin).
      rewrite List.Forall_forall in Hquits. specialize (Hquits _ He).
      destruct e as [| | |[]|]; simpl in Hin, Hquits; intuition discriminate.
  - rewrite (Hsilent eq_refl).
    destruct (Electron.os_requestSingleInstanceLock env);
      destruct (Types.onInstanceLockFailed options); simpl;
      repeat split; intros; try discriminate; intuition discriminate.
Qed.

(** X10. [setupInstance] reports [shouldQuit] exactly when the lock is not
    held.  In that case it has registered no scheme and no [open-url]
    listener and has invoked nothing, and the manager it returns is inert:
    nothing is pending, and [processPendingDeepLinks],
    [clearPendingDeepLinks], [queueDeepLink] and [unregisterProtocols]
    return normally and change nothing.  Otherwise the manager filters
    links by the schemes that [registerProtocols] registered. *)
Theorem X10_setup_without_lock_is_inert :
  forall (E : URL.HostEnvironment) (env : Electron.Env)
         (options : Types.SetupOptions),
    let i := Index.setupInstance env options in
    Index.shouldQuit i
    = negb (InstanceLock.hasLock
              (fst (InstanceLock.acquireInstanceLock env options)))
    /\ match i with
       | Index.MustQuit t =>
           (forall scheme path args,
               ~ In (Electron.setAsDefaultProtocolClient scheme path args)
                    (Electron.app_calls t))
           /\ ~ In (Electron.on "open-url") (Electron.app_calls t)
           /\ Electron.invocations t = []
           /\ Index.getPendingDeepLinks i = []
           /\ Index.processPendingDeepLinks options i = (DeepLinks.Normal tt, i)
           /\ Index.clearPendingDeepLinks i = (DeepLinks.Normal tt, i)
           /\ Index.unregisterProtocols env i = i
           /\ forall url intent,
                Index.queueDeepLink options url intent i
                = (DeepLinks.Normal tt, i)
       | Index.Running result m =>
           result = fst (ProtocolRegistry.registerProtocols env options)
       end.
Proof.
  intros E env options i. unfold i, Index.setupInstance.
  assert (Hcalls : forall result t,
             InstanceLock.acquireInstanceLock env options = (result, t) ->
             List.Forall
               (fun e => match e with
                         | Electron.App (Electron.setAsDefaultProtocolClient _ _ _)
                         | Electron.App (Electron.on "open-url")
                         | Electron.Invoked _ => False
                         | _ => True
                         end) t).
  { intros result t. unfold InstanceLock.acquireInstanceLock.
    rewrite startup_cases.
    assert (Hwin : List.Forall
               (fun e => match e with
                         | Electron.App (Electron.setAsDefaultProtocolClient _ _ _)
                         | Electron.App (Electron.on "open-url")
                         | Electron.Invoked _ => False
                         | _ => True
                         end)
               (snd (Platforms.windowsHandleStartupEvents env options))).
    { eapply List.Forall_impl; [|apply startup_only_quits].
      intros [| | |[]|]; simpl; tauto. }
    destruct (Electron.platform env);
      try destruct (Platforms.windowsHandleStartupEvents env options)
        as [[|] t0];
      cbn [fst snd] in *;
      destruct (Electron.os_requestSingleInstanceLock env);
      destruct (Types.onInstanceLockFailed options); cbn [negb];
      intros Heq; inversion Heq; subst;
      rewrite ?List.Forall_app; repeat split;
      try exact Hwin; repeat constructor. }
  destruct (InstanceLock.acquireInstanceLock env options) as [[held] t] eqn:Hlock.
  specialize (Hcalls _ _ eq_refl). cbn [InstanceLock.hasLock fst].
  destruct held; cbn [negb].
  - destruct (ProtocolRegistry.registerProtocols env options) as [result t2].
    split; reflexivity.
  - split; [reflexivity|].
    assert (Hall : List.Forall
               (fun e => match e with
                         | Electron.App (Electron.setAsDefaultProtocolClient _ _ _)
                         | Electron.App (Electron.on "open-url")
                         | Electron.Invoked _ => False
                         | _ => True
                         end)
               ([Electron.Logged (Types.info, "Setting up electron-launch-handler");
                 Electron.Logged (Types.debug, "Single instance mode enabled")]
                  ++ t)).
    { apply List.Forall_app. split; [repeat constructor|exact Hcalls]. }
    rewrite List.Forall_forall in Hall.
    split; [|split; [|split]].
    + intros scheme path args Hin. unfold Electron.app_calls in Hin.
      apply in_flat_map in Hin. destruct Hin as (e & He & Hin).
      specialize (Hall _ He).
      destruct e as [| | |[]|]; simpl in Hin; intuition discriminate.
    + intros Hin. unfold Electron.app_calls in Hin.
      apply in_flat_map in Hin. destruct Hin as (e & He & Hin).
      specialize (Hall _ He).
      destruct e as [| | |[]|]; simpl in Hin; try tauto;
        destruct Hin as [Hin|[]]; inversion Hin; subst; exact Hall.
    + match goal with
      | |- Electron.invocations ?events = [] => set (l := events) in *
      end.
      clearbody l. induction l as [|e l IH]; [reflexivity|].
      simpl. rewrite IH by (intros x Hx; apply Hall; now right).
      specialize (Hall e (or_introl eq_refl)). now destruct e.
    + repeat split.
Qed.

(** ** deep-links.ts: creation, [queueDeepLink], [clearPending],
    [processPending] *)

Section MoreManagerFacts.

Import Types Electron UrlParser DeepLinks.
Import Queue (QueuedDeepLink, q_url, q_intent).

Context `{URL.HostEnvironment}.
Variable options : SetupOptions.
Variable protocols : list string.

Lemma app_calls_logged (l : list LogEntry) : app_calls (logged l) = [].
Proof. induction l; simpl; auto. Qed.

(** One call of [handleDeepLink] while the queue is open: the link is
    appended when it is accepted, and nothing else changes but the log. *)
Lemma handle_open (url : string) (intent : DeepLinkIntent) (m : Manager) :
  Queue.isProcessed (queue m) = false ->
  exists l,
    handleDeepLink options protocols url intent m
    = (Normal tt,
       {| queue :=
            {| Queue.queue :=
                 Queue.queue (queue m)
                   ++ (if isRegisteredProtocol url protocols
                       then [{| q_url := url; q_intent := intent |}] else []);
               Queue.processed := false |};
          trace := trace m ++ logged l;
          suspended := suspended m |}).
Proof.
  intros Hp. destruct (isRegisteredProtocol url protocols) eqn:Hreg.
  - exact (handle_queued options protocols url intent m Hreg Hp).
  - destruct (handle_dropped options protocols url intent m Hreg) as (l & ->).
    exists l. unfold extend. rewrite app_nil_r.
    destruct m as [[items p] t tasks]. simpl in *.
    unfold Queue.isProcessed in Hp. simpl in Hp. now subst p.
Qed.

(** [processPending] on an open queue: the queue is closed and emptied,
    and the loop starts on the entries it held. *)
Lemma processPending_loop (m : Manager) :
  Queue.isProcessed (queue m) = false ->
  exists l,
    processPending options m
    = (Normal tt,
       loopFrom options (Queue.queue (queue m))
                {| queue := {| Queue.queue := []; Queue.processed := true |};
                   trace := trace m ++ logged l;
                   suspended := suspended m |}).
Proof.
  intros Hp. unfold processPending, bind, on_queue, log, emit, Queue.drain.
  unfold Queue.isProcessed in Hp. rewrite Hp. cbn [fst snd].
  destruct (length (Queue.queue (queue m)) =? 0) eqn:Hlen.
  - apply Nat.eqb_eq, length_zero_iff_nil in Hlen. rewrite Hlen.
    eexists [_; _]. simpl. now rewrite <- app_assoc.
  - eexists [_; _]. simpl. now rewrite <- app_assoc.
Qed.

(** [processPending] on a processed queue only logs. *)
Lemma processPending_closed (m : Manager) :
  Queue.isProcessed (queue m) = true ->
  exists l, processPending options m = (Normal tt, extend m (logged l)).
Proof.
  intros Hp. unfold processPending, bind, on_queue, log, emit, Queue.drain, extend.
  unfold Queue.isProcessed in Hp. rewrite Hp. simpl.
  eexists [_; _]. simpl. now rewrite <- app_assoc.
Qed.

End MoreManagerFacts.

(** X11. [createDeepLinkManager] never invokes the consumer callback and
    suspends nothing.  The queue it leaves is open and holds at most one
    entry: the launch link that the platform extractor finds in
    [process.argv], with intent [launch], when that link parses and its
    scheme is in the list.  The [open-url] listener is registered on macOS
    and on no other platform. *)
Theorem X11_launch_link_is_queued_not_dispatched :
  forall (E : URL.HostEnvironment) (env : Electron.Env)
         (options : Types.SetupOptions) (protocols : list string)
         (t0 : list Electron.Event),
    let m := DeepLinks.createDeepLinkManager env options protocols t0 in
    Queue.peek (DeepLinks.queue m)
    = match Platforms.extractDeepLinkFromArgs
              (Platforms.getPlatformHandler env) (Electron.argv env) protocols
      with
      | Some url =>
          if UrlParser.isRegisteredProtocol url protocols
          then [{| Queue.q_url := url; Queue.q_intent := Types.launch |}]
          else []
      | None => []
      end
    /\ Queue.isProcessed (DeepLinks.queue m) = false
    /\ DeepLinks.suspended m = []
    /\ Electron.invocations (DeepLinks.trace m) = Electron.invocations t0
    /\ Electron.app_calls (DeepLinks.trace m)
       = Electron.app_calls t0
           ++ match Electron.platform env with
              | Electron.darwin => [Electron.on "open-url"]
              | _ => []
              end.
Proof.
  intros E env options protocols t0 m. unfold m, DeepLinks.createDeepLinkManager.
  set (t := t0 ++ (if Platforms.isMacOS env
                   then [Electron.App (Electron.on "open-url")] else [])).
  assert (Hi : Electron.invocations t = Electron.invocations t0).
  { unfold t. rewrite invocations_app.
    destruct (Platforms.isMacOS env); simpl; now rewrite app_nil_r. }
  assert (Ha : Electron.app_calls t
               = Electron.app_calls t0
                   ++ match Electron.platform env with
                      | Electron.darwin => [Electron.on "open-url"]
                      | _ => []
                      end).
  { unfold t, Platforms.isMacOS. rewrite app_calls_app.
    now destruct (Electron.platform env). }
  clearbody t.
  destruct (Platforms.extractDeepLinkFromArgs
              (Platforms.getPlatformHandler env) (Electron.argv env) protocols)
    as [[|c url]|].
  - repeat split; assumption.
  - destruct (handle_open options protocols (String c url) Types.launch
                          (DeepLinks.started t) eq_refl) as (l & ->).
    cbn [snd DeepLinks.queue DeepLinks.trace DeepLinks.suspended
         DeepLinks.started Queue.peek Queue.queue Queue.create app].
    rewrite invocations_app, invocations_logged, app_calls_app,
      app_calls_logged, !app_nil_r.
    repeat split; assumption.
  - repeat split; assumption.
Qed.

(** X12. [queueDeepLink] with no intent uses [open-url].  Before
    [processPending] it is [handleDeepLink] itself.  After it, the call
    returns without invoking the consumer callback and without touching the
    queue: it leaves one deferred task, and when the event loop runs that
    task the link goes through [handleDeepLink] with the same intent. *)
Theorem X12_queueDeepLink_defers_once_processed :
  forall (E : URL.HostEnvironment) (options : Types.SetupOptions)
         (protocols : list string) (url : string)
         (intent : option Types.DeepLinkIntent) (m : DeepLinks.Manager),
    let given := default Types.open_url intent in
    let r := DeepLinks.queueDeepLink options protocols url intent m in
    if Queue.isProcessed (DeepLinks.queue m) then
      fst r = DeepLinks.Normal tt
      /\ DeepLinks.queue (snd r) = DeepLinks.queue m
      /\ Electron.invocations (DeepLinks.trace (snd r))
         = Electron.invocations (DeepLinks.trace m)
      /\ DeepLinks.suspended (snd r)
         = DeepLinks.suspended m ++ [DeepLinks.Deferred url given]
      /\ exists l,
           DeepLinks.resume options protocols
                            (length (DeepLinks.suspended m)) (snd r)
           = Some (snd (DeepLinks.handleDeepLink
                          options protocols url given
                          (DeepLinks.extend m (Electron.logged l))))
    else r = DeepLinks.handleDeepLink options protocols url given m.
Proof.
  intros E options protocols url intent m given r. unfold r.
  unfold DeepLinks.queueDeepLink, DeepLinks.bind, DeepLinks.isProcessed,
    DeepLinks.log, DeepLinks.emit, DeepLinks.suspend.
  fold given. destruct (Queue.isProcessed (DeepLinks.queue m)) eqn:Hp;
    [|reflexivity].
  cbn [fst snd DeepLinks.queue DeepLinks.trace DeepLinks.suspended].
  rewrite invocations_app. simpl. rewrite app_nil_r.
  repeat split.
  exists [(Types.debug,
           ("Queue already processed, deferring dispatch: " ++ url)%string)].
  unfold DeepLinks.resume.
  cbn [DeepLinks.queue DeepLinks.trace DeepLinks.suspended].
  rewrite (list_lookup_middle (DeepLinks.suspended m) [] _ _ eq_refl).
  assert (Hdel : delete (length (DeepLinks.suspended m))
                        (DeepLinks.suspended m ++ [DeepLinks.Deferred url given])
                 = DeepLinks.suspended m).
  { induction (DeepLinks.suspended m) as [|task tasks IH]; [reflexivity|].
    simpl. now rewrite IH. }
  rewrite Hdel. unfold DeepLinks.try_catch, DeepLinks.extend, Electron.logged.
  cbn [map].
  match goal with
  | |- context [DeepLinks.handleDeepLink options protocols url given ?m0] =>
      pose proof (handle_grows options protocols url given m0) as (Hc & _);
        destruct (DeepLinks.handleDeepLink options protocols url given m0)
        as [c m1]
  end.
  simpl in Hc. now subst c.
Qed.

(** X13. [clearPending] discards the queued links for good: nothing is
    pending afterwards, and a later [processPending] invokes the consumer
    callback for none of them.  It does not open or close the gate: the
    processed flag is as before, and [processPending] after it still
    switches the manager to immediate dispatch. *)
Theorem X13_cleared_links_are_never_delivered :
  forall (E : URL.HostEnvironment) (options : Types.SetupOptions)
         (m : DeepLinks.Manager),
    let m1 := snd (DeepLinks.clearPending m) in
    let m2 := snd (DeepLinks.processPending options m1) in
    fst (DeepLinks.clearPending m) = DeepLinks.Normal tt
    /\ DeepLinks.getPending m1 = []
    /\ Queue.isProcessed (DeepLinks.queue m1)
       = Queue.isProcessed (DeepLinks.queue m)
    /\ DeepLinks.suspended m1 = DeepLinks.suspended m
    /\ Electron.invocations (DeepLinks.trace m1)
       = Electron.invocations (DeepLinks.trace m)
    /\ Electron.invocations (DeepLinks.trace m2)
       = Electron.invocations (DeepLinks.trace m)
    /\ DeepLinks.suspended m2 = DeepLinks.suspended m
    /\ DeepLinks.getPending m2 = []
    /\ Queue.isProcessed (DeepLinks.queue m2) = true.
Proof.
  intros E options m m1 m2.
  assert (H1 : m1 = {| DeepLinks.queue :=
                         {| Queue.queue := [];
                            Queue.processed :=
                              Queue.processed (DeepLinks.queue m) |};
                       DeepLinks.trace :=
                         DeepLinks.trace m
                           ++ Electron.logged (snd (Queue.clear (DeepLinks.queue m)));
                       DeepLinks.suspended := DeepLinks.suspended m |})
    by reflexivity.
  assert (Hi1 : Electron.invocations (DeepLinks.trace m1)
                = Electron.invocations (DeepLinks.trace m)).
  { rewrite H1. cbn [DeepLinks.trace].
    now rewrite invocations_app, invocations_logged, app_nil_r. }
  split; [reflexivity|]. split; [now rewrite H1|]. split; [now rewrite H1|].
  split; [now rewrite H1|]. split; [exact Hi1|].
  unfold m2. destruct (Queue.isProcessed (DeepLinks.queue m1)) eqn:Hp.
  - destruct (processPending_closed options m1 Hp) as (l & ->).
    cbn [snd DeepLinks.extend DeepLinks.trace DeepLinks.suspended
         DeepLinks.queue DeepLinks.getPending].
    rewrite invocations_app, invocations_logged, app_nil_r.
    split; [exact Hi1|]. split; [now rewrite H1|].
    split; [now rewrite H1|exact Hp].
  - destruct (processPending_loop options m1 Hp) as (l & ->).
    rewrite H1. cbn [snd DeepLinks.queue Queue.queue DeepLinks.loopFrom
                     DeepLinks.trace DeepLinks.suspended DeepLinks.getPending
                     Queue.peek map].
    rewrite !invocations_app, !invocations_logged, !app_nil_r.
    repeat split.
Qed.

(** X14. [processPending] is a one-time transition.  After any call of it
    the queue is processed, and a further call drains nothing: it returns
    normally and leaves the queue, the consumer invocations, the suspended
    dispatches and the unhandled rejections as they were. *)
Theorem X14_processPending_again_does_nothing :
  forall (E : URL.HostEnvironment) (options : Types.SetupOptions)
         (m : DeepLinks.Manager),
    let m1 := snd (DeepLinks.processPending options m) in
    Queue.isProcessed (DeepLinks.queue m1) = true
    /\ DeepLinks.drops m1 (DeepLinks.processPending options m1)
    /\ DeepLinks.getPending m1 = DeepLinks.getPending
                                   (snd (DeepLinks.processPending options m1)).
Proof.
  intros E options m m1.
  assert (Hp : Queue.isProcessed (DeepLinks.queue m1) = true).
  { unfold m1.
    destruct (processPending_grows options m) as (t & tasks & _ & -> & _).
    cbn [DeepLinks.queue]. unfold Queue.isProcessed, Queue.drain.
    destruct (Queue.processed (DeepLinks.queue m)) eqn:Hq; simpl; auto. }
  split; [exact Hp|].
  destruct (processPending_closed options m1 Hp) as (l & ->).
  unfold DeepLinks.drops, DeepLinks.extend, DeepLinks.getPending.
  cbn [fst snd DeepLinks.queue DeepLinks.trace DeepLinks.suspended].
  rewrite invocations_app, rejections_app, invocations_logged,
    rejections_logged, !app_nil_r.
  repeat split.
Qed.

(** ** deep-links.ts: from arrival to delivery *)

Section DeliveryFacts.

Import Types Electron UrlParser DeepLinks Notions.
Import Queue (QueuedDeepLink, q_url, q_intent).

Context `{URL.HostEnvironment}.
Variable options : SetupOptions.
Variable protocols : list string.

(** An action other than [processPending] leaves an open, idle manager
    open and idle, and invokes nothing. *)
Lemma perform_before_ready (a : Action) (m : Manager) :
  a <> DoProcessPending ->
  Queue.isProcessed (queue m) = false ->
  suspended m = [] ->
  let m' := snd (perform options protocols a m) in
  Queue.isProcessed (queue m') = false
  /\ suspended m' = []
  /\ invocations (trace m') = invocations (trace m).
Proof.
  intros Ha Hp Hs. destruct a as [url intent| |url intent| |i];
    cbn [perform]; [| congruence | | |].
  - destruct (handle_open options protocols url intent m Hp) as (l & ->).
    cbn [snd queue trace suspended].
    rewrite invocations_app, invocations_logged, app_nil_r. auto.
  - unfold queueDeepLink, bind, isProcessed. rewrite Hp.
    destruct (handle_open options protocols url (default open_url intent) m Hp)
      as (l & ->).
    cbn [snd queue trace suspended].
    rewrite invocations_app, invocations_logged, app_nil_r. auto.
  - unfold clearPending, on_queue. cbn [snd queue trace suspended Queue.clear fst].
    rewrite invocations_app, invocations_logged, app_nil_r. auto.
  - unfold resume. rewrite Hs. simpl. auto.
Qed.

(** Links that arrive while the queue is open: the accepted ones are
    appended in the order of arrival. *)
Lemma arrivals_queued (links : list (string * DeepLinkIntent)) :
  forall (m : Manager),
    Queue.isProcessed (queue m) = false ->
    let m' := perform_all options protocols (arrivals links) m in
    queue m'
    = {| Queue.queue :=
           Queue.queue (queue m) ++ map entry (accepted protocols links);
         Queue.processed := false |}
    /\ suspended m' = suspended m
    /\ invocations (trace m') = invocations (trace m).
Proof.
  induction links as [|[url intent] links IH]; intros m Hp.
  - simpl. rewrite app_nil_r. repeat split.
    destruct m as [[items p] t tasks]. unfold Queue.isProcessed in Hp.
    simpl in *. now subst p.
  - cbn [arrivals map perform_all fold_left perform fst snd].
    destruct (handle_open options protocols url intent m Hp) as (l & ->).
    cbn [snd].
    match goal with
    | |- context [fold_left _ _ ?m1] =>
        destruct (IH m1 eq_refl) as (Hq & Hs & Hi)
    end.
    unfold perform_all, arrivals in Hq, Hs, Hi.
    rewrite Hq, Hs, Hi. cbn [queue trace suspended Queue.queue].
    rewrite invocations_app, invocations_logged, app_nil_r.
    repeat split. f_equal. rewrite <- app_assoc. f_equal.
    unfold accepted. cbn [List.filter fst].
    now destruct (isRegisteredProtocol url protocols).
Qed.

(** What the consumer is handed for accepted links that are dispatched
    from the queue: their URLs and their intents. *)
Lemma delivered_dispatched (handler : DeepLinkHandler)
      (links : list (string * DeepLinkIntent)) :
  onDeepLink options = Some handler ->
  delivered (dispatched options (map entry (accepted protocols links)))
  = accepted protocols links.
Proof.
  intros Hh. unfold accepted.
  induction links as [|[url intent] links IH]; [reflexivity|].
  cbn [List.filter fst].
  destruct (isRegisteredProtocol url protocols) eqn:Hreg; [|exact IH].
  cbn [map]. rewrite (dispatched_cons options handler Hh).
  cbn [entry q_url q_intent fst snd].
  rewrite (registered_cases protocols url intent) in Hreg.
  destruct (createDeepLinkContext url intent) as [context|] eqn:Hctx;
    [|discriminate].
  destruct (context_intent url intent context Hctx) as [Hintent _].
  unfold delivered in *. cbn [app map fst snd]. rewrite Hintent.
  f_equal. exact IH.
Qed.

End DeliveryFacts.

(** X15. Before [processPending] the consumer callback is never invoked.
    Whatever else is done with a manager since its creation
    ([handleDeepLink], [queueDeepLink], [clearPending], turns of the event
    loop), the queue stays open, nothing is suspended and no invocation is
    made. *)
Theorem X15_nothing_is_dispatched_before_processPending :
  forall (E : URL.HostEnvironment) (options : Types.SetupOptions)
         (protocols : list string) (t : list Electron.Event)
         (actions : list DeepLinks.Action),
    List.Forall (fun a => a <> DeepLinks.DoProcessPending) actions ->
    let m := DeepLinks.perform_all options protocols actions (DeepLinks.started t) in
    Electron.invocations (DeepLinks.trace m) = Electron.invocations t
    /\ Queue.isProcessed (DeepLinks.queue m) = false
    /\ DeepLinks.suspended m = [].
Proof.
  intros E options protocols t actions Hall.
  assert (Hgen : forall m,
             Queue.isProcessed (DeepLinks.queue m) = false ->
             DeepLinks.suspended m = [] ->
             let m' := DeepLinks.perform_all options protocols actions m in
             Electron.invocations (DeepLinks.trace m')
             = Electron.invocations (DeepLinks.trace m)
             /\ Queue.isProcessed (DeepLinks.queue m') = false
             /\ DeepLinks.suspended m' = []).
  { induction Hall as [|a actions Ha _ IH]; intros m Hp Hs; [simpl; auto|].
    destruct (perform_before_ready options protocols a m Ha Hp Hs)
      as (Hp' & Hs' & Hi').
    destruct (IH _ Hp' Hs') as (Hi & Hp'' & Hs'').
    cbn [DeepLinks.perform_all fold_left].
    unfold DeepLinks.perform_all in Hi, Hp'', Hs''.
    rewrite Hi, Hi'. auto. }
  exact (Hgen (DeepLinks.started t) eq_refl eq_refl).
Qed.

Lemma X15_nothing_is_dispatched_before_processPending_witness :
  let m := Samples.four_queued
             (Samples.options_for ["myapp"] (Some Samples.quiet_handler)) in
  Electron.invocations (DeepLinks.trace m) = []
  /\ Queue.isProcessed (DeepLinks.queue m) = false
  /\ DeepLinks.suspended m = [].
Proof.
  apply (X15_nothing_is_dispatched_before_processPending
           Samples.custom_schemes_only
           (Samples.options_for ["myapp"] (Some Samples.quiet_handler))
           ["myapp"] [] Samples.four_queued_actions).
  repeat constructor; discriminate.
Defined.



(** ** The scheme of a link and the configured schemes, continued *)

(** X17. The scheme test of [handleDeepLink] compares the configured
    strings with the scheme as [new URL] prints it, which is in lower case.
    So when no configured string is a scheme in lower case (a lower-case
    letter followed by lower-case letters, digits, [+], [-] or [.]), every
    link is dropped: whatever the URL, the call returns normally, the queue
    is unchanged and the consumer callback is not invoked. *)
Theorem X17_scheme_not_in_lower_case_is_never_matched :
  forall (E : URL.HostEnvironment) (options : Types.SetupOptions)
         (protocols : list string) (url : string)
         (intent : Types.DeepLinkIntent) (m : DeepLinks.Manager),
    List.Forall (fun p => Notions.is_scheme p = false) protocols ->
    UrlParser.isRegisteredProtocol url protocols = false
    /\ DeepLinks.drops m (DeepLinks.handleDeepLink options protocols url intent m).
Proof.
  intros E options protocols url intent m Hall.
  assert (Hreg : UrlParser.isRegisteredProtocol url protocols = false).
  { destruct (UrlParser.isRegisteredProtocol url protocols) eqn:Hreg;
      [|reflexivity].
    apply registered_iff in Hreg. destruct Hreg as (parsed & Hparse & Hin).
    rewrite List.Forall_forall in Hall. specialize (Hall _ Hin).
    unfold UrlParser.parseDeepLink in Hparse.
    destruct (URL.new url) as [u|] eqn:Hu; [|discriminate].
    inversion Hparse; subst. simpl in Hall.
    rewrite protocol_stripped, (new_is_scheme _ _ Hu) in Hall. discriminate. }
  split; [exact Hreg|].
  destruct (handle_dropped options protocols url intent m Hreg) as (l & ->).
  unfold DeepLinks.drops, DeepLinks.extend.
  cbn [fst snd DeepLinks.queue DeepLinks.trace DeepLinks.suspended].
  rewrite invocations_app, rejections_app, invocations_logged,
    rejections_logged, !app_nil_r.
  repeat split.
Qed.

Lemma X17_scheme_not_in_lower_case_is_never_matched_witness :
  Platforms.scanForward ["app"; "MyApp://open"] ["MyApp"] = Some "MyApp://open"
  /\ @UrlParser.isRegisteredProtocol Samples.custom_schemes_only
       "MyApp://open" ["MyApp"] = false
  /\ DeepLinks.drops
       DeepLinks.fresh_manager
       (@DeepLinks.handleDeepLink
          Samples.custom_schemes_only
          (Samples.options_for ["MyApp"] (Some Samples.quiet_handler))
          ["MyApp"] "MyApp://open" Types.launch DeepLinks.fresh_manager).
Proof.
  split; [reflexivity|].
  apply (X17_scheme_not_in_lower_case_is_never_matched
           Samples.custom_schemes_only
           (Samples.options_for ["MyApp"] (Some Samples.quiet_handler))
           ["MyApp"] "MyApp://open" Types.launch DeepLinks.fresh_manager).
  repeat constructor.
Defined.

(** X18. The extractors and the scheme test agree on schemes in lower
    case.  When an argument starts with [<p>://] for such a scheme [p] and
    [new URL] accepts it, the [protocol] that [parseDeepLink] reports is [p]
    itself; so the argument passes the scheme test of every list that holds
    [p], and it is a parse failure, not the scheme, that can still make
    [handleDeepLink] drop a link the extractor returned. *)
Theorem X18_extracted_link_has_the_matched_scheme :
  forall (E : URL.HostEnvironment) (p arg : string),
    Notions.is_scheme p = true ->
    Js.startsWith arg (p ++ "://") = true ->
    (forall parsed,
        UrlParser.parseDeepLink arg = Some parsed -> Types.protocol parsed = p)
    /\ forall protocols,
         In p protocols ->
         UrlParser.isRegisteredProtocol arg protocols
         = match UrlParser.parseDeepLink arg with
           | Some _ => true
           | None => false
           end.
Proof.
  intros E p arg Hp Hstarts.
  destruct (scheme_of_link p arg Hp Hstarts) as (rest & Hscheme).
  assert (Hprotocol : forall parsed,
             UrlParser.parseDeepLink arg = Some parsed ->
             Types.protocol parsed = p).
  { intros parsed. unfold UrlParser.parseDeepLink, URL.new. rewrite Hscheme.
    destruct (if URL.is_special_scheme (Js.str (Js.chars p))
              then URL.special_scheme_state (Js.str (Js.chars p)) rest
              else URL.non_special_state rest); simpl; [|discriminate].
    intros Heq. inversion Heq; subst. simpl.
    rewrite protocol_stripped. simpl. apply str_chars. }
  split; [exact Hprotocol|].
  intros protocols Hin. unfold UrlParser.isRegisteredProtocol.
  destruct (UrlParser.parseDeepLink arg) as [parsed|]; [|reflexivity].
  rewrite (Hprotocol parsed eq_refl). now apply includes_In.
Qed.

Lemma X18_extracted_link_has_the_matched_scheme_witness :
  option_map Types.protocol
             (@UrlParser.parseDeepLink Samples.custom_schemes_only
                "myapp-dev://open/document?id=7")
  = Some "myapp-dev".
Proof.
  destruct (@UrlParser.parseDeepLink Samples.custom_schemes_only
              "myapp-dev://open/document?id=7") as [parsed|] eqn:Hparse;
    [|vm_compute in Hparse; discriminate].
  simpl. f_equal.
  apply (proj1 (X18_extracted_link_has_the_matched_scheme
                  Samples.custom_schemes_only "myapp-dev"
                  "myapp-dev://open/document?id=7" eq_refl eq_refl)).
  exact Hparse.
Defined.

(** ** queue.ts on the heap: what [drain] returns *)

Section MoreHeapFacts.

Import QueueHeap.

(** A change that is not an assignment to the array [a] leaves it as it
    is. *)
Lemma mutate_keeps_array (a : loc) (ms : list Mutation) :
  forall (h : heap),
    List.Forall (fun mu => match mu with
                           | SetArray x _ => x <> a
                           | SetObject _ _ => True
                           end) ms ->
    arrays (mutate_all ms h) !! a = arrays h !! a.
Proof.
  induction ms as [|mu ms IH]; intros h Hall; [reflexivity|].
  inversion Hall as [|? ? Hmu Hms]; subst. simpl.
  rewrite (IH _ Hms). destruct mu as [x elems|o e]; simpl; [|reflexivity].
  now apply lookup_insert_ne.
Qed.

End MoreHeapFacts.

(** X19. [drain] hands out a copy, as [peek] does.  It returns an array
    that reads as the entries the queue held (nothing, when the queue was
    already processed) and leaves the queue as [drain] of the first model
    leaves it.  The array is a new array and the objects in it are new
    objects: none of them existed before the call, and every array and
    every object that existed before the call, the array and the entries
    the queue held among them, is as it was.  So the result shares nothing:
    whatever the caller writes to that array or to those objects, what
    existed before the call is still as it was, and the queue is seen as
    before and stays well formed. *)
Theorem X19_drain_returns_defensive_copy :
  forall (q : QueueHeap.DeepLinkQueue) (h : QueueHeap.heap),
    QueueHeap.wf q h ->
    let '(r, q1, h1) := QueueHeap.drain q h in
    QueueHeap.read h1 r = fst (fst (Queue.drain (QueueHeap.view q h)))
    /\ QueueHeap.view q1 h1 = snd (fst (Queue.drain (QueueHeap.view q h)))
    /\ (r ∉ dom (QueueHeap.arrays h))
    /\ List.Forall (fun o => o ∉ dom (QueueHeap.objects h))
                   (QueueHeap.elements_of h1 r)
    /\ QueueHeap.preserved h h1
    /\ forall ms : list QueueHeap.Mutation,
         List.Forall (QueueHeap.through h1 r) ms ->
         let h2 := QueueHeap.mutate_all ms h1 in
         QueueHeap.preserved h h2
         /\ QueueHeap.view q1 h2 = QueueHeap.view q1 h1
         /\ QueueHeap.wf q1 h2
         /\ QueueHeap.size q1 h2 = Queue.size (QueueHeap.view q1 h1).
Proof.
  intros q h Hwf. pose proof (drain_view q h Hwf) as Hd. revert Hd.
  unfold QueueHeap.drain. destruct (QueueHeap.processed q) eqn:Hp.
  - (* already processed: a new empty array *)
    pose proof (alloc_array_spec [] h) as Halloc.
    destruct (QueueHeap.alloc_array [] h) as [r h1].
    destruct Halloc as (Hpres & Hfresh & Hr & _).
    assert (Hnone : List.Forall (fun o => o ∉ dom (QueueHeap.objects h))
                                (QueueHeap.elements_of h1 r)).
    { unfold QueueHeap.elements_of. rewrite Hr. constructor. }
    intros (Hread & Hview & Hwf1). split; [exact Hread|]. split; [exact Hview|].
    split; [exact Hfresh|]. split; [exact Hnone|]. split; [exact Hpres|].
    intros ms Hms. set (h2 := QueueHeap.mutate_all ms h1).
    pose proof (mutate_preserved h h1 r ms Hfresh Hnone Hms h1 Hpres) as Hp2.
    fold h2 in Hp2.
    destruct (view_preserved q h h1 Hwf Hpres) as (_ & Hv1 & _).
    destruct (view_preserved q h h2 Hwf Hp2) as (_ & Hv2 & Hwf2).
    split; [exact Hp2|]. split; [congruence|]. split; [exact Hwf2|].
    rewrite (wf_size q h2 Hwf2). congruence.
  - (* open: a copy of the entries, and a new empty array for the queue *)
    pose proof (map_copy_spec (QueueHeap.queue q) h (proj2 Hwf)) as Hcopy.
    destruct (QueueHeap.map_copy (QueueHeap.queue q) h) as [urls h1].
    destruct Hcopy as (Hp1 & Hnew & Hin & Hos & _).
    pose proof (alloc_array_spec [] h1) as Halloc.
    destruct (QueueHeap.alloc_array [] h1) as [a h2].
    destruct Halloc as (Hp12 & Hfresh & Ha & _).
    assert (Hp2 : QueueHeap.preserved h h2)
      by exact (preserved_trans _ _ _ Hp1 Hp12).
    assert (Hos2 : List.Forall (fun o => o ∉ dom (QueueHeap.objects h))
                               (QueueHeap.elements_of h2 urls)).
    { unfold QueueHeap.elements_of in *.
      now rewrite (proj1 Hp12 _ Hin). }
    intros (Hread & Hview & Hwf1). split; [exact Hread|]. split; [exact Hview|].
    split; [exact Hnew|]. split; [exact Hos2|]. split; [exact Hp2|].
    intros ms Hms. set (h3 := QueueHeap.mutate_all ms h2).
    pose proof (mutate_preserved h h2 urls ms Hnew Hos2 Hms h2 Hp2) as Hp3.
    fold h3 in Hp3.
    assert (Hkept : QueueHeap.arrays h3 !! a = Some []).
    { unfold h3. rewrite mutate_keeps_array; [exact Ha|].
      eapply List.Forall_impl; [|exact Hms].
      intros [x elems|o e]; simpl; [|auto].
      intros -> ->. contradiction. }
    assert (Hv : forall h', QueueHeap.arrays h' !! a = Some [] ->
                 QueueHeap.view {| QueueHeap.queue := a;
                                   QueueHeap.processed := true |} h'
                 = {| Queue.queue := []; Queue.processed := true |}).
    { intros h' Hh'. unfold QueueHeap.view, QueueHeap.read,
        QueueHeap.elements_of. cbn [QueueHeap.queue QueueHeap.processed].
      now rewrite Hh'. }
    assert (Hwf3 : QueueHeap.wf {| QueueHeap.queue := a;
                                   QueueHeap.processed := true |} h3).
    { split; cbn [QueueHeap.queue].
      - apply elem_of_dom. eauto.
      - unfold QueueHeap.elements_of. rewrite Hkept. constructor. }
    split; [exact Hp3|].
    split; [now rewrite (Hv h3 Hkept), (Hv h2 Ha)|]. split; [exact Hwf3|].
    rewrite (wf_size _ h3 Hwf3). now rewrite (Hv h3 Hkept), (Hv h2 Ha).
Qed.

Lemma X19_drain_returns_defensive_copy_witness :
  let q := fst Samples.two_on_heap in
  let h := snd Samples.two_on_heap in
  let r := fst (fst (QueueHeap.drain q h)) in
  let q1 := snd (fst (QueueHeap.drain q h)) in
  let h1 := snd (QueueHeap.drain q h) in
  QueueHeap.wf q h
  /\ length (QueueHeap.read h1 r) = 2
  /\ QueueHeap.view q1 (QueueHeap.mutate_all (Samples.scribble h1 r) h1)
     = QueueHeap.view q1 h1.
Proof.
  intros q h.
  assert (Hwf : QueueHeap.wf q h).
  { vm_compute. split; [reflexivity|repeat constructor]. }
  pose proof (X19_drain_returns_defensive_copy q h Hwf) as Hcopy.
  destruct (QueueHeap.drain q h) as [[r q1] h1]. cbn [fst snd].
  split; [exact Hwf|].
  destruct Hcopy as (Hread & _ & _ & _ & _ & Hframe). split.
  - rewrite Hread. reflexivity.
  - apply (Hframe (Samples.scribble h1 r)).
    unfold Samples.scribble. constructor; [reflexivity|].
    apply List.Forall_forall. intros mu Hmu. apply in_map_iff in Hmu.
    destruct Hmu as (o & <- & Ho). simpl. now apply list_elem_of_In.
Defined.


(** ** index.ts and instance-lock.ts: a second instance *)

(** X20. A [second-instance] event that arrives before [processPending]
    queues at most one link and invokes nothing.  The link is the one the
    platform extractor finds in the arguments of the second instance, read
    against the configured schemes; it is appended to the queue with intent
    [open-url] when it parses and its scheme is among the registered ones,
    and it is dropped otherwise.  The registered list, the suspended
    dispatches and the consumer invocations are as before. *)
Theorem X20_second_instance_link_is_queued_as_open_url :
  forall (E : URL.HostEnvironment) (env : Electron.Env)
         (options : Types.SetupOptions) (argv : list string)
         (result : ProtocolRegistry.ProtocolRegistryResult)
         (m : DeepLinks.Manager),
    Queue.isProcessed (DeepLinks.queue m) = false ->
    let found :=
      Platforms.extractDeepLinkFromArgs
        (Platforms.getPlatformHandler env) argv
        (InstanceLock.normalizeProtocols (Types.protocols options)) in
    let r := Index.secondInstance env options argv (Index.Running result m) in
    fst r = DeepLinks.Normal tt
    /\ match snd r with
       | Index.Running result' m' =>
           result' = result
           /\ Queue.peek (DeepLinks.queue m')
              = Queue.peek (DeepLinks.queue m)
                  ++ match found with
                     | Some url =>
                         if UrlParser.isRegisteredProtocol
                              url (ProtocolRegistry.registered result)
                         then [{| Queue.q_url := url;
                                  Queue.q_intent := Types.open_url |}]
                         else []
                     | None => []
                     end
           /\ Queue.isProcessed (DeepLinks.queue m') = false
           /\ DeepLinks.suspended m' = DeepLinks.suspended m
           /\ Electron.invocations (DeepLinks.trace m')
              = Electron.invocations (DeepLinks.trace m)
       | Index.MustQuit _ => False
       end.
Proof.
  intros E env options argv result m Hp found r. unfold r, found.
  unfold Index.secondInstance, Index.delegate, InstanceLock.secondInstanceHandler,
    DeepLinks.bind, DeepLinks.emit, DeepLinks.ret.
  assert (Hempty : UrlParser.isRegisteredProtocol
                     "" (ProtocolRegistry.registered result) = false)
    by reflexivity.
  destruct (Platforms.extractDeepLinkFromArgs
              (Platforms.getPlatformHandler env) argv
              (InstanceLock.normalizeProtocols (Types.protocols options)))
    as [[|c url]|].
  - rewrite Hempty.
    cbn [fst snd DeepLinks.queue DeepLinks.trace DeepLinks.suspended].
    rewrite invocations_app. simpl. rewrite !app_nil_r. auto 10.
  - match goal with
    | |- context [DeepLinks.handleDeepLink _ _ _ _ ?m0] =>
        destruct (handle_open options (ProtocolRegistry.registered result)
                              (String c url) Types.open_url m0 Hp) as (l & ->)
    end.
    cbn [fst snd DeepLinks.queue DeepLinks.trace DeepLinks.suspended
         Queue.peek Queue.queue Queue.isProcessed Queue.processed].
    rewrite !invocations_app, invocations_logged. simpl. rewrite !app_nil_r.
    auto 10.
  - cbn [fst snd DeepLinks.queue DeepLinks.trace DeepLinks.suspended].
    rewrite invocations_app. simpl. rewrite !app_nil_r. auto 10.
Qed.

Lemma X20_second_instance_link_is_queued_as_open_url_witness :
  let env := Samples.host Electron.win32 ["app.exe"] in
  let options := Samples.options_for ["myapp"] (Some Samples.quiet_handler) in
  let result := {| ProtocolRegistry.registered := ["myapp"];
                   ProtocolRegistry.failed := [] |} in
  match snd (@Index.secondInstance
               Samples.custom_schemes_only env options
               ["app.exe"; "myapp://first"; "--flag"; "myapp://last"]
               (Index.Running result DeepLinks.fresh_manager)) with
  | Index.Running _ m' =>
      Queue.peek (DeepLinks.queue m')
      = [{| Queue.q_url := "myapp://last"; Queue.q_intent := Types.open_url |}]
  | Index.MustQuit _ => False
  end.
Proof.
  intros env options result.
  pose proof (X20_second_instance_link_is_queued_as_open_url
                Samples.custom_schemes_only env options
                ["app.exe"; "myapp://first"; "--flag"; "myapp://last"]
                result DeepLinks.fresh_manager eq_refl) as [_ Hqueued].
  destruct (snd (@Index.secondInstance
                   Samples.custom_schemes_only env options
                   ["app.exe"; "myapp://first"; "--flag"; "myapp://last"]
                   (Index.Running result DeepLinks.fresh_manager)))
    as [t|result' m']; [exact Hqueued|].
  destruct Hqueued as (_ & Hpeek & _). exact Hpeek.
Defined.
